(** * Robin Hood hash table (robin_table.c): shallow embedding and verification

    The table of [src/src/robin_table.c] is embedded as pure functions over an
    explicit table record.  Machine integers ([size_t], [uint64_t]) are [Z]
    with the 64-bit wrap-around written out, the bucket array is a list
    indexed through [bucket_at] / [set_bucket], the unbounded [while (1)]
    loops carry a probe budget, and [RT_ASSERT] failures and allocator
    results are explicit.  The three hash strategies ([siphash.c],
    [xxh64.c], [rapidhash.c]) follow the table engine, over the same byte
    strings. *)

From Stdlib Require Import ZArith Lia Bool List.
From stdpp Require Import base decidable option list gmap.

Open Scope Z_scope.


(** ** Machine integers *)

Definition wrap64 (x : Z) : Z := x mod 2 ^ 64.

(** [PTRDIFF_MAX] on the LP64 targets of the library: no object handed out
    by [malloc]/[calloc] is larger. *)
Definition PTRDIFF_MAX : Z := 2 ^ 63 - 1.

(** ** Outcomes of a call

    [Done a]: the call returned [a].  [AssertFail]: an [RT_ASSERT] fired.
    [Spin]: a [while (1)] loop used up its probe budget. *)

Inductive outcome (A : Type) : Type :=
| Done (a : A)
| AssertFail
| Spin.
Arguments Done {A} a.
Arguments AssertFail {A}.
Arguments Spin {A}.

Definition obind {A B : Type} (m : outcome A) (f : A -> outcome B) : outcome B :=
  match m with
  | Done a => f a
  | AssertFail => AssertFail
  | Spin => Spin
  end.

Global Instance outcome_bind : MBind outcome := fun A B f m => obind m f.
Global Instance outcome_ret : MRet outcome := fun A a => Done a.

(** [RT_ASSERT(expr)] with assertions enabled (the build's default). *)
Definition RT_ASSERT (c : bool) : outcome unit :=
  if c then Done tt else AssertFail.

(** ** Data model *)

(** A key is the byte string [(key, klen)] designates; bytes are 8-bit [Z]. *)
Definition key_t : Type := list Z.

(** [uint64_t (hash_func)(const void*, size_t, uint64_t)] *)
Definition hash_fn : Type := key_t -> Z -> Z -> Z.

(** The hash contract: a 64-bit value for every key, length and seed. *)
Definition hash_contract (h : hash_fn) : Prop :=
  forall k l s, 0 <= h k l s < 2 ^ 64.

(** [robin_bucket_t].  [key = None] is the [NULL] key pointer, [Some k] a
    pointer to the bytes [k]; [val] is the caller's value pointer, [0] being
    [NULL]. *)
Record robin_bucket_t : Type := mk_bucket {
  key : option key_t;
  val : Z;
  psl : Z;
  klen : Z;
  hash : Z
}.

Global Instance robin_bucket_eq_dec : EqDecision robin_bucket_t.
Proof. solve_decision. Defined.

(** The all-zero bucket that [calloc] and [memset] produce. *)
Definition zero_bucket : robin_bucket_t := mk_bucket None 0 0 0 0.

Definition sizeof_bucket : Z := 40.

(** [struct robin_table_t] *)
Record robin_table_t : Type := mk_table {
  buckets : list robin_bucket_t;
  count : Z;
  bucket_count : Z;
  init_buckets : Z;
  mask : Z;
  expand_at : Z;
  shrink_at : Z;
  seed : Z;
  hash_func : hash_fn
}.

Definition RT_BUCKET_COUNT_MIN : Z := 32.
Definition RT_LOAD_FACTOR_PCT_MAX : Z := 75.
Definition RT_LOAD_FACTOR_PCT_MIN : Z := 25.

Definition NULL : Z := 0.

(** [rt->buckets + idx] read and written. *)
Definition bucket_at (bs : list robin_bucket_t) (idx : Z) : robin_bucket_t :=
  nth (Z.to_nat idx) bs zero_bucket.

Definition set_bucket (bs : list robin_bucket_t) (idx : Z) (b : robin_bucket_t)
  : list robin_bucket_t :=
  <[Z.to_nat idx := b]> bs.

(** ** Allocator

    [avail] is the environment's answer; a request beyond [PTRDIFF_MAX]
    bytes is refused whatever the environment says. *)

Definition malloc_ok (avail : bool) (bytes : Z) : bool :=
  avail && (bytes <=? PTRDIFF_MAX).

(** [calloc(n, sizeof(robin_bucket_t))]: [None] is the [NULL] return. *)
Definition calloc_buckets (avail : bool) (n : Z) : option (list robin_bucket_t) :=
  if malloc_ok avail (n * sizeof_bucket)
  then Some (replicate (Z.to_nat n) zero_bucket)
  else None.

(** ** Capacity policy *)

Definition robin_table_next_pow2 (n : Z) : Z :=
  let n := wrap64 (n - 1) in
  let n := Z.lor n (Z.shiftr n 1) in
  let n := Z.lor n (Z.shiftr n 2) in
  let n := Z.lor n (Z.shiftr n 4) in
  let n := Z.lor n (Z.shiftr n 8) in
  let n := Z.lor n (Z.shiftr n 16) in
  let n := Z.lor n (Z.shiftr n 32) in
  wrap64 (n + 1).

Definition robin_table_calc_bucket_count (count : Z) : Z :=
  let bucket_count := wrap64 (count * 100) / RT_LOAD_FACTOR_PCT_MAX in
  if bucket_count <? RT_BUCKET_COUNT_MIN
  then RT_BUCKET_COUNT_MIN
  else robin_table_next_pow2 bucket_count.

Section Create.

(** [RT_HASH_FUNC_DEFAULT]: the strategy used when [hash_func] is [NULL].
    The bit mixing of the three strategies is outside the table engine. *)
Variable robin_table_rapidhash : hash_fn.

(** [avail_rt] answers the [malloc] of the table header, [avail_bs] the
    [calloc] of the bucket array; [None] is the [NULL] return. *)
Definition robin_table_create (avail_rt avail_bs : bool) (count : Z)
    (hash_func : option hash_fn) (seed : Z) : option robin_table_t :=
  if negb avail_rt then None else
  let bucket_count := robin_table_calc_bucket_count count in
  match calloc_buckets avail_bs bucket_count with
  | None => None
  | Some bs =>
      Some {| buckets := bs;
              count := 0;
              bucket_count := bucket_count;
              init_buckets := bucket_count;
              mask := wrap64 (bucket_count - 1);
              expand_at := wrap64 (bucket_count * RT_LOAD_FACTOR_PCT_MAX) / 100;
              shrink_at := wrap64 (bucket_count * RT_LOAD_FACTOR_PCT_MIN) / 100;
              seed := seed;
              hash_func := match hash_func with
                           | Some h => h
                           | None => robin_table_rapidhash
                           end |}
  end.

End Create.

(** ** Probe engine *)

(** [memcmp(a, b, n)]; only its comparison with [0] is used.  Both operands
    hold [n] bytes at every call. *)
Fixpoint memcmp (a b : list Z) (n : nat) : Z :=
  match n with
  | O => 0
  | S n' =>
      match a, b with
      | x :: a', y :: b' => if x =? y then memcmp a' b' n' else x - y
      | _, _ => 1
      end
  end.

Definition is_null (p : option key_t) : bool :=
  match p with None => true | Some _ => false end.

(** [bucket->hash == hash && bucket->klen == klen &&
     memcmp(bucket->key, key, klen) == 0].  With a [NULL] bucket key the
    third operand is reached only for [klen = 0], where nothing is compared. *)
Definition key_matches (bucket : robin_bucket_t) (h : Z) (k : key_t) (kl : Z) : bool :=
  (hash bucket =? h) && (klen bucket =? kl) &&
  match key bucket with
  | Some bk => memcmp bk k (Z.to_nat kl) =? 0
  | None => true
  end.

Definition set_buckets (rt : robin_table_t) (bs : list robin_bucket_t) : robin_table_t :=
  mk_table bs (count rt) (bucket_count rt) (init_buckets rt) (mask rt)
           (expand_at rt) (shrink_at rt) (seed rt) (hash_func rt).

Definition set_count (rt : robin_table_t) (c : Z) : robin_table_t :=
  mk_table (buckets rt) c (bucket_count rt) (init_buckets rt) (mask rt)
           (expand_at rt) (shrink_at rt) (seed rt) (hash_func rt).

Definition set_psl (b : robin_bucket_t) (p : Z) : robin_bucket_t :=
  mk_bucket (key b) (val b) p (klen b) (hash b).

(** Iterations granted to each [while (1)] probe loop: one more than the
    number of buckets.  On a table with an empty slot no loop uses them up
    (see [put0_loop_fuel_mono] and the totality lemmas). *)
Definition probe_budget (rt : robin_table_t) : nat :=
  S (Z.to_nat (bucket_count rt)).

(** The [while (1)] loop of [robin_table_put0]; [h], [k], [kl], [v] are the
    function's [hash], [key], [klen], [val], and [entry] the entry in hand. *)
Fixpoint put0_loop (fuel : nat) (rt : robin_table_t) (h : Z) (k : key_t) (kl v : Z)
    (idx : Z) (entry : robin_bucket_t) : outcome (Z * robin_table_t) :=
  match fuel with
  | O => Spin
  | S fuel' =>
      let bucket := bucket_at (buckets rt) idx in
      if is_null (key bucket) then
        Done (v, set_count (set_buckets rt (set_bucket (buckets rt) idx entry))
                           (wrap64 (count rt + 1)))
      else if key_matches bucket h k kl then
        Done (val bucket, rt)
      else
        let '(rt1, entry1) :=
          if psl bucket <? psl entry
          then (set_buckets rt (set_bucket (buckets rt) idx entry), bucket)
          else (rt, entry) in
        put0_loop fuel' rt1 h k kl v
                  (Z.land (wrap64 (idx + 1)) (mask rt1))
                  (set_psl entry1 (wrap64 (psl entry1 + 1)))
  end.

Definition robin_table_put0 (fuel : nat) (rt : robin_table_t) (k : key_t) (kl v : Z)
  : outcome (Z * robin_table_t) :=
  let h := hash_func rt k kl (seed rt) in
  let idx := Z.land h (mask rt) in
  let entry := {| key := Some k; val := v; klen := kl; hash := h; psl := 0 |} in
  put0_loop fuel rt h k kl v idx entry.

(** The [for] loop of [robin_table_resize] over the old array: [n] buckets
    remain, starting at index [i]. *)
Fixpoint resize_loop (n : nat) (i : Z) (old_buckets : list robin_bucket_t)
    (rt : robin_table_t) : outcome robin_table_t :=
  match n with
  | O => Done rt
  | S n' =>
      let bucket := bucket_at old_buckets i in
      match key bucket with
      | Some k =>
          '(_, rt1) ← robin_table_put0 (probe_budget rt) rt k (klen bucket) (val bucket);
          resize_loop n' (i + 1) old_buckets rt1
      | None => resize_loop n' (i + 1) old_buckets rt
      end
  end.

(** [avail] answers the [calloc] of the new array. *)
Definition robin_table_resize (avail : bool) (rt : robin_table_t) (new_count : Z)
  : outcome (bool * robin_table_t) :=
  let old_bucket_count := bucket_count rt in
  let old_buckets := buckets rt in
  RT_ASSERT (Z.land new_count (wrap64 (new_count - 1)) =? 0);;
  RT_ASSERT (count rt <? new_count);;
  match calloc_buckets avail new_count with
  | None => Done (false, rt)
  | Some new_buckets =>
      let rt1 :=
        {| buckets := new_buckets;
           count := 0;
           bucket_count := new_count;
           init_buckets := init_buckets rt;
           mask := wrap64 (new_count - 1);
           expand_at := wrap64 (new_count * RT_LOAD_FACTOR_PCT_MAX) / 100;
           shrink_at := wrap64 (new_count * RT_LOAD_FACTOR_PCT_MIN) / 100;
           seed := seed rt;
           hash_func := hash_func rt |} in
      rt2 ← resize_loop (Z.to_nat old_bucket_count) 0 old_buckets rt1;
      Done (true, rt2)
  end.

(** [robin_table_put]; the C pair [(key, klen)] is the byte string [k], so
    [key != NULL] holds and [klen] is its length. *)
Definition robin_table_put (avail : bool) (rt : robin_table_t) (k : key_t) (v : Z)
  : outcome (Z * robin_table_t) :=
  let kl := Z.of_nat (length k) in
  RT_ASSERT (negb (kl =? 0));;
  if expand_at rt <=? count rt then
    '(resized, rt1) ← robin_table_resize avail rt (wrap64 (Z.shiftl (bucket_count rt) 1));
    if resized : bool
    then robin_table_put0 (probe_budget rt1) rt1 k kl v
    else Done (NULL, rt1)
  else robin_table_put0 (probe_budget rt) rt k kl v.

(** The loop of [robin_table_get_bucket]; the result is the index of the
    bucket found ([bucket - rt->buckets]) or [None] for [NULL]. *)
Fixpoint get_bucket_loop (fuel : nat) (rt : robin_table_t) (h : Z) (k : key_t) (kl : Z)
    (idx p : Z) : outcome (option Z) :=
  match fuel with
  | O => Spin
  | S fuel' =>
      let bucket := bucket_at (buckets rt) idx in
      if key_matches bucket h k kl then Done (Some idx)
      else if is_null (key bucket) || (psl bucket <? p) then Done None
      else get_bucket_loop fuel' rt h k kl
             (Z.land (wrap64 (idx + 1)) (mask rt)) (wrap64 (p + 1))
  end.

Definition robin_table_get_bucket (rt : robin_table_t) (k : key_t) (kl : Z)
  : outcome (option Z) :=
  let h := hash_func rt k kl (seed rt) in
  let idx := Z.land h (mask rt) in
  get_bucket_loop (probe_budget rt) rt h k kl idx 0.

Definition robin_table_get (rt : robin_table_t) (k : key_t) : outcome Z :=
  let kl := Z.of_nat (length k) in
  RT_ASSERT (negb (kl =? 0));;
  bucket ← robin_table_get_bucket rt k kl;
  match bucket with
  | Some i => Done (val (bucket_at (buckets rt) i))
  | None => Done NULL
  end.

(** The backward-shift loop of [robin_table_del]: [bucket] is the index of
    the slot being vacated, [idx] the loop's index variable. *)
Fixpoint del_shift (fuel : nat) (rt : robin_table_t) (bucket idx : Z)
  : outcome robin_table_t :=
  match fuel with
  | O => Spin
  | S fuel' =>
      let idx := Z.land (wrap64 (idx + 1)) (mask rt) in
      let next_bucket := bucket_at (buckets rt) idx in
      if is_null (key next_bucket) || (psl next_bucket =? 0) then
        Done (set_count (set_buckets rt (set_bucket (buckets rt) bucket zero_bucket))
                        (wrap64 (count rt - 1)))
      else
        let bs1 := set_bucket (buckets rt) idx
                     (set_psl next_bucket (wrap64 (psl next_bucket - 1))) in
        let bs2 := set_bucket bs1 bucket (bucket_at bs1 idx) in
        del_shift fuel' (set_buckets rt bs2) idx idx
  end.

(** [avail] answers the [calloc] of a shrinking resize, if one is tried. *)
Definition robin_table_del (avail : bool) (rt : robin_table_t) (k : key_t)
  : outcome (Z * robin_table_t) :=
  let kl := Z.of_nat (length k) in
  RT_ASSERT (negb (kl =? 0));;
  found ← robin_table_get_bucket rt k kl;
  match found return outcome (Z * robin_table_t) with
  | None => Done (NULL, rt)
  | Some bucket =>
      let v := val (bucket_at (buckets rt) bucket) in
      let idx := bucket in
      rt1 ← del_shift (probe_budget rt) rt bucket idx;
      if (init_buckets rt1 <? bucket_count rt1) && (count rt1 <=? shrink_at rt1) then
        '(_, rt2) ← robin_table_resize avail rt1 (Z.shiftr (bucket_count rt1) 1);
        Done (v, rt2)
      else Done (v, rt1)
  end.

(** [avail] answers the [malloc] of the fresh array when [update_buckets]. *)
Definition robin_table_clear (avail : bool) (rt : robin_table_t) (update_buckets : bool)
  : bool * robin_table_t :=
  if update_buckets then
    if malloc_ok avail (wrap64 (init_buckets rt * sizeof_bucket)) then
      let n := init_buckets rt in
      (true,
       {| buckets := replicate (Z.to_nat n) zero_bucket;
          count := 0;
          bucket_count := n;
          init_buckets := init_buckets rt;
          mask := wrap64 (n - 1);
          expand_at := wrap64 (n * RT_LOAD_FACTOR_PCT_MAX) / 100;
          shrink_at := wrap64 (n * RT_LOAD_FACTOR_PCT_MIN) / 100;
          seed := seed rt;
          hash_func := hash_func rt |})
    else (false, rt)
  else
    (true,
     set_count (set_buckets rt (replicate (Z.to_nat (bucket_count rt)) zero_bucket)) 0).

Definition robin_table_count (rt : robin_table_t) : Z := count rt.

(** ** Iteration *)

(** [robin_table_iter_t]: the [key] and [val] fields a caller reads. *)
Record robin_table_iter_t : Type := mk_iter {
  iter_key : option key_t;
  iter_val : Z
}.

(** [robin_table_iter_impl_t].  Its [rt] field is a pointer to the table:
    the iterator owns no copy, so the functions below are given the table
    that pointer designates at the time of the call. *)
Record robin_table_iter_impl_t : Type := mk_iter_impl {
  iter : robin_table_iter_t;
  idx : Z
}.

(** [avail] answers the [malloc] of the iterator; [None] is the [NULL]
    return.  [idx = -1] is stored in a [size_t]. *)
Definition robin_table_iter_create (avail : bool) (rt : robin_table_t)
  : option robin_table_iter_impl_t :=
  if negb avail then None
  else Some {| iter := {| iter_key := None; iter_val := NULL |};
               idx := wrap64 (-1) |}.

(** The loop [while (++iter_impl->idx < iter_impl->rt->bucket_count)] of
    [robin_table_iter_next] and the [memset] that follows it. *)
Fixpoint iter_next_loop (fuel : nat) (rt : robin_table_t) (it : robin_table_iter_impl_t)
  : outcome (bool * robin_table_iter_impl_t) :=
  match fuel with
  | O => Spin
  | S fuel' =>
      let i := wrap64 (idx it + 1) in
      if i <? bucket_count rt then
        let bucket := bucket_at (buckets rt) i in
        match key bucket with
        | Some k =>
            Done (true, {| iter := {| iter_key := Some k; iter_val := val bucket |};
                           idx := i |})
        | None => iter_next_loop fuel' rt {| iter := iter it; idx := i |}
        end
      else
        Done (false, {| iter := {| iter_key := None; iter_val := NULL |}; idx := i |})
  end.

Definition robin_table_iter_next (rt : robin_table_t) (it : robin_table_iter_impl_t)
  : outcome (bool * robin_table_iter_impl_t) :=
  iter_next_loop (probe_budget rt) rt it.

(** The traversal a caller writes (test_iterate_str, test_iterate_int):
    [while (robin_table_iter_next(iter))] with a body that reads
    [iter->key] and [iter->val].  The result lists what the body read, in
    order, and the iterator as the loop leaves it. *)
Fixpoint iter_drain (fuel : nat) (rt : robin_table_t) (it : robin_table_iter_impl_t)
  : outcome (list robin_table_iter_t * robin_table_iter_impl_t) :=
  match fuel with
  | O => Spin
  | S fuel' =>
      '(more, it1) ← robin_table_iter_next rt it;
      if more : bool then
        '(rest, it2) ← iter_drain fuel' rt it1;
        Done (iter it1 :: rest, it2)
      else Done ([], it1)
  end.

(** ** Probe statistics *)

(** The [for] loop of [robin_table_psl_max]: [n] buckets remain, starting
    at index [i]. *)
Fixpoint psl_max_loop (n : nat) (i : Z) (rt : robin_table_t) (max_psl : Z) : Z :=
  match n with
  | O => max_psl
  | S n' =>
      let bucket := bucket_at (buckets rt) i in
      let max_psl :=
        if negb (is_null (key bucket)) && (max_psl <? psl bucket)
        then psl bucket else max_psl in
      psl_max_loop n' (i + 1) rt max_psl
  end.

Definition robin_table_psl_max (rt : robin_table_t) : outcome Z :=
  RT_ASSERT (negb (count rt =? 0));;
  Done (psl_max_loop (Z.to_nat (bucket_count rt)) 0 rt 0).

(** ** Hash strategies *)

(** [p[i]] for a [const uint8_t* p] into the key bytes. *)
Definition byte_at (p : key_t) (i : Z) : Z := nth (Z.to_nat i) p 0.

(** *** SipHash-2-4 (siphash.c) *)

Definition ROTL (x b : Z) : Z :=
  Z.lor (wrap64 (Z.shiftl x b)) (Z.shiftr x (64 - b)).

Definition SIPROUND (v : Z * Z * Z * Z) : Z * Z * Z * Z :=
  let '(v0, v1, v2, v3) := v in
  let v0 := wrap64 (v0 + v1) in
  let v1 := ROTL v1 13 in
  let v1 := Z.lxor v1 v0 in
  let v0 := ROTL v0 32 in
  let v2 := wrap64 (v2 + v3) in
  let v3 := ROTL v3 16 in
  let v3 := Z.lxor v3 v2 in
  let v0 := wrap64 (v0 + v3) in
  let v3 := ROTL v3 21 in
  let v3 := Z.lxor v3 v0 in
  let v2 := wrap64 (v2 + v1) in
  let v1 := ROTL v1 17 in
  let v1 := Z.lxor v1 v2 in
  (v0, v1, v2, v3).

(** The [for (; curr != end; curr += 8)] loop of [siphash]: [n] blocks of
    eight bytes remain, [curr] is the offset of the next one. *)
Fixpoint siphash_blocks (n : nat) (inp : key_t) (curr : Z) (v : Z * Z * Z * Z)
  : Z * Z * Z * Z :=
  match n with
  | O => v
  | S n' =>
      let m :=
        Z.lor (Z.lor (Z.lor (Z.lor (Z.lor (Z.lor (Z.lor
          (byte_at inp curr)
          (Z.shiftl (byte_at inp (curr + 1)) 8))
          (Z.shiftl (byte_at inp (curr + 2)) 16))
          (Z.shiftl (byte_at inp (curr + 3)) 24))
          (Z.shiftl (byte_at inp (curr + 4)) 32))
          (Z.shiftl (byte_at inp (curr + 5)) 40))
          (Z.shiftl (byte_at inp (curr + 6)) 48))
          (Z.shiftl (byte_at inp (curr + 7)) 56) in
      let '(v0, v1, v2, v3) := v in
      let v3 := Z.lxor v3 m in
      let '(v0, v1, v2, v3) := SIPROUND (SIPROUND (v0, v1, v2, v3)) in
      let v0 := Z.lxor v0 m in
      siphash_blocks n' inp (curr + 8) (v0, v1, v2, v3)
  end.

Definition siphash (inp : key_t) (len seed : Z) : Z :=
  let v0 := Z.lxor 0x736f6d6570736575 seed in
  let v1 := Z.lxor 0x646f72616e646f6d (Z.shiftr seed 32) in
  let v2 := Z.lxor 0x6c7967656e657261 seed in
  let v3 := Z.lxor 0x7465646279746573 (Z.shiftr seed 32) in
  let '(v0, v1, v2, v3) :=
    siphash_blocks (Z.to_nat (len / 8)) inp 0 (v0, v1, v2, v3) in
  let curr := len - len mod 8 in
  let b := wrap64 (Z.shiftl len 56) in
  let left := len mod 8 in
  let b := if 7 <=? left then Z.lor b (Z.shiftl (byte_at inp (curr + 6)) 48) else b in
  let b := if 6 <=? left then Z.lor b (Z.shiftl (byte_at inp (curr + 5)) 40) else b in
  let b := if 5 <=? left then Z.lor b (Z.shiftl (byte_at inp (curr + 4)) 32) else b in
  let b := if 4 <=? left then Z.lor b (Z.shiftl (byte_at inp (curr + 3)) 24) else b in
  let b := if 3 <=? left then Z.lor b (Z.shiftl (byte_at inp (curr + 2)) 16) else b in
  let b := if 2 <=? left then Z.lor b (Z.shiftl (byte_at inp (curr + 1)) 8) else b in
  let b := if 1 <=? left then Z.lor b (byte_at inp curr) else b in
  let v3 := Z.lxor v3 b in
  let '(v0, v1, v2, v3) := SIPROUND (SIPROUND (v0, v1, v2, v3)) in
  let v0 := Z.lxor v0 b in
  let v2 := Z.lxor v2 0xff in
  let '(v0, v1, v2, v3) := SIPROUND (SIPROUND (SIPROUND (SIPROUND (v0, v1, v2, v3)))) in
  Z.lxor (Z.lxor (Z.lxor v0 v1) v2) v3.

Definition robin_table_siphash : hash_fn := siphash.

(** *** XXH64 (xxh64.c) *)

Definition PRIME64_1 : Z := 0x9E3779B185EBCA87.
Definition PRIME64_2 : Z := 0xC2B2AE3D27D4EB4F.
Definition PRIME64_3 : Z := 0x165667B19E3779F9.
Definition PRIME64_4 : Z := 0x85EBCA77C2B2AE63.
Definition PRIME64_5 : Z := 0x27D4EB2F165667C5.

Definition XXH_rotl64 (value amt : Z) : Z :=
  Z.lor (wrap64 (Z.shiftl value (amt mod 64))) (Z.shiftr value (64 - amt mod 64)).

Definition XXH_read32 (data : key_t) (offset : Z) : Z :=
  Z.lor (Z.lor (Z.lor
    (byte_at data (offset + 0))
    (Z.shiftl (byte_at data (offset + 1)) 8))
    (Z.shiftl (byte_at data (offset + 2)) 16))
    (Z.shiftl (byte_at data (offset + 3)) 24).

Definition XXH_read64 (data : key_t) (offset : Z) : Z :=
  Z.lor (Z.lor (Z.lor (Z.lor (Z.lor (Z.lor (Z.lor
    (byte_at data (offset + 0))
    (Z.shiftl (byte_at data (offset + 1)) 8))
    (Z.shiftl (byte_at data (offset + 2)) 16))
    (Z.shiftl (byte_at data (offset + 3)) 24))
    (Z.shiftl (byte_at data (offset + 4)) 32))
    (Z.shiftl (byte_at data (offset + 5)) 40))
    (Z.shiftl (byte_at data (offset + 6)) 48))
    (Z.shiftl (byte_at data (offset + 7)) 56).

Definition XXH64_round (acc input : Z) : Z :=
  let acc := wrap64 (acc + wrap64 (input * PRIME64_2)) in
  let acc := XXH_rotl64 acc 31 in
  wrap64 (acc * PRIME64_1).

Definition XXH64_mergeRound (hash acc : Z) : Z :=
  let hash := Z.lxor hash (XXH64_round 0 acc) in
  let hash := wrap64 (hash * PRIME64_1) in
  wrap64 (hash + PRIME64_4).

Definition XXH64_avalanche (hash : Z) : Z :=
  let hash := Z.lxor hash (Z.shiftr hash 33) in
  let hash := wrap64 (hash * PRIME64_2) in
  let hash := Z.lxor hash (Z.shiftr hash 29) in
  let hash := wrap64 (hash * PRIME64_3) in
  Z.lxor hash (Z.shiftr hash 32).

(** The loop [while (remaining >= 32)] of [XXH64]: [n] stripes of 32 bytes
    remain, starting at [offset]. *)
Fixpoint XXH64_stripes (n : nat) (data : key_t) (offset : Z) (acc : Z * Z * Z * Z)
  : Z * Z * Z * Z :=
  match n with
  | O => acc
  | S n' =>
      let '(acc1, acc2, acc3, acc4) := acc in
      let acc1 := XXH64_round acc1 (XXH_read64 data offset) in
      let offset := offset + 8 in
      let acc2 := XXH64_round acc2 (XXH_read64 data offset) in
      let offset := offset + 8 in
      let acc3 := XXH64_round acc3 (XXH_read64 data offset) in
      let offset := offset + 8 in
      let acc4 := XXH64_round acc4 (XXH_read64 data offset) in
      let offset := offset + 8 in
      XXH64_stripes n' data offset (acc1, acc2, acc3, acc4)
  end.

(** The loop [while (remaining >= 8)]: [n] words remain. *)
Fixpoint XXH64_words (n : nat) (data : key_t) (offset : Z) (hash : Z) : Z :=
  match n with
  | O => hash
  | S n' =>
      let hash := Z.lxor hash (XXH64_round 0 (XXH_read64 data offset)) in
      let hash := XXH_rotl64 hash 27 in
      let hash := wrap64 (hash * PRIME64_1) in
      let hash := wrap64 (hash + PRIME64_4) in
      XXH64_words n' data (offset + 8) hash
  end.

(** The loop [while (remaining != 0)]: [n] bytes remain. *)
Fixpoint XXH64_bytes (n : nat) (data : key_t) (offset : Z) (hash : Z) : Z :=
  match n with
  | O => hash
  | S n' =>
      let hash := Z.lxor hash (wrap64 (byte_at data offset * PRIME64_5)) in
      let hash := XXH_rotl64 hash 11 in
      let hash := wrap64 (hash * PRIME64_1) in
      XXH64_bytes n' data (offset + 1) hash
  end.

(** [XXH64] on a non-[NULL] input (the table asserts [key != NULL]). *)
Definition XXH64 (data : key_t) (len seed : Z) : Z :=
  let remaining := len in
  let offset := 0 in
  let '(hash, offset, remaining) :=
    if 32 <=? remaining then
      let acc1 := wrap64 (wrap64 (seed + PRIME64_1) + PRIME64_2) in
      let acc2 := wrap64 (seed + PRIME64_2) in
      let acc3 := wrap64 (seed + 0) in
      let acc4 := wrap64 (seed - PRIME64_1) in
      let '(acc1, acc2, acc3, acc4) :=
        XXH64_stripes (Z.to_nat (remaining / 32)) data offset (acc1, acc2, acc3, acc4) in
      let hash :=
        wrap64 (wrap64 (wrap64 (XXH_rotl64 acc1 1 + XXH_rotl64 acc2 7)
                        + XXH_rotl64 acc3 12) + XXH_rotl64 acc4 18) in
      let hash := XXH64_mergeRound hash acc1 in
      let hash := XXH64_mergeRound hash acc2 in
      let hash := XXH64_mergeRound hash acc3 in
      let hash := XXH64_mergeRound hash acc4 in
      (hash, offset + 32 * (remaining / 32), remaining mod 32)
    else (wrap64 (seed + PRIME64_5), offset, remaining) in
  let hash := wrap64 (hash + len) in
  let hash := XXH64_words (Z.to_nat (remaining / 8)) data offset hash in
  let offset := offset + 8 * (remaining / 8) in
  let remaining := remaining mod 8 in
  let '(hash, offset, remaining) :=
    if 4 <=? remaining then
      let hash := Z.lxor hash (wrap64 (XXH_read32 data offset * PRIME64_1)) in
      let hash := XXH_rotl64 hash 23 in
      let hash := wrap64 (hash * PRIME64_2) in
      let hash := wrap64 (hash + PRIME64_3) in
      (hash, offset + 4, remaining - 4)
    else (hash, offset, remaining) in
  let hash := XXH64_bytes (Z.to_nat remaining) data offset hash in
  XXH64_avalanche hash.

Definition robin_table_xxh64 : hash_fn := XXH64.

(** *** rapidhash (rapidhash.c) *)

Definition rapid_secret : list Z :=
  [0x2d358dccaa6c78a5; 0x8bb84b93962eacc9; 0x4b33a62ed433d4a3].

(** [rapid_mul128] where the compiler has [__uint128_t]: the pair is
    [(low, high)]. *)
Definition rapid_mul128 (A B : Z) : Z * Z :=
  let r := (A * B) mod 2 ^ 128 in
  (wrap64 r, wrap64 (Z.shiftr r 64)).

(** [rapid_mul128] where it has not: the [#else] branch. *)
Definition rapid_mul128_portable (A B : Z) : Z * Z :=
  let a_high := Z.shiftr A 32 in
  let b_high := Z.shiftr B 32 in
  let a_low := A mod 2 ^ 32 in
  let b_low := B mod 2 ^ 32 in
  let result_high := wrap64 (a_high * b_high) in
  let result_m0 := wrap64 (a_high * b_low) in
  let result_m1 := wrap64 (b_high * a_low) in
  let result_low := wrap64 (a_low * b_low) in
  let high := wrap64 (wrap64 (result_high + Z.shiftr result_m0 32)
                      + Z.shiftr result_m1 32) in
  let t := wrap64 (result_low + wrap64 (Z.shiftl result_m0 32)) in
  let high := wrap64 (high + (if t <? result_low then 1 else 0)) in
  let low := wrap64 (t + wrap64 (Z.shiftl result_m1 32)) in
  let high := wrap64 (high + (if low <? t then 1 else 0)) in
  (low, high).

Definition rapid_mix (A B : Z) : Z :=
  let '(low, high) := rapid_mul128 A B in
  Z.lxor low high.

(** [memcpy] of eight (four) bytes into an integer, on a little-endian
    target. *)
Definition rapid_read64 (p : key_t) (off : Z) : Z :=
  Z.lor (Z.lor (Z.lor (Z.lor (Z.lor (Z.lor (Z.lor
    (byte_at p off)
    (Z.shiftl (byte_at p (off + 1)) 8))
    (Z.shiftl (byte_at p (off + 2)) 16))
    (Z.shiftl (byte_at p (off + 3)) 24))
    (Z.shiftl (byte_at p (off + 4)) 32))
    (Z.shiftl (byte_at p (off + 5)) 40))
    (Z.shiftl (byte_at p (off + 6)) 48))
    (Z.shiftl (byte_at p (off + 7)) 56).

Definition rapid_read32 (p : key_t) (off : Z) : Z :=
  Z.lor (Z.lor (Z.lor
    (byte_at p off)
    (Z.shiftl (byte_at p (off + 1)) 8))
    (Z.shiftl (byte_at p (off + 2)) 16))
    (Z.shiftl (byte_at p (off + 3)) 24).

Definition rapid_readSmall (p : key_t) (k : Z) : Z :=
  Z.lor (Z.lor (Z.shiftl (byte_at p 0) 56)
               (Z.shiftl (byte_at p (Z.shiftr k 1)) 32))
        (byte_at p (k - 1)).

(** The [do ... while (i >= 48)] loop of [rapidhash_internal]: [n] rounds
    of 48 bytes remain, [p] is the offset reached. *)
Fixpoint rapidhash_rounds (n : nat) (key : key_t) (p : Z) (secret : list Z)
    (s : Z * Z * Z) : Z * Z * Z :=
  match n with
  | O => s
  | S n' =>
      let '(seed, see1, see2) := s in
      let seed := rapid_mix (Z.lxor (rapid_read64 key p) (nth 0 secret 0))
                            (Z.lxor (rapid_read64 key (p + 8)) seed) in
      let see1 := rapid_mix (Z.lxor (rapid_read64 key (p + 16)) (nth 1 secret 0))
                            (Z.lxor (rapid_read64 key (p + 24)) see1) in
      let see2 := rapid_mix (Z.lxor (rapid_read64 key (p + 32)) (nth 2 secret 0))
                            (Z.lxor (rapid_read64 key (p + 40)) see2) in
      rapidhash_rounds n' key (p + 48) secret (seed, see1, see2)
  end.

Definition rapidhash_internal (key : key_t) (len seed : Z) (secret : list Z) : Z :=
  let p := 0 in
  let seed :=
    Z.lxor seed
      (Z.lxor (rapid_mix (Z.lxor seed (nth 0 secret 0)) (nth 1 secret 0)) len) in
  let '(a, b, seed) :=
    if len <=? 16 then
      if 4 <=? len then
        let plast := p + len - 4 in
        let a := Z.lor (wrap64 (Z.shiftl (rapid_read32 key p) 32)) (rapid_read32 key plast) in
        let delta := Z.shiftr (Z.land len 24) (Z.shiftr len 3) in
        let b := Z.lor (wrap64 (Z.shiftl (rapid_read32 key (p + delta)) 32))
                       (rapid_read32 key (plast - delta)) in
        (a, b, seed)
      else if 0 <? len then (rapid_readSmall key len, 0, seed)
      else (0, 0, seed)
    else
      let i := len in
      let '(p, i, seed) :=
        if 48 <? i then
          let '(seed, see1, see2) :=
            rapidhash_rounds (Z.to_nat (i / 48)) key p secret (seed, seed, seed) in
          (p + 48 * (i / 48), i mod 48, Z.lxor seed (Z.lxor see1 see2))
        else (p, i, seed) in
      let seed :=
        if 16 <? i then
          let seed := rapid_mix (Z.lxor (rapid_read64 key p) (nth 2 secret 0))
                                (Z.lxor (Z.lxor (rapid_read64 key (p + 8)) seed)
                                        (nth 1 secret 0)) in
          if 32 <? i then
            rapid_mix (Z.lxor (rapid_read64 key (p + 16)) (nth 2 secret 0))
                      (Z.lxor (rapid_read64 key (p + 24)) seed)
          else seed
        else seed in
      (rapid_read64 key (p + i - 16), rapid_read64 key (p + i - 8), seed) in
  let a := Z.lxor a (nth 1 secret 0) in
  let b := Z.lxor b seed in
  let '(low, high) := rapid_mul128 a b in
  rapid_mix (Z.lxor (Z.lxor low (nth 0 secret 0)) len) (Z.lxor high (nth 1 secret 0)).

Definition rapidhash (key : key_t) (len seed : Z) : Z :=
  rapidhash_internal key len seed rapid_secret.

Definition robin_table_rapidhash : hash_fn := rapidhash.

(** * Specification-side definitions *)

(** ** Capacity as specified *)

(** [ceil(a / b)] for positive [b]. *)
Definition ceil_div (a b : Z) : Z := (a + b - 1) / b.

(** [target_capacity] as the specification words it:
    [raw = ceil(n * 100 / MAX_LOAD_PCT)], [MIN_BUCKETS] below it, else the
    next power of two at or above [raw]. *)
Definition target_capacity (n : Z) : Z :=
  let raw := ceil_div (n * 100) RT_LOAD_FACTOR_PCT_MAX in
  if raw <? RT_BUCKET_COUNT_MIN
  then RT_BUCKET_COUNT_MIN
  else 2 ^ Z.log2_up raw.

(** ** Occupancy and table invariants *)

(** 1 for an occupied bucket, 0 for an empty one. *)
Definition occ (b : robin_bucket_t) : Z := if is_null (key b) then 0 else 1.

(** Number of occupied slots. *)
Fixpoint occ_count (bs : list robin_bucket_t) : Z :=
  match bs with
  | [] => 0
  | b :: bs' => occ b + occ_count bs'
  end.

(** [rt->buckets[i]] *)
Definition slot (rt : robin_table_t) (i : Z) : robin_bucket_t :=
  bucket_at (buckets rt) i.

(** [i] indexes the bucket array. *)
Definition in_range (rt : robin_table_t) (i : Z) : Prop :=
  0 <= i < bucket_count rt.

(** Probe position of a slot: [-1] for an empty slot, its [psl] otherwise. *)
Definition rank (b : robin_bucket_t) : Z :=
  if is_null (key b) then -1 else psl b.

(** Sizes: a power-of-two array of the recorded length, thresholds as
    [robin_table_create] and [robin_table_resize] compute them. *)
Record geometry (rt : robin_table_t) : Prop := {
  geo_pow2 : exists e, 0 <= e /\ bucket_count rt = 2 ^ e;
  geo_init_pow2 : exists e, 0 <= e /\ init_buckets rt = 2 ^ e;
  geo_floor : RT_BUCKET_COUNT_MIN <= init_buckets rt <= bucket_count rt;
  geo_fit : bucket_count rt * sizeof_bucket <= PTRDIFF_MAX;
  geo_len : Z.of_nat (length (buckets rt)) = bucket_count rt;
  geo_mask : mask rt = bucket_count rt - 1;
  geo_expand : expand_at rt = bucket_count rt * RT_LOAD_FACTOR_PCT_MAX / 100;
  geo_shrink : shrink_at rt = bucket_count rt * RT_LOAD_FACTOR_PCT_MIN / 100
}.

(** What an occupied bucket [b] stored at index [i] records. *)
Definition entry_ok (rt : robin_table_t) (i : Z) (b : robin_bucket_t) : Prop :=
  forall k, key b = Some k ->
    k <> [] /\
    klen b = Z.of_nat (length k) /\
    hash b = hash_func rt k (klen b) (seed rt) /\
    0 <= psl b < bucket_count rt /\
    (Z.land (hash b) (mask rt) + psl b) mod bucket_count rt = i.

Definition zeros_ok (rt : robin_table_t) : Prop :=
  forall i, in_range rt i -> key (slot rt i) = None -> slot rt i = zero_bucket.

Definition entries_ok (rt : robin_table_t) : Prop :=
  forall i, in_range rt i -> entry_ok rt i (slot rt i).

Definition distinct_ok (rt : robin_table_t) : Prop :=
  forall i j k, in_range rt i -> in_range rt j ->
    key (slot rt i) = Some k -> key (slot rt j) = Some k -> i = j.

(** Robin Hood ordering between neighbours: stepping to the next slot
    raises the probe position by at most one.  [ex] is the index of a pair
    exempted while a deletion is shifting. *)
Definition robin_except (rt : robin_table_t) (ex : Z -> Prop) : Prop :=
  forall i, in_range rt i -> ~ ex i ->
    rank (slot rt ((i + 1) mod bucket_count rt)) <= rank (slot rt i) + 1.

Definition robin_ok (rt : robin_table_t) : Prop :=
  robin_except rt (fun _ => False).

Record table_inv (rt : robin_table_t) : Prop := {
  inv_geometry : geometry rt;
  inv_zeros : zeros_ok rt;
  inv_entries : entries_ok rt;
  inv_distinct : distinct_ok rt;
  inv_robin : robin_ok rt;
  inv_count : count rt = occ_count (buckets rt)
}.

(** Well-formed tables: the invariants together with the load bound that
    [robin_table_put] maintains.  Every table reachable through the public
    interface is well formed ([reachable_WF]). *)
Definition WF (rt : robin_table_t) : Prop :=
  table_inv rt /\ count rt <= expand_at rt.

(** The table associates [v] with [k]. *)
Definition holds (rt : robin_table_t) (k : key_t) (v : Z) : Prop :=
  exists i, in_range rt i /\ key (slot rt i) = Some k /\ val (slot rt i) = v.

Definition absent (rt : robin_table_t) (k : key_t) : Prop :=
  forall i, in_range rt i -> key (slot rt i) <> Some k.

(** The fields no probe loop touches. *)
Definition same_frame (rt rt' : robin_table_t) : Prop :=
  bucket_count rt' = bucket_count rt /\
  init_buckets rt' = init_buckets rt /\
  mask rt' = mask rt /\
  expand_at rt' = expand_at rt /\
  shrink_at rt' = shrink_at rt /\
  seed rt' = seed rt /\
  hash_func rt' = hash_func rt.

(** ** Auxiliary tables and arrays *)

(** [x] has bit [i] set exactly when [m] has a set bit in [[i, i + w)]. *)
Definition window (m w x : Z) : Prop :=
  forall i, 0 <= i ->
    (Z.testbit x i = true <-> exists j, i <= j < i + w /\ Z.testbit m j = true).

(** [rt] with bucket [b] stored at index [i] and count [c]. *)
Definition write_slot (rt : robin_table_t) (i : Z) (b : robin_bucket_t) (c : Z)
  : robin_table_t :=
  set_count (set_buckets rt (set_bucket (buckets rt) i b)) c.

(** The table with slot [c] emptied: while the shift runs, slot [c] holds a
    stale copy that the next step overwrites. *)
Definition vacated (rt : robin_table_t) (c : Z) : robin_table_t :=
  write_slot rt c zero_bucket (count rt).

(** Two arrays that differ at most in slot [vac]. *)
Definition agree_except (vac : Z) (bs bs' : list robin_bucket_t) : Prop :=
  length bs' = length bs /\
  forall j, 0 <= j -> j <> vac -> bucket_at bs' j = bucket_at bs j.

(** A freshly zeroed table, as [calloc] and the header stores leave it. *)
Definition fresh_table (n init sd : Z) (hf : hash_fn) : robin_table_t :=
  {| buckets := replicate (Z.to_nat n) zero_bucket;
     count := 0;
     bucket_count := n;
     init_buckets := init;
     mask := wrap64 (n - 1);
     expand_at := wrap64 (n * RT_LOAD_FACTOR_PCT_MAX) / 100;
     shrink_at := wrap64 (n * RT_LOAD_FACTOR_PCT_MIN) / 100;
     seed := sd;
     hash_func := hf |}.

(** ** Backward shift, specification side *)

(** The shift as the specification words it: walking forward from the freed
    index with wraparound; on a slot that is empty or has [psl = 0], "zero
    the originally-freed slot, decrement entry_count, and stop"; otherwise
    "decrement that slot's psl by one and move it one position back (into
    the slot being vacated), then continue from the now-vacated next slot".
    [freed] is the index where the key was found, [vac] the slot being
    vacated. *)
Fixpoint shift_as_specified (fuel : nat) (msk : Z) (bs : list robin_bucket_t) (cnt : Z)
    (freed vac : Z) : option (list robin_bucket_t * Z) :=
  match fuel with
  | O => None
  | S fuel' =>
      let nxt := Z.land (vac + 1) msk in
      let s := bucket_at bs nxt in
      if is_null (key s) || (psl s =? 0)
      then Some (set_bucket bs freed zero_bucket, cnt - 1)
      else shift_as_specified fuel' msk (set_bucket bs vac (set_psl s (psl s - 1)))
                              cnt freed nxt
  end.

(** The same steps, zeroing at the stop the slot being vacated. *)
Fixpoint shift_as_amended (fuel : nat) (msk : Z) (bs : list robin_bucket_t) (cnt : Z)
    (vac : Z) : option (list robin_bucket_t * Z) :=
  match fuel with
  | O => None
  | S fuel' =>
      let nxt := Z.land (vac + 1) msk in
      let s := bucket_at bs nxt in
      if is_null (key s) || (psl s =? 0)
      then Some (set_bucket bs vac zero_bucket, cnt - 1)
      else shift_as_amended fuel' msk (set_bucket bs vac (set_psl s (psl s - 1)))
                            cnt nxt
  end.

(** ** What a traversal should yield *)

(** The key and value of every occupied bucket, in array order. *)
Definition entries (bs : list robin_bucket_t) : list robin_table_iter_t :=
  map (fun b => mk_iter (key b) (val b))
      (List.filter (fun b => negb (is_null (key b))) bs).

(** ** Inputs of the hash strategies *)

(** A value of type [uint64_t]. *)
Definition u64 (x : Z) : Prop := 0 <= x < 2 ^ 64.

(** Two buffers with the same first [len] bytes. *)
Definition same_prefix (len : Z) (k k' : key_t) : Prop :=
  forall i, 0 <= i < len -> byte_at k i = byte_at k' i.

(** ** Resize decisions *)

(** Whether [robin_table_put] must grow, and whether the allocator lets it. *)
Definition must_grow (rt : robin_table_t) : bool := expand_at rt <=? count rt.

Definition grow_ok (avail : bool) (rt : robin_table_t) : bool :=
  malloc_ok avail (2 * bucket_count rt * sizeof_bucket).

(** Whether [robin_table_del] tries to shrink once an entry is gone, and
    whether the allocator lets it. *)
Definition must_shrink (rt : robin_table_t) : bool :=
  (init_buckets rt <? bucket_count rt) && (count rt - 1 <=? shrink_at rt).

Definition shrink_ok (avail : bool) (rt : robin_table_t) : bool :=
  malloc_ok avail (bucket_count rt / 2 * sizeof_bucket).

(** ** The table as a finite map *)

(** The abstract state: the association, the entry count and the two
    capacities the resize policy looks at. *)
Record model : Type := mk_model {
  m_map : gmap key_t Z;
  m_count : Z;
  m_buckets : Z;
  m_init : Z
}.

Definition model_must_grow (st : model) : bool :=
  m_buckets st * RT_LOAD_FACTOR_PCT_MAX / 100 <=? m_count st.

Definition model_must_shrink (st : model) : bool :=
  (m_init st <? m_buckets st) &&
  (m_count st - 1 <=? m_buckets st * RT_LOAD_FACTOR_PCT_MIN / 100).

(** Insert-if-absent, preceded by the growth the load factor calls for. *)
Definition model_put (avail : bool) (st : model) (k : key_t) (v : Z) : Z * model :=
  if model_must_grow st && negb (malloc_ok avail (2 * m_buckets st * sizeof_bucket))
  then (NULL, st)
  else
    let nb := if model_must_grow st then 2 * m_buckets st else m_buckets st in
    match m_map st !! k with
    | Some v1 => (v1, mk_model (m_map st) (m_count st) nb (m_init st))
    | None => (v, mk_model (<[k := v]> (m_map st)) (m_count st + 1) nb (m_init st))
    end.

Definition model_get (st : model) (k : key_t) : Z :=
  default NULL (m_map st !! k).

Definition model_del (avail : bool) (st : model) (k : key_t) : Z * model :=
  match m_map st !! k with
  | None => (NULL, st)
  | Some v =>
      let nb := if model_must_shrink st && malloc_ok avail (m_buckets st / 2 * sizeof_bucket)
                then m_buckets st / 2 else m_buckets st in
      (v, mk_model (delete k (m_map st)) (m_count st - 1) nb (m_init st))
  end.

(** [m] is the association the table holds. *)
Definition rep (rt : robin_table_t) (m : gmap key_t Z) : Prop :=
  forall k v, m !! k = Some v <-> holds rt k v.

Definition sim (rt : robin_table_t) (st : model) : Prop :=
  WF rt /\ rep rt (m_map st) /\ count rt = m_count st /\
  bucket_count rt = m_buckets st /\ init_buckets rt = m_init st.

(** Every table that satisfies the invariants represents some map. *)
Definition contents (bs : list robin_bucket_t) : gmap key_t Z :=
  foldr (fun b m => match key b with Some k => <[k := val b]> m | None => m end) ∅ bs.

Definition model_of (rt : robin_table_t) : model :=
  mk_model (contents (buckets rt)) (count rt) (bucket_count rt) (init_buckets rt).

(** ** Runs of operations *)

Inductive op : Type :=
| OpPut (k : key_t) (v : Z)
| OpGet (k : key_t)
| OpDel (k : key_t).

Definition op_key (o : op) : key_t :=
  match o with
  | OpPut k _ => k
  | OpGet k => k
  | OpDel k => k
  end.

(** One call of the public interface; [avail] is the allocator's answer
    should the call allocate.  The result pairs the value returned with the
    table after the call. *)
Definition step (rt : robin_table_t) (o : op) (avail : bool) : outcome (Z * robin_table_t) :=
  match o with
  | OpPut k v => robin_table_put avail rt k v
  | OpGet k => v ← robin_table_get rt k; Done (v, rt)
  | OpDel k => robin_table_del avail rt k
  end.

(** A run records, per call, the value returned and [robin_table_count]
    after it. *)
Fixpoint run (rt : robin_table_t) (ops : list (op * bool))
  : outcome (list (Z * Z) * robin_table_t) :=
  match ops with
  | [] => Done ([], rt)
  | (o, avail) :: rest =>
      '(r, rt1) ← step rt o avail;
      '(obs, rt2) ← run rt1 rest;
      Done ((r, robin_table_count rt1) :: obs, rt2)
  end.

Definition model_step (st : model) (o : op) (avail : bool) : Z * model :=
  match o with
  | OpPut k v => model_put avail st k v
  | OpGet k => (model_get st k, st)
  | OpDel k => model_del avail st k
  end.

Fixpoint model_run (st : model) (ops : list (op * bool)) : list (Z * Z) * model :=
  match ops with
  | [] => ([], st)
  | (o, avail) :: rest =>
      let r := model_step st o avail in
      let rs := model_run (snd r) rest in
      ((fst r, m_count (snd r)) :: fst rs, snd rs)
  end.

(** Keys are never the empty byte string ([klen != 0]). *)
Definition keys_ok (ops : list (op * bool)) : Prop :=
  Forall (fun oa => op_key (fst oa) <> []) ops.

(** The calls [put(k, v)] for the pairs of [kvs], in order, every one of
    them with the allocator refusing. *)
Definition refused_puts (kvs : list (key_t * Z)) : list (op * bool) :=
  map (fun kv => (OpPut (fst kv) (snd kv), false)) kvs.

(** The calls [del(k)] for the keys of [ks], in order, with the allocator
    refusing. *)
Definition refused_dels (ks : list key_t) : list (op * bool) :=
  map (fun k => (OpDel k, false)) ks.

(** ** Reachable tables *)

(** The tables a client can hold: made by [robin_table_create] (with
    [robin_table_rapidhash] as the default strategy) and passed through any
    calls of the public interface that returned. *)
Inductive reachable (robin_table_rapidhash : hash_fn) : robin_table_t -> Prop :=
| reach_create avail_rt avail_bs n hf sd rt :
    robin_table_create robin_table_rapidhash avail_rt avail_bs n hf sd = Some rt ->
    reachable robin_table_rapidhash rt
| reach_put rt avail k v r rt' :
    reachable robin_table_rapidhash rt ->
    robin_table_put avail rt k v = Done (r, rt') ->
    reachable robin_table_rapidhash rt'
| reach_get rt k r :
    reachable robin_table_rapidhash rt ->
    robin_table_get rt k = Done r ->
    reachable robin_table_rapidhash rt
| reach_del rt avail k r rt' :
    reachable robin_table_rapidhash rt ->
    robin_table_del avail rt k = Done (r, rt') ->
    reachable robin_table_rapidhash rt'
| reach_clear rt avail update_buckets ok rt' :
    reachable robin_table_rapidhash rt ->
    robin_table_clear avail rt update_buckets = (ok, rt') ->
    reachable robin_table_rapidhash rt'.

(** ** Sample tables *)

(** Two toy strategies that meet the hash contract: the first byte of the
    key mixed with the seed, and the key length alone (every key of one
    length collides). *)
Definition first_byte_hash : hash_fn :=
  fun k _ s => wrap64 (hd 0 k + s).

Definition length_hash : hash_fn :=
  fun _ kl _ => wrap64 kl.

(** The table after [ops], starting from [robin_table_create(n, hf, 0)]
    with every allocation of the creation granted. *)
Definition table_after (hf : hash_fn) (n : Z) (ops : list (op * bool))
  : option robin_table_t :=
  match robin_table_create hf true true n (Some hf) 0 with
  | Some rt =>
      match run rt ops with
      | Done (_, rt') => Some rt'
      | _ => None
      end
  | None => None
  end.

(** [put] of the one-byte keys [1 .. n], key [i] with value [10 + i]. *)
Definition puts_upto (n : nat) : list (op * bool) :=
  map (fun i => (OpPut [Z.of_nat i] (10 + Z.of_nat i), true)) (seq 1 n).

Definition empty_table : robin_table_t :=
  default (fresh_table 32 32 0 first_byte_hash) (table_after first_byte_hash 0 []).

(** 24 entries in 32 buckets: the next [put] must grow. *)
Definition full_table : robin_table_t :=
  default (fresh_table 32 32 0 first_byte_hash)
          (table_after first_byte_hash 0 (puts_upto 24)).

(** Keys [1] and [33] share the ideal index 1. *)
Definition chain_table : robin_table_t :=
  default (fresh_table 32 32 0 first_byte_hash)
          (table_after first_byte_hash 0 [(OpPut [1] 11, true); (OpPut [33] 12, true)]).


(** Calls on other keys after [put([27], 70)] on the full table (which
    grows it): duplicate puts, deletions, a lookup and a re-insertion, some
    of them with the allocator refusing. *)
Definition other_key_ops : list (op * bool) :=
  [(OpPut [8] 80, true); (OpDel [3], true); (OpGet [9], true);
   (OpPut [3] 31, false); (OpDel [8], false); (OpPut [1] 99, true)].

Definition mixed_ops : list (op * bool) :=
  puts_upto 25 ++
  [(OpGet [5], true); (OpPut [5] 99, true); (OpDel [5], true); (OpGet [5], true);
   (OpDel [40], true); (OpPut [33] 7, false)] ++
  map (fun i => (OpDel [Z.of_nat i], i <? 10)%nat) (seq 1 25).

(** 25 entries: the table has grown to 64 buckets, twice what it was
    created with. *)
Definition grown_table : robin_table_t :=
  default (fresh_table 32 32 0 first_byte_hash)
          (table_after first_byte_hash 0 (puts_upto 25)).

(** Key [[1]] stored with the [NULL] value. *)
Definition null_valued_table : robin_table_t :=
  default (fresh_table 32 32 0 first_byte_hash)
          (table_after first_byte_hash 0 [(OpPut [1] NULL, true)]).

(** * Proofs *)

(** ** Bit smearing in [robin_table_next_pow2] *)

Lemma window_start m : window m 1 m.
Proof.
  intros i Hi. split.
  - intros H. exists i. split; [lia | exact H].
  - intros (j & Hj & H). replace i with j by lia. exact H.
Qed.

Lemma window_double m w x :
  0 < w -> window m w x -> window m (2 * w) (Z.lor x (Z.shiftr x w)).
Proof.
  intros Hw Hx i Hi.
  rewrite Z.lor_spec, Z.shiftr_spec by lia.
  rewrite orb_true_iff, (Hx i Hi), (Hx (i + w)) by lia.
  split.
  - intros [(j & Hj & H) | (j & Hj & H)]; exists j; (split; [lia | exact H]).
  - intros (j & Hj & H).
    destruct (Z_lt_le_dec j (i + w)); [left | right]; exists j; (split; [lia | exact H]).
Qed.

Lemma smear_ones m :
  0 < m < 2 ^ 64 ->
  let n := Z.lor m (Z.shiftr m 1) in
  let n := Z.lor n (Z.shiftr n 2) in
  let n := Z.lor n (Z.shiftr n 4) in
  let n := Z.lor n (Z.shiftr n 8) in
  let n := Z.lor n (Z.shiftr n 16) in
  let n := Z.lor n (Z.shiftr n 32) in
  n = Z.ones (Z.log2 m + 1).
Proof.
  intros Hm. cbv zeta.
  pose proof (window_start m) as W1.
  apply (window_double m 1) in W1; [|lia].
  apply (window_double m 2) in W1; [|lia].
  apply (window_double m 4) in W1; [|lia].
  apply (window_double m 8) in W1; [|lia].
  apply (window_double m 16) in W1; [|lia].
  apply (window_double m 32) in W1; [|lia].
  simpl in W1.
  assert (Hlog : 0 <= Z.log2 m < 64).
  { split; [apply Z.log2_nonneg|]. apply Z.log2_lt_pow2; lia. }
  apply Z.bits_inj'. intros i Hi.
  destruct (Z_lt_le_dec i (Z.log2 m + 1)) as [Hlt | Hge].
  - rewrite Z.ones_spec_low by lia.
    apply W1; [lia|]. exists (Z.log2 m). split; [lia|].
    apply Z.bit_log2. lia.
  - rewrite Z.ones_spec_high by lia.
    apply not_true_is_false. intros H.
    apply W1 in H; [|lia]. destruct H as (j & Hj & H).
    rewrite Z.bits_above_log2 in H by lia. discriminate.
Qed.

Lemma wrap64_small x : 0 <= x < 2 ^ 64 -> wrap64 x = x.
Proof. intros H. unfold wrap64. apply Z.mod_small. exact H. Qed.

(** On its operating range the bit trick is "least power of two at or
    above [n]". *)
Lemma robin_table_next_pow2_log2_up n :
  1 <= n <= 2 ^ 63 -> robin_table_next_pow2 n = 2 ^ Z.log2_up n.
Proof.
  intros Hn. unfold robin_table_next_pow2.
  rewrite (wrap64_small (n - 1)) by lia.
  destruct (Z.eq_dec n 1) as [-> | Hne].
  - reflexivity.
  - pose proof (smear_ones (n - 1)) as Hs. cbv zeta in Hs.
    rewrite Hs by lia.
    assert (Hlog : 0 <= Z.log2 (n - 1) < 63).
    { split; [apply Z.log2_nonneg|]. apply Z.log2_lt_pow2; lia. }
    rewrite Z.ones_equiv.
    replace (Z.pred (2 ^ (Z.log2 (n - 1) + 1)) + 1) with (2 ^ (Z.log2 (n - 1) + 1)) by lia.
    assert (Hp : 2 ^ (Z.log2 (n - 1) + 1) <= 2 ^ 63)
      by (apply Z.pow_le_mono_r; lia).
    rewrite wrap64_small by lia.
    f_equal. unfold Z.log2_up.
    destruct (Z.compare_spec 1 n); try lia.
    unfold Z.succ, Z.pred. reflexivity.
Qed.

Lemma pow2_ge_4_div (q b : Z) : q = 2 ^ b -> 4 <= q -> exists t, q = 4 * t.
Proof.
  intros Hq H4.
  assert (Hb : 2 <= b).
  { destruct (Z_lt_le_dec b 2) as [Hlt|]; [|lia].
    destruct (Z_lt_le_dec b 0) as [Hneg|Hnn].
    - rewrite Z.pow_neg_r in Hq by lia. lia.
    - assert (b = 0 \/ b = 1) as [-> | ->] by lia; simpl in Hq; lia. }
  exists (2 ^ (b - 2)).
  rewrite Hq. replace b with (2 + (b - 2)) at 1 by lia.
  rewrite Z.pow_add_r by lia. reflexivity.
Qed.

(** Rounding [n * 100 / 75] down (the code) or up (the specification)
    selects the same capacity: between the two roundings there is never a
    power of two. *)
Lemma robin_table_calc_bucket_count_target n :
  0 <= n -> n * 100 < 2 ^ 64 ->
  robin_table_calc_bucket_count n = target_capacity n.
Proof.
  intros Hn Hov.
  unfold robin_table_calc_bucket_count, target_capacity, ceil_div,
    RT_LOAD_FACTOR_PCT_MAX, RT_BUCKET_COUNT_MIN.
  rewrite wrap64_small by lia.
  set (q := n * 100 / 75). set (c := (n * 100 + 75 - 1) / 75).
  assert (Hq : 75 * q <= n * 100 < 75 * q + 75).
  { unfold q. pose proof (Z.div_mod (n * 100) 75 ltac:(lia)).
    pose proof (Z.mod_pos_bound (n * 100) 75 ltac:(lia)). lia. }
  assert (Hc : 75 * c <= n * 100 + 74 < 75 * c + 75).
  { unfold c. pose proof (Z.div_mod (n * 100 + 75 - 1) 75 ltac:(lia)).
    pose proof (Z.mod_pos_bound (n * 100 + 75 - 1) 75 ltac:(lia)). lia. }
  destruct (Z.ltb_spec q 32) as [Hq32 | Hq32].
  - destruct (Z.ltb_spec c 32) as [Hc32 | Hc32]; [reflexivity | lia].
  - destruct (Z.ltb_spec c 32) as [Hc32 | Hc32]; [lia |].
    rewrite robin_table_next_pow2_log2_up by lia.
    f_equal.
    assert (c = q \/ c = q + 1) as [-> | Hcq] by lia; [reflexivity |].
    rewrite Hcq.
    assert (Hnp : ~ exists b, Z.succ (q - 1) = 2 ^ b).
    { intros (b & Hb). replace (Z.succ (q - 1)) with q in Hb by lia.
      destruct (pow2_ge_4_div q b Hb ltac:(lia)) as (t & Ht). lia. }
    pose proof (Z.log2_eq_succ_iff_pow2 (q - 1) ltac:(lia)) as Hiff.
    destruct (Z.log2_succ_or (q - 1)) as [Hs | Hs]; [tauto |].
    unfold Z.log2_up.
    destruct (Z.compare_spec 1 q); try lia.
    destruct (Z.compare_spec 1 (q + 1)); try lia.
    replace (Z.pred (q + 1)) with (Z.succ (q - 1)) by lia.
    replace (Z.pred q) with (q - 1) by lia.
    rewrite Hs. reflexivity.
Qed.

Lemma ceil_div_spec a b :
  0 < b -> b * (ceil_div a b - 1) < a <= b * ceil_div a b.
Proof.
  intros Hb. unfold ceil_div.
  pose proof (Z.div_mod (a + b - 1) b ltac:(lia)).
  pose proof (Z.mod_pos_bound (a + b - 1) b Hb). lia.
Qed.

(** [2 ^ Z.log2_up raw] is the next power of two at or above [raw]. *)
Lemma log2_up_least_pow2 raw :
  1 < raw ->
  raw <= 2 ^ Z.log2_up raw /\
  forall b, 0 <= b -> raw <= 2 ^ b -> 2 ^ Z.log2_up raw <= 2 ^ b.
Proof.
  intros Hr. split.
  - apply Z.log2_up_spec. lia.
  - intros b Hb Hle. apply Z.pow_le_mono_r; [lia|].
    apply Z.log2_up_le_pow2; lia.
Qed.

(** ** Arrays of buckets *)

Lemma bucket_at_lookup bs i :
  bucket_at bs i = default zero_bucket (bs !! Z.to_nat i).
Proof. unfold bucket_at. apply nth_lookup. Qed.

Lemma bucket_at_set_eq bs i b :
  0 <= i < Z.of_nat (length bs) -> bucket_at (set_bucket bs i b) i = b.
Proof.
  intros Hi. rewrite bucket_at_lookup. unfold set_bucket.
  rewrite list_lookup_insert_eq by lia. reflexivity.
Qed.

Lemma bucket_at_set_ne bs i j b :
  0 <= i -> 0 <= j -> i <> j -> bucket_at (set_bucket bs i b) j = bucket_at bs j.
Proof.
  intros Hi Hj Hne. rewrite !bucket_at_lookup. unfold set_bucket.
  rewrite list_lookup_insert_ne by lia. reflexivity.
Qed.

Lemma length_set_bucket bs i b : length (set_bucket bs i b) = length bs.
Proof. unfold set_bucket. apply length_insert. Qed.

Lemma bucket_at_replicate n i : bucket_at (replicate n zero_bucket) i = zero_bucket.
Proof.
  rewrite bucket_at_lookup.
  destruct (replicate n zero_bucket !! Z.to_nat i) eqn:E; [|reflexivity].
  apply lookup_replicate in E. simpl. tauto.
Qed.

Lemma set_bucket_twice bs i b1 b2 :
  set_bucket (set_bucket bs i b1) i b2 = set_bucket bs i b2.
Proof. unfold set_bucket. apply list_insert_insert_eq. Qed.

Lemma set_bucket_swap bs i j b1 b2 :
  0 <= i -> 0 <= j -> i <> j ->
  set_bucket (set_bucket bs i b1) j b2 = set_bucket (set_bucket bs j b2) i b1.
Proof.
  intros Hi Hj Hne. unfold set_bucket. apply list_insert_insert_ne. lia.
Qed.

Lemma occ_range b : 0 <= occ b <= 1.
Proof. unfold occ. destruct (is_null (key b)); lia. Qed.

Lemma occ_count_range bs : 0 <= occ_count bs <= Z.of_nat (length bs).
Proof.
  induction bs as [|b bs IH]; simpl; [lia|].
  pose proof (occ_range b). lia.
Qed.

Lemma occ_count_insert bs : forall (i : nat) b,
  (i < length bs)%nat ->
  occ_count (<[i:=b]> bs) = occ_count bs - occ (nth i bs zero_bucket) + occ b.
Proof.
  induction bs as [|b0 bs IH]; intros i b Hi; simpl in Hi; [lia|].
  destruct i as [|i]; simpl.
  - lia.
  - rewrite IH by lia. lia.
Qed.

Lemma occ_count_set bs i b :
  0 <= i < Z.of_nat (length bs) ->
  occ_count (set_bucket bs i b) = occ_count bs - occ (bucket_at bs i) + occ b.
Proof.
  intros Hi. unfold set_bucket, bucket_at. apply occ_count_insert. lia.
Qed.

Lemma occ_count_replicate n : occ_count (replicate n zero_bucket) = 0.
Proof. induction n as [|n IH]; simpl; [reflexivity|]. rewrite IH. reflexivity. Qed.

Lemma occ_count_exists_empty bs :
  occ_count bs < Z.of_nat (length bs) ->
  exists i, 0 <= i < Z.of_nat (length bs) /\ key (bucket_at bs i) = None.
Proof.
  induction bs as [|b bs IH]; simpl; intros H; [lia|].
  destruct (key b) eqn:Eb.
  - assert (Hocc : occ b = 1) by (unfold occ; rewrite Eb; reflexivity).
    destruct IH as (i & Hi & Hk); [lia|].
    exists (i + 1). split; [lia|].
    unfold bucket_at in *. replace (Z.to_nat (i + 1)) with (S (Z.to_nat i)) by lia.
    exact Hk.
  - exists 0. split; [lia|]. exact Eb.
Qed.

(** ** Index arithmetic modulo a power of two *)

Lemma land_mask_mod x e : 0 <= e -> Z.land x (2 ^ e - 1) = x mod 2 ^ e.
Proof.
  intros He. rewrite <- Z.land_ones by lia. rewrite Z.ones_equiv.
  unfold Z.pred. reflexivity.
Qed.

Lemma mod_succ_mod u n : 0 < n -> (u mod n + 1) mod n = (u + 1) mod n.
Proof. intros Hn. rewrite Z.add_mod_idemp_l by lia. reflexivity. Qed.

Lemma mod_cases x n : 0 < n -> 0 <= x < 2 * n ->
  x mod n = if x <? n then x else x - n.
Proof.
  intros Hn Hx. destruct (Z.ltb_spec x n).
  - apply Z.mod_small. lia.
  - symmetry. apply (Z.mod_unique_pos x n 1 (x - n)); lia.
Qed.

Lemma mod_apart u w n : 0 < n -> 0 < w - u < n -> w mod n <> u mod n.
Proof.
  intros Hn Hw Heq.
  assert (H : (w - u) mod n = 0).
  { rewrite Zminus_mod, Heq, Z.sub_diag. apply Z.mod_0_l. lia. }
  rewrite Z.mod_small in H by lia. lia.
Qed.

Lemma mod_range u n : 0 < n -> 0 <= u mod n < n.
Proof. intros Hn. apply Z.mod_pos_bound. exact Hn. Qed.

(** ** Table invariants *)

Lemma same_frame_refl rt : same_frame rt rt.
Proof. repeat split. Qed.

Lemma same_frame_trans a b c : same_frame a b -> same_frame b c -> same_frame a c.
Proof. unfold same_frame. intros; intuition congruence. Qed.

Section Geometry.

Variable rt : robin_table_t.
Hypothesis G : geometry rt.

Lemma geo_big : 32 <= bucket_count rt.
Proof. pose proof (geo_floor rt G). unfold RT_BUCKET_COUNT_MIN in *. lia. Qed.

Lemma geo_small : bucket_count rt < 2 ^ 58.
Proof.
  pose proof (geo_fit rt G). unfold sizeof_bucket, PTRDIFF_MAX in *. lia.
Qed.

Lemma geo_land x : Z.land x (mask rt) = x mod bucket_count rt.
Proof.
  destruct (geo_pow2 rt G) as (e & He & Hbc).
  rewrite (geo_mask rt G), Hbc. apply land_mask_mod. exact He.
Qed.

(** [(idx + 1) & rt->mask] *)
Lemma geo_next u :
  0 <= u ->
  Z.land (wrap64 (u mod bucket_count rt + 1)) (mask rt) = (u + 1) mod bucket_count rt.
Proof.
  intros Hu. pose proof geo_big. pose proof geo_small.
  pose proof (mod_range u (bucket_count rt) ltac:(lia)).
  rewrite wrap64_small by lia.
  rewrite geo_land. apply mod_succ_mod. lia.
Qed.

Lemma geo_expand_lt : expand_at rt < bucket_count rt.
Proof.
  rewrite (geo_expand rt G). unfold RT_LOAD_FACTOR_PCT_MAX.
  pose proof geo_big. apply Z.div_lt_upper_bound; lia.
Qed.

End Geometry.

Lemma rank_ge_occupied b p : 0 <= p -> p <= rank b -> key b <> None /\ p <= psl b.
Proof.
  unfold rank. destruct (key b); simpl; intros Hp Hr; [|lia].
  split; [discriminate | exact Hr].
Qed.

Lemma rank_occupied b k : key b = Some k -> rank b = psl b.
Proof. unfold rank. intros ->. reflexivity. Qed.

Lemma rank_empty b : key b = None -> rank b = -1.
Proof. unfold rank. intros ->. reflexivity. Qed.

(** ** Key comparison *)

Lemma memcmp_eq_iff a : forall b,
  length a = length b -> (memcmp a b (length a) = 0 <-> a = b).
Proof.
  induction a as [|x a IH]; intros [|y b] Hlen; simpl in *; try discriminate.
  - tauto.
  - destruct (Z.eqb_spec x y) as [-> | Hne].
    + rewrite IH by lia. split; [intros ->; reflexivity | intros [=]; assumption].
    + split; [lia | intros [=]; contradiction].
Qed.

(** On a well-formed occupied bucket, the three-part comparison of the
    probe loops decides equality of the keys. *)
Lemma key_matches_occupied rt i b kb k :
  entry_ok rt i b -> key b = Some kb ->
  key_matches b (hash_func rt k (Z.of_nat (length k)) (seed rt)) k (Z.of_nat (length k))
  = bool_decide (kb = k).
Proof.
  intros Hok Hk. destruct (Hok kb Hk) as (_ & Hlen & Hh & _).
  unfold key_matches. rewrite Hk.
  destruct (bool_decide_reflect (kb = k)) as [-> | Hne].
  - rewrite Hh, Hlen, !Z.eqb_refl. simpl.
    rewrite Nat2Z.id. apply Z.eqb_eq. apply memcmp_eq_iff; reflexivity.
  - apply not_true_is_false. intros H.
    apply andb_prop in H. destruct H as [H Hm].
    apply andb_prop in H. destruct H as [_ Hl].
    apply Z.eqb_eq in Hl, Hm. rewrite Nat2Z.id in Hm.
    apply Hne.
    assert (Hll : length kb = length k) by lia.
    rewrite <- Hll in Hm. apply memcmp_eq_iff in Hm; assumption.
Qed.

Lemma key_matches_zero h k kl : kl <> 0 -> key_matches zero_bucket h k kl = false.
Proof.
  intros Hkl. unfold key_matches, zero_bucket. cbn [hash klen key].
  destruct (Z.eqb_spec 0 kl); [lia|]. rewrite andb_false_r. reflexivity.
Qed.

Lemma length_key_nonzero (k : key_t) : k <> [] -> Z.of_nat (length k) <> 0.
Proof. destruct k; [congruence | simpl; lia]. Qed.

(** ** Probe chains *)

Section Chain.

Variable rt : robin_table_t.
Hypothesis G : geometry rt.
Hypothesis R : robin_ok rt.

Lemma robin_step u :
  0 <= u ->
  rank (slot rt ((u + 1) mod bucket_count rt))
  <= rank (slot rt (u mod bucket_count rt)) + 1.
Proof.
  intros Hu. pose proof (geo_big rt G).
  rewrite <- mod_succ_mod by lia.
  apply R; [apply mod_range; lia | tauto].
Qed.

(** Behind a slot of probe position [p] lie slots of position at least
    [p - 1], [p - 2], ... back to its ideal index. *)
Lemma robin_chain (m : nat) : forall u,
  Z.of_nat m <= u ->
  rank (slot rt (u mod bucket_count rt)) - Z.of_nat m
  <= rank (slot rt ((u - Z.of_nat m) mod bucket_count rt)).
Proof.
  induction m as [|m IH]; intros u Hu.
  - replace (u - Z.of_nat 0) with u by lia. lia.
  - specialize (IH u ltac:(lia)).
    pose proof (robin_step (u - Z.of_nat (S m)) ltac:(lia)) as Hs.
    replace (u - Z.of_nat (S m) + 1) with (u - Z.of_nat m) in Hs by lia.
    lia.
Qed.

End Chain.

(** ** Unfolding equations of the loops *)

Lemma get_bucket_loop_S fuel rt h k kl idx p :
  get_bucket_loop (S fuel) rt h k kl idx p =
  if key_matches (slot rt idx) h k kl then Done (Some idx)
  else if is_null (key (slot rt idx)) || (psl (slot rt idx) <? p) then Done None
  else get_bucket_loop fuel rt h k kl
         (Z.land (wrap64 (idx + 1)) (mask rt)) (wrap64 (p + 1)).
Proof. reflexivity. Qed.

Lemma put0_loop_S fuel rt h k kl v idx entry :
  put0_loop (S fuel) rt h k kl v idx entry =
  if is_null (key (slot rt idx)) then
    Done (v, set_count (set_buckets rt (set_bucket (buckets rt) idx entry))
                       (wrap64 (count rt + 1)))
  else if key_matches (slot rt idx) h k kl then Done (val (slot rt idx), rt)
  else if psl (slot rt idx) <? psl entry then
    put0_loop fuel (set_buckets rt (set_bucket (buckets rt) idx entry)) h k kl v
      (Z.land (wrap64 (idx + 1)) (mask rt))
      (set_psl (slot rt idx) (wrap64 (psl (slot rt idx) + 1)))
  else
    put0_loop fuel rt h k kl v
      (Z.land (wrap64 (idx + 1)) (mask rt))
      (set_psl entry (wrap64 (psl entry + 1))).
Proof.
  unfold slot. simpl.
  destruct (is_null (key (bucket_at (buckets rt) idx))); [reflexivity|].
  destruct (key_matches (bucket_at (buckets rt) idx) h k kl); [reflexivity|].
  destruct (psl (bucket_at (buckets rt) idx) <? psl entry); reflexivity.
Qed.

Lemma del_shift_S fuel rt bucket idx :
  del_shift (S fuel) rt bucket idx =
  let idx' := Z.land (wrap64 (idx + 1)) (mask rt) in
  if is_null (key (slot rt idx')) || (psl (slot rt idx') =? 0) then
    Done (set_count (set_buckets rt (set_bucket (buckets rt) bucket zero_bucket))
                    (wrap64 (count rt - 1)))
  else
    let moved := set_psl (slot rt idx') (wrap64 (psl (slot rt idx') - 1)) in
    let bs1 := set_bucket (buckets rt) idx' moved in
    del_shift fuel (set_buckets rt (set_bucket bs1 bucket (bucket_at bs1 idx'))) idx' idx'.
Proof. reflexivity. Qed.

(** ** Probing for a key that is present *)

Section Found.

Variable rt : robin_table_t.
Hypothesis I : table_inv rt.
Variable i : Z.
Variable k : key_t.
Hypothesis Hin : in_range rt i.
Hypothesis Hk : key (slot rt i) = Some k.

Let n := bucket_count rt.
Let kl := Z.of_nat (length k).
Let h := hash_func rt k kl (seed rt).
Let a := Z.land h (mask rt).
Let p := psl (slot rt i).

Lemma found_facts :
  hash (slot rt i) = h /\ 0 <= a < n /\ 0 <= p < n /\ (a + p) mod n = i.
Proof.
  destruct (inv_entries rt I i Hin k Hk) as (_ & Hl & Hh & Hp & Hi).
  pose proof (geo_big rt (inv_geometry rt I)).
  fold kl in Hl. rewrite Hl in Hh. fold h in Hh.
  split; [exact Hh|]. rewrite Hh in Hi. fold a in Hi.
  split; [|split; [exact Hp | exact Hi]].
  unfold a. rewrite (geo_land rt (inv_geometry rt I)). apply mod_range. lia.
Qed.

(** The slots a probe for [k] crosses before it reaches slot [i]. *)
Lemma found_path t :
  0 <= t < p ->
  let s := slot rt ((a + t) mod n) in
  is_null (key s) = false /\ key_matches s h k kl = false /\ t <= psl s.
Proof.
  intros Ht s.
  destruct found_facts as (Hh & Ha & Hp & Hi).
  pose proof (geo_big rt (inv_geometry rt I)) as Hbig. fold n in Hbig.
  pose proof (robin_chain rt (inv_geometry rt I) (inv_robin rt I)
                (Z.to_nat (p - t)) (a + p) ltac:(lia)) as Hc.
  fold n in Hc. rewrite Hi in Hc.
  rewrite Z2Nat.id in Hc by lia.
  replace (a + p - (p - t)) with (a + t) in Hc by lia.
  rewrite (rank_occupied _ k Hk) in Hc. fold p in Hc. fold s in Hc.
  destruct (rank_ge_occupied s t ltac:(lia) ltac:(lia)) as (Hocc & Hpsl).
  destruct (key s) as [ks|] eqn:Eks; [|congruence].
  split; [reflexivity|]. split; [|exact Hpsl].
  assert (Hsin : in_range rt ((a + t) mod n)) by (apply mod_range; lia).
  unfold h, kl.
  rewrite (key_matches_occupied rt _ s ks k (inv_entries rt I _ Hsin) Eks).
  apply bool_decide_eq_false. intros ->.
  pose proof (inv_distinct rt I _ _ k Hsin Hin Eks Hk) as Heq.
  apply (mod_apart (a + t) (a + p) n); [lia | lia |].
  rewrite Hi. symmetry. exact Heq.
Qed.

Lemma found_match : key_matches (slot rt i) h k kl = true.
Proof.
  unfold h, kl.
  rewrite (key_matches_occupied rt i _ k k (inv_entries rt I i Hin) Hk).
  apply bool_decide_eq_true. reflexivity.
Qed.

Lemma found_index t : 0 <= t ->
  Z.land (wrap64 ((a + t) mod n + 1)) (mask rt) = (a + (t + 1)) mod n.
Proof.
  intros Ht. destruct found_facts as (_ & Ha & _).
  unfold n. rewrite (geo_next rt (inv_geometry rt I)) by lia.
  f_equal. lia.
Qed.

Lemma get_bucket_loop_found (d : nat) : forall fuel,
  (d < fuel)%nat -> Z.of_nat d <= p ->
  get_bucket_loop fuel rt h k kl ((a + (p - Z.of_nat d)) mod n) (p - Z.of_nat d)
  = Done (Some i).
Proof.
  destruct found_facts as (Hh & Ha & Hp & Hi).
  pose proof (geo_small rt (inv_geometry rt I)) as Hsm. fold n in Hsm.
  induction d as [|d IH]; intros fuel Hf Hd;
    (destruct fuel as [|fuel]; [lia|]); rewrite get_bucket_loop_S.
  - replace (p - Z.of_nat 0) with p by lia. rewrite Hi.
    rewrite found_match. reflexivity.
  - set (t := p - Z.of_nat (S d)).
    destruct (found_path t ltac:(lia)) as (Hnull & Hm & Hpsl).
    rewrite Hm, Hnull.
    destruct (Z.ltb_spec (psl (slot rt ((a + t) mod n))) t); [lia|].
    cbn [orb].
    rewrite found_index by lia.
    rewrite wrap64_small by lia.
    replace (t + 1) with (p - Z.of_nat d) by lia.
    apply IH; lia.
Qed.

Lemma put0_loop_found (v : Z) (d : nat) : forall fuel entry,
  (d < fuel)%nat -> Z.of_nat d <= p -> psl entry = p - Z.of_nat d ->
  put0_loop fuel rt h k kl v ((a + (p - Z.of_nat d)) mod n) entry
  = Done (val (slot rt i), rt).
Proof.
  destruct found_facts as (Hh & Ha & Hp & Hi).
  pose proof (geo_small rt (inv_geometry rt I)) as Hsm. fold n in Hsm.
  induction d as [|d IH]; intros fuel entry Hf Hd He;
    (destruct fuel as [|fuel]; [lia|]); rewrite put0_loop_S.
  - replace (p - Z.of_nat 0) with p by lia. rewrite Hi.
    rewrite Hk. cbn [is_null]. rewrite found_match. reflexivity.
  - set (t := p - Z.of_nat (S d)) in *.
    destruct (found_path t ltac:(lia)) as (Hnull & Hm & Hpsl).
    rewrite Hnull, Hm.
    destruct (Z.ltb_spec (psl (slot rt ((a + t) mod n))) (psl entry)); [lia|].
    rewrite found_index by lia.
    replace (t + 1) with (p - Z.of_nat d) by lia.
    apply IH; [lia | lia |].
    cbn [set_psl psl]. rewrite wrap64_small by lia. lia.
Qed.

End Found.

(** ** Probing for a key that is absent *)

Lemma present_or_absent rt k :
  (exists i, in_range rt i /\ key (slot rt i) = Some k) \/ absent rt k.
Proof.
  assert (H : forall m : nat,
             (exists i, 0 <= i < Z.of_nat m /\ key (slot rt i) = Some k) \/
             (forall i, 0 <= i < Z.of_nat m -> key (slot rt i) <> Some k)).
  { induction m as [|m [(i & Hi & Hk) | IH]].
    - right. intros i Hi. lia.
    - left. exists i. split; [lia | exact Hk].
    - destruct (decide (key (slot rt (Z.of_nat m)) = Some k)) as [Hk | Hk].
      + left. exists (Z.of_nat m). split; [lia | exact Hk].
      + right. intros i Hi.
        destruct (Z.eq_dec i (Z.of_nat m)) as [-> | Hne]; [exact Hk|].
        apply IH. lia. }
  destruct (Z_lt_le_dec (bucket_count rt) 0) as [Hneg | Hnn].
  - right. intros i Hi. unfold in_range in Hi. lia.
  - destruct (H (Z.to_nat (bucket_count rt))) as [(i & Hi & Hk) | Hab].
    + left. exists i. split; [unfold in_range; lia | exact Hk].
    + right. intros i Hi. apply Hab. unfold in_range in Hi. lia.
Qed.

Lemma absent_not_holds rt k v : absent rt k -> ~ holds rt k v.
Proof. intros Hab (i & Hi & Hk & _). exact (Hab i Hi Hk). Qed.

Lemma absent_no_match rt k :
  table_inv rt -> k <> [] -> absent rt k ->
  forall j, in_range rt j ->
    key_matches (slot rt j) (hash_func rt k (Z.of_nat (length k)) (seed rt)) k
                (Z.of_nat (length k)) = false.
Proof.
  intros I Hne Hab j Hj.
  destruct (key (slot rt j)) as [kj|] eqn:Ekj.
  - rewrite (key_matches_occupied rt j _ kj k (inv_entries rt I j Hj) Ekj).
    apply bool_decide_eq_false. intros ->. exact (Hab j Hj Ekj).
  - rewrite (inv_zeros rt I j Hj Ekj).
    apply key_matches_zero. apply length_key_nonzero. exact Hne.
Qed.

(** On a table that is not full some slot ahead of any position is empty. *)
Lemma empty_ahead rt u :
  geometry rt -> count rt = occ_count (buckets rt) -> count rt < bucket_count rt ->
  exists g : nat,
    Z.of_nat g < bucket_count rt /\
    key (slot rt ((u + Z.of_nat g) mod bucket_count rt)) = None.
Proof.
  intros G Hc Hroom.
  pose proof (geo_big rt G) as Hbig.
  destruct (occ_count_exists_empty (buckets rt)) as (i & Hi & Hk).
  { rewrite (geo_len rt G). lia. }
  rewrite (geo_len rt G) in Hi.
  pose proof (mod_range (i - u) (bucket_count rt) ltac:(lia)) as Hr.
  exists (Z.to_nat ((i - u) mod bucket_count rt)).
  rewrite Z2Nat.id by lia. split; [lia|].
  rewrite Z.add_mod_idemp_r by lia.
  replace (u + (i - u)) with i by lia.
  rewrite Z.mod_small by lia. exact Hk.
Qed.

Section Absent.

Variable rt : robin_table_t.
Hypothesis G : geometry rt.
Variables (h : Z) (k : key_t) (kl : Z).
Hypothesis Hno : forall j, in_range rt j -> key_matches (slot rt j) h k kl = false.

Let n := bucket_count rt.

Lemma get_bucket_loop_absent (g : nat) : forall fuel u p,
  (g < fuel)%nat -> 0 <= u -> 0 <= p -> p + Z.of_nat g < 2 ^ 64 ->
  key (slot rt ((u + Z.of_nat g) mod n)) = None ->
  get_bucket_loop fuel rt h k kl (u mod n) p = Done None.
Proof.
  pose proof (geo_big rt G) as Hbig. fold n in Hbig.
  induction g as [|g IH]; intros fuel u p Hf Hu Hp Hpg He;
    (destruct fuel as [|fuel]; [lia|]); rewrite get_bucket_loop_S;
    rewrite Hno by (apply mod_range; lia).
  - replace (u + Z.of_nat 0) with u in He by lia. rewrite He. reflexivity.
  - destruct (is_null (key (slot rt (u mod n))) || (psl (slot rt (u mod n)) <? p));
      [reflexivity|].
    unfold n. rewrite (geo_next rt G) by lia. fold n.
    rewrite wrap64_small by lia.
    apply IH; [lia | lia | lia | lia |].
    replace (u + 1 + Z.of_nat g) with (u + Z.of_nat (S g)) by lia. exact He.
Qed.

End Absent.

(** ** Writing one slot *)

Lemma write_slot_frame rt i b c : same_frame rt (write_slot rt i b c).
Proof. repeat split. Qed.

Lemma slot_write_eq rt i b c :
  geometry rt -> in_range rt i -> slot (write_slot rt i b c) i = b.
Proof.
  intros G Hi. unfold slot, write_slot. simpl.
  apply bucket_at_set_eq. rewrite (geo_len rt G). exact Hi.
Qed.

Lemma slot_write_ne rt i j b c :
  0 <= i -> 0 <= j -> j <> i -> slot (write_slot rt i b c) j = slot rt j.
Proof.
  intros Hi Hj Hne. unfold slot, write_slot. simpl.
  apply bucket_at_set_ne; lia.
Qed.

Lemma geometry_frame rt rt' :
  geometry rt -> same_frame rt rt' -> length (buckets rt') = length (buckets rt) ->
  geometry rt'.
Proof.
  intros [] (Hbc & Hin & Hm & He & Hs & _) Hlen.
  constructor; rewrite ?Hbc, ?Hin, ?Hm, ?He, ?Hs, ?Hlen; assumption.
Qed.

Lemma geometry_write rt i b c : geometry rt -> geometry (write_slot rt i b c).
Proof.
  intros G. apply (geometry_frame rt); [exact G | apply write_slot_frame |].
  simpl. apply length_set_bucket.
Qed.

Lemma succ_mod_neq n j : 2 <= n -> 0 <= j < n -> (j + 1) mod n <> j.
Proof.
  intros Hn Hj. rewrite mod_cases by lia.
  destruct (Z.ltb_spec (j + 1) n); lia.
Qed.

Lemma succ_mod_inj n i j :
  2 <= n -> 0 <= i < n -> 0 <= j < n -> (i + 1) mod n = (j + 1) mod n -> i = j.
Proof.
  intros Hn Hi Hj. rewrite !mod_cases by lia.
  destruct (Z.ltb_spec (i + 1) n); destruct (Z.ltb_spec (j + 1) n); lia.
Qed.

(** Storing [b] at index [i] keeps the invariants when [b] is a proper
    occupant of [i] (or the zero bucket), its key occurs nowhere else, and
    it fits the Robin Hood ordering with both neighbours. *)
Lemma table_inv_write rt i b c :
  table_inv rt -> in_range rt i ->
  (key b = None -> b = zero_bucket) ->
  entry_ok rt i b ->
  (forall j k, in_range rt j -> j <> i -> key b = Some k -> key (slot rt j) <> Some k) ->
  (forall j, in_range rt j -> (j + 1) mod bucket_count rt = i ->
             rank b <= rank (slot rt j) + 1) ->
  rank (slot rt ((i + 1) mod bucket_count rt)) <= rank b + 1 ->
  c = count rt - occ (slot rt i) + occ b ->
  table_inv (write_slot rt i b c).
Proof.
  intros I Hi Hz He Hfresh Hprev Hnext Hc.
  pose proof (inv_geometry rt I) as G.
  pose proof (geo_big rt G) as Hbig.
  assert (Hslot : forall j, in_range rt j ->
            slot (write_slot rt i b c) j = if decide (j = i) then b else slot rt j).
  { intros j Hj. destruct (decide (j = i)) as [-> | Hne].
    - apply slot_write_eq; assumption.
    - apply slot_write_ne; unfold in_range in *; lia. }
  constructor.
  - apply geometry_write. exact G.
  - intros j Hj. change (in_range rt j) in Hj. rewrite (Hslot j Hj).
    destruct (decide (j = i)); [exact Hz | apply (inv_zeros rt I j Hj)].
  - intros j Hj. change (in_range rt j) in Hj. rewrite (Hslot j Hj).
    destruct (decide (j = i)) as [-> |]; [exact He | apply (inv_entries rt I j Hj)].
  - intros j1 j2 k Hj1 Hj2. change (in_range rt j1) in Hj1. change (in_range rt j2) in Hj2.
    rewrite (Hslot j1 Hj1), (Hslot j2 Hj2).
    destruct (decide (j1 = i)) as [-> | Hn1]; destruct (decide (j2 = i)) as [-> | Hn2];
      intros H1 H2.
    + reflexivity.
    + exfalso. exact (Hfresh j2 k Hj2 Hn2 H1 H2).
    + exfalso. exact (Hfresh j1 k Hj1 Hn1 H2 H1).
    + exact (inv_distinct rt I j1 j2 k Hj1 Hj2 H1 H2).
  - intros j Hj _. change (in_range rt j) in Hj.
    change (bucket_count (write_slot rt i b c)) with (bucket_count rt).
    assert (Hj' : in_range rt ((j + 1) mod bucket_count rt))
      by (apply mod_range; lia).
    rewrite (Hslot j Hj), (Hslot _ Hj').
    destruct (decide (j = i)) as [-> | Hn1].
    + destruct (decide ((i + 1) mod bucket_count rt = i)) as [Heq | _].
      * exfalso. revert Heq. apply succ_mod_neq; unfold in_range in Hi; lia.
      * exact Hnext.
    + destruct (decide ((j + 1) mod bucket_count rt = i)) as [Heq | _].
      * apply Hprev; assumption.
      * apply (inv_robin rt I j Hj). tauto.
  - unfold write_slot. simpl. rewrite occ_count_set.
    + rewrite Hc, (inv_count rt I). reflexivity.
    + rewrite (geo_len rt G). exact Hi.
Qed.

Lemma holds_write rt i b c k v :
  geometry rt -> in_range rt i ->
  (holds (write_slot rt i b c) k v <->
   (key b = Some k /\ val b = v) \/
   (exists j, in_range rt j /\ j <> i /\ key (slot rt j) = Some k /\ val (slot rt j) = v)).
Proof.
  intros G Hi. split.
  - intros (j & Hj & Hk & Hv). change (in_range rt j) in Hj.
    destruct (Z.eq_dec j i) as [-> | Hne].
    + rewrite slot_write_eq in Hk, Hv by assumption. left. tauto.
    + rewrite slot_write_ne in Hk, Hv by (unfold in_range in *; lia).
      right. exists j. tauto.
  - intros [(Hk & Hv) | (j & Hj & Hne & Hk & Hv)].
    + exists i. split; [exact Hi|]. rewrite slot_write_eq by assumption. tauto.
    + exists j. split; [exact Hj|].
      rewrite slot_write_ne by (unfold in_range in *; lia). tauto.
Qed.

Lemma holds_split rt i k v :
  in_range rt i ->
  (holds rt k v <->
   (key (slot rt i) = Some k /\ val (slot rt i) = v) \/
   (exists j, in_range rt j /\ j <> i /\ key (slot rt j) = Some k /\ val (slot rt j) = v)).
Proof.
  intros Hi. split.
  - intros (j & Hj & Hk & Hv).
    destruct (Z.eq_dec j i) as [-> | Hne]; [left; tauto | right; exists j; tauto].
  - intros [(Hk & Hv) | (j & Hj & _ & Hk & Hv)]; [exists i | exists j]; tauto.
Qed.

(** ** Insertion: the probe loop of [robin_table_put0] *)

Lemma mod_shift x p u n :
  0 < n -> (x + p) mod n = u mod n -> (x + (p + 1)) mod n = (u + 1) mod n.
Proof.
  intros Hn H. replace (x + (p + 1)) with (x + p + 1) by lia.
  rewrite <- mod_succ_mod by lia. rewrite H. apply mod_succ_mod. lia.
Qed.

Lemma occ_occupied b k : key b = Some k -> occ b = 1.
Proof. unfold occ. intros ->. reflexivity. Qed.

Lemma occ_empty b : key b = None -> occ b = 0.
Proof. unfold occ. intros ->. reflexivity. Qed.

Section Insert.

Variables (h : Z) (k : key_t) (kl v : Z).

(** The entry in hand reaches an empty slot. *)
Lemma put0_loop_place fuel rt i e ke :
  table_inv rt -> in_range rt i ->
  key (slot rt i) = None ->
  key e = Some ke -> entry_ok rt i e -> absent rt ke ->
  (forall j, in_range rt j -> (j + 1) mod bucket_count rt = i ->
             psl e <= rank (slot rt j) + 1) ->
  count rt + 1 < 2 ^ 64 ->
  exists rt',
    put0_loop (S fuel) rt h k kl v i e = Done (v, rt') /\
    table_inv rt' /\ same_frame rt rt' /\ count rt' = count rt + 1 /\
    forall k' v', holds rt' k' v' <-> holds rt k' v' \/ (k' = ke /\ v' = val e).
Proof.
  intros I Hi Hnone Hke Hok Hab Hprev Hcnt.
  pose proof (inv_geometry rt I) as G.
  pose proof (occ_count_range (buckets rt)) as Hocc.
  rewrite <- (inv_count rt I) in Hocc.
  exists (write_slot rt i e (wrap64 (count rt + 1))).
  split; [rewrite put0_loop_S, Hnone; reflexivity|].
  destruct (Hok ke Hke) as (_ & _ & _ & Hpsl & _).
  split; [|split; [apply write_slot_frame | split]].
  - apply table_inv_write; try assumption.
    + rewrite Hke. discriminate.
    + intros j k0 Hj _ Hk0. rewrite Hke in Hk0. injection Hk0 as <-. apply Hab, Hj.
    + rewrite (rank_occupied e ke Hke). exact Hprev.
    + pose proof (inv_robin rt I i Hi ltac:(tauto)) as Hr.
      rewrite (rank_empty _ Hnone) in Hr.
      rewrite (rank_occupied e ke Hke). lia.
    + rewrite (occ_empty _ Hnone), (occ_occupied e ke Hke).
      rewrite wrap64_small by lia. lia.
  - simpl. apply wrap64_small. lia.
  - intros k' v'. rewrite (holds_write rt i e _ k' v' G Hi).
    rewrite (holds_split rt i k' v' Hi). rewrite Hnone, Hke.
    split.
    + intros [([= <-] & Hv) | H]; [right; split; [reflexivity | congruence] | left; right; exact H].
    + intros [[(Habs & _) | H] | (-> & ->)];
        [discriminate | right; exact H | left; split; reflexivity].
Qed.

Lemma put0_loop_insert (g : nat) : forall fuel rt u e ke,
  table_inv rt -> (g < fuel)%nat -> 0 <= u ->
  psl e + Z.of_nat g < bucket_count rt ->
  key (slot rt ((u + Z.of_nat g) mod bucket_count rt)) = None ->
  (forall w, u <= w <= u + Z.of_nat g ->
             key_matches (slot rt (w mod bucket_count rt)) h k kl = false) ->
  key e = Some ke -> entry_ok rt (u mod bucket_count rt) e -> absent rt ke ->
  (forall j, in_range rt j ->
             (j + 1) mod bucket_count rt = u mod bucket_count rt ->
             psl e <= rank (slot rt j) + 1) ->
  count rt + 1 < 2 ^ 64 ->
  exists rt',
    put0_loop fuel rt h k kl v (u mod bucket_count rt) e = Done (v, rt') /\
    table_inv rt' /\ same_frame rt rt' /\ count rt' = count rt + 1 /\
    forall k' v', holds rt' k' v' <-> holds rt k' v' \/ (k' = ke /\ v' = val e).
Proof.
  induction g as [|g IH];
    intros fuel rt u e ke I Hf Hu Hroom Hgap Hno Hke Hok Hab Hprev Hcnt;
    (destruct fuel as [|fuel]; [lia|]);
    pose proof (inv_geometry rt I) as G;
    pose proof (geo_big rt G) as Hbig;
    pose proof (geo_small rt G) as Hsmall;
    assert (Hi : in_range rt (u mod bucket_count rt)) by (apply mod_range; lia).
  - replace (u + Z.of_nat 0) with u in Hgap by lia.
    apply (put0_loop_place fuel rt _ e ke); assumption.
  - destruct (key (slot rt (u mod bucket_count rt))) as [kb|] eqn:Ekb;
      [|apply (put0_loop_place fuel rt _ e ke); assumption].
    set (i := u mod bucket_count rt) in *.
    set (b := slot rt i) in *.
    destruct (inv_entries rt I i Hi kb Ekb) as (Hb1 & Hb2 & Hb3 & Hb4 & Hb5).
    fold b in Hb2, Hb3, Hb4, Hb5.
    destruct (Hok ke Hke) as (He1 & He2 & He3 & He4 & He5).
    rewrite put0_loop_S. fold b. rewrite Ekb. cbn [is_null].
    unfold b at 1. unfold i at 1. rewrite (Hno u) by lia.
    assert (Hstep : Z.land (wrap64 (i + 1)) (mask rt) = (u + 1) mod bucket_count rt)
      by (unfold i; apply (geo_next rt G); lia).
    rewrite Hstep.
    destruct (Z.ltb_spec (psl b) (psl e)) as [Hlt | Hge].
    + (* the entry in hand takes the slot; its occupant moves on *)
      change (set_buckets rt (set_bucket (buckets rt) i e))
        with (write_slot rt i e (count rt)).
      assert (I1 : table_inv (write_slot rt i e (count rt))).
      { apply table_inv_write; try assumption.
        - rewrite Hke. discriminate.
        - intros j k0 Hj _ Hk0. rewrite Hke in Hk0. injection Hk0 as <-. apply Hab, Hj.
        - rewrite (rank_occupied e ke Hke). exact Hprev.
        - pose proof (inv_robin rt I i Hi ltac:(tauto)) as Hr.
          fold b in Hr. rewrite (rank_occupied b kb Ekb) in Hr.
          rewrite (rank_occupied e ke Hke). lia.
        - fold b. rewrite (occ_occupied b kb Ekb), (occ_occupied e ke Hke). lia. }
      assert (Hfar : forall w, u < w <= u + Z.of_nat (S g) ->
                slot (write_slot rt i e (count rt)) (w mod bucket_count rt)
                = slot rt (w mod bucket_count rt)).
      { intros w Hw. apply slot_write_ne.
        - unfold in_range in Hi. lia.
        - apply mod_range. lia.
        - apply mod_apart; lia. }
      destruct (IH fuel (write_slot rt i e (count rt)) (u + 1)
                   (set_psl b (wrap64 (psl b + 1))) kb) as (rt' & Hrun & I' & Hfr & Hc' & Hh');
        try assumption; try lia.
      * cbn [set_psl psl]. rewrite wrap64_small by lia.
        change (bucket_count (write_slot rt i e (count rt))) with (bucket_count rt). lia.
      * change (bucket_count (write_slot rt i e (count rt))) with (bucket_count rt).
        rewrite Hfar by lia.
        replace (u + 1 + Z.of_nat g) with (u + Z.of_nat (S g)) by lia. exact Hgap.
      * intros w Hw.
        change (bucket_count (write_slot rt i e (count rt))) with (bucket_count rt).
        rewrite Hfar by lia. apply Hno. lia.
      * intros k0 Hk0. cbn [set_psl key klen hash psl] in *.
        rewrite Ekb in Hk0. injection Hk0 as <-.
        rewrite wrap64_small by lia.
        change (bucket_count (write_slot rt i e (count rt))) with (bucket_count rt).
        change (mask (write_slot rt i e (count rt))) with (mask rt).
        change (hash_func (write_slot rt i e (count rt))) with (hash_func rt).
        change (seed (write_slot rt i e (count rt))) with (seed rt).
        repeat split; try assumption; try lia.
        apply mod_shift; [lia | exact Hb5].
      * intros j Hj. change (in_range rt j) in Hj.
        destruct (Z.eq_dec j i) as [-> | Hne].
        -- rewrite slot_write_eq by assumption. rewrite Hke. intros [= <-].
           exact (Hab i Hi Ekb).
        -- rewrite slot_write_ne by (unfold in_range in *; lia).
           intros Hj2. apply Hne.
           exact (inv_distinct rt I j i kb Hj Hi Hj2 Ekb).
      * intros j Hj Hnext. change (in_range rt j) in Hj.
        change (bucket_count (write_slot rt i e (count rt))) with (bucket_count rt) in Hnext.
        assert (j = i) as ->.
        { apply (succ_mod_inj (bucket_count rt)); try (unfold in_range in *; lia).
          rewrite Hnext. unfold i. symmetry. apply mod_succ_mod. lia. }
        rewrite slot_write_eq by assumption.
        rewrite (rank_occupied e ke Hke).
        cbn [set_psl psl]. rewrite wrap64_small by lia. lia.
      * exists rt'. split; [exact Hrun|]. split; [exact I'|].
        split; [exact (same_frame_trans _ _ _ (write_slot_frame rt i e (count rt)) Hfr)|].
        split; [exact Hc'|].
        intros k' v'. rewrite Hh'.
        rewrite (holds_write rt i e _ k' v' G Hi).
        rewrite (holds_split rt i k' v' Hi). fold b.
        cbn [set_psl val]. rewrite Hke, Ekb.
        split.
        -- intros [[([= <-] & Hv) | H] | (-> & ->)].
           ++ right. split; [reflexivity | congruence].
           ++ left. right. exact H.
           ++ left. left. split; reflexivity.
        -- intros [[([= <-] & Hv) | H] | (-> & ->)].
           ++ right. split; [reflexivity | congruence].
           ++ left. right. exact H.
           ++ left. left. split; reflexivity.
    + (* the occupant stays; the entry in hand moves on *)
      destruct (IH fuel rt (u + 1) (set_psl e (wrap64 (psl e + 1))) ke)
        as (rt' & Hrun & I' & Hfr & Hc' & Hh');
        try assumption; try lia.
      * cbn [set_psl psl]. rewrite wrap64_small by lia. lia.
      * replace (u + 1 + Z.of_nat g) with (u + Z.of_nat (S g)) by lia. exact Hgap.
      * intros w Hw. apply Hno. lia.
      * intros k0 Hk0. cbn [set_psl key klen hash psl] in *.
        rewrite Hke in Hk0. injection Hk0 as <-.
        rewrite wrap64_small by lia.
        repeat split; try assumption; try lia.
        apply mod_shift; [lia | exact He5].
      * intros j Hj Hnext.
        assert (j = i) as ->.
        { apply (succ_mod_inj (bucket_count rt)); try (unfold in_range in *; lia).
          rewrite Hnext. unfold i. symmetry. apply mod_succ_mod. lia. }
        fold b. rewrite (rank_occupied b kb Ekb).
        cbn [set_psl psl]. rewrite wrap64_small by lia. lia.
      * exists rt'. repeat (split; [assumption|]). exact Hh'.
Qed.

End Insert.

(** ** [robin_table_put0], [robin_table_get_bucket] and [robin_table_get] *)

Lemma bind_done {A B : Type} (a : A) (f : A -> outcome B) : mbind f (Done a) = f a.
Proof. reflexivity. Qed.

Lemma rank_lower b : -1 <= rank b \/ psl b < 0.
Proof. unfold rank. destruct (is_null (key b)); lia. Qed.

Section PutGet.

Variable rt : robin_table_t.
Hypothesis I : table_inv rt.
Hypothesis Hroom : count rt < bucket_count rt.
Variable k : key_t.
Hypothesis Hk : k <> [].

Let kl := Z.of_nat (length k).
Let h := hash_func rt k kl (seed rt).
Let a := Z.land h (mask rt).

Lemma start_index : 0 <= a < bucket_count rt /\ a mod bucket_count rt = a.
Proof.
  pose proof (inv_geometry rt I) as G. pose proof (geo_big rt G).
  assert (Ha : 0 <= a < bucket_count rt).
  { unfold a. rewrite (geo_land rt G). apply mod_range. lia. }
  split; [exact Ha | apply Z.mod_small; exact Ha].
Qed.

Lemma robin_table_put0_present fuel v i :
  (Z.to_nat (bucket_count rt) < fuel)%nat ->
  in_range rt i -> key (slot rt i) = Some k ->
  robin_table_put0 fuel rt k kl v = Done (val (slot rt i), rt).
Proof.
  intros Hf Hi Hki.
  destruct (found_facts rt I i k Hi Hki) as (_ & Ha & Hp & _).
  fold kl in Ha, Hp. fold h in Ha, Hp. fold a in Ha, Hp.
  pose proof (put0_loop_found rt I i k Hi Hki v (Z.to_nat (psl (slot rt i))) fuel
                {| key := Some k; val := v; psl := 0; klen := kl; hash := h |}) as H.
  fold kl in H. fold h in H. fold a in H.
  rewrite Z2Nat.id in H by lia.
  replace (a + (psl (slot rt i) - psl (slot rt i))) with a in H by lia.
  rewrite (proj2 start_index) in H.
  unfold robin_table_put0. apply H; [lia | lia | simpl; lia].
Qed.

Lemma robin_table_put0_absent fuel v :
  (Z.to_nat (bucket_count rt) < fuel)%nat ->
  absent rt k ->
  exists rt',
    robin_table_put0 fuel rt k kl v = Done (v, rt') /\
    table_inv rt' /\ same_frame rt rt' /\ count rt' = count rt + 1 /\
    forall k' v', holds rt' k' v' <-> holds rt k' v' \/ (k' = k /\ v' = v).
Proof.
  intros Hf Hab.
  pose proof (inv_geometry rt I) as G.
  pose proof (geo_big rt G) as Hbig. pose proof (geo_small rt G) as Hsmall.
  destruct start_index as (Ha & Hamod).
  destruct (empty_ahead rt a G (inv_count rt I) Hroom) as (g & Hg & Hempty).
  pose proof (occ_count_range (buckets rt)) as Hocc.
  rewrite <- (inv_count rt I) in Hocc.
  pose proof (put0_loop_insert h k kl v g fuel rt a
                {| key := Some k; val := v; psl := 0; klen := kl; hash := h |} k I) as H.
  rewrite Hamod in H. unfold robin_table_put0. fold kl h a.
  cbn [val] in H. apply H; clear H; try lia; try assumption.
  - intros w Hw. apply (absent_no_match rt k I Hk Hab). apply mod_range. lia.
  - reflexivity.
  - intros k0 [= <-]. cbn [klen hash psl].
    repeat split; try assumption; try lia.
    fold a. rewrite Z.add_0_r. exact Hamod.
  - intros j Hj _. cbn [psl].
    destruct (key (slot rt j)) as [kj|] eqn:Ekj.
    + rewrite (rank_occupied _ kj Ekj).
      destruct (inv_entries rt I j Hj kj Ekj) as (_ & _ & _ & Hp & _). lia.
    + rewrite (rank_empty _ Ekj). lia.
Qed.

Lemma robin_table_get_bucket_present i :
  in_range rt i -> key (slot rt i) = Some k ->
  robin_table_get_bucket rt k kl = Done (Some i).
Proof.
  intros Hi Hki.
  destruct (found_facts rt I i k Hi Hki) as (_ & Ha & Hp & _).
  fold kl in Ha, Hp. fold h in Ha, Hp. fold a in Ha, Hp.
  pose proof (get_bucket_loop_found rt I i k Hi Hki (Z.to_nat (psl (slot rt i)))
                (probe_budget rt)) as H.
  fold kl in H. fold h in H. fold a in H.
  rewrite Z2Nat.id in H by lia.
  replace (a + (psl (slot rt i) - psl (slot rt i))) with a in H by lia.
  replace (psl (slot rt i) - psl (slot rt i)) with 0 in H by lia.
  rewrite (proj2 start_index) in H.
  unfold robin_table_get_bucket. apply H; unfold probe_budget; lia.
Qed.

Lemma robin_table_get_bucket_absent :
  absent rt k -> robin_table_get_bucket rt k kl = Done None.
Proof.
  intros Hab.
  pose proof (inv_geometry rt I) as G.
  pose proof (geo_big rt G) as Hbig. pose proof (geo_small rt G) as Hsmall.
  destruct start_index as (Ha & Hamod).
  destruct (empty_ahead rt a G (inv_count rt I) Hroom) as (g & Hg & Hempty).
  pose proof (get_bucket_loop_absent rt G h k kl (absent_no_match rt k I Hk Hab)
                g (probe_budget rt) a 0) as H.
  rewrite Hamod in H. unfold robin_table_get_bucket. fold kl h a.
  apply H; unfold probe_budget; try lia. exact Hempty.
Qed.

Lemma assert_key_ok : RT_ASSERT (negb (kl =? 0)) = Done tt.
Proof.
  pose proof (length_key_nonzero k Hk). fold kl in H.
  destruct (Z.eqb_spec kl 0); [contradiction | reflexivity].
Qed.

Lemma robin_table_get_present v :
  holds rt k v -> robin_table_get rt k = Done v.
Proof.
  intros (i & Hi & Hki & Hv).
  unfold robin_table_get. fold kl. rewrite assert_key_ok, bind_done.
  rewrite (robin_table_get_bucket_present i Hi Hki), bind_done.
  fold (slot rt i). rewrite Hv. reflexivity.
Qed.

Lemma robin_table_get_absent :
  absent rt k -> robin_table_get rt k = Done NULL.
Proof.
  intros Hab.
  unfold robin_table_get. fold kl. rewrite assert_key_ok, bind_done.
  rewrite (robin_table_get_bucket_absent Hab). reflexivity.
Qed.

End PutGet.

Lemma agree_except_zeroed vac bs bs' :
  0 <= vac -> agree_except vac bs bs' ->
  set_bucket bs' vac zero_bucket = set_bucket bs vac zero_bucket.
Proof.
  intros Hv (Hlen & Hag). unfold set_bucket.
  apply list_eq. intros i.
  destruct (decide (i = Z.to_nat vac)) as [-> | Hne].
  - destruct (decide (Z.to_nat vac < length bs)%nat) as [Hlt | Hge].
    + rewrite !list_lookup_insert_eq by lia. reflexivity.
    + rewrite !list_insert_ge by lia.
      rewrite !lookup_ge_None_2 by lia. reflexivity.
  - rewrite !list_lookup_insert_ne by lia.
    specialize (Hag (Z.of_nat i) ltac:(lia) ltac:(lia)).
    rewrite !bucket_at_lookup, Nat2Z.id in Hag.
    destruct (bs' !! i) as [x|] eqn:E1; destruct (bs !! i) as [y|] eqn:E2;
      simpl in Hag; try congruence.
    + apply lookup_lt_Some in E1. apply lookup_ge_None in E2. lia.
    + apply lookup_ge_None in E1. apply lookup_lt_Some in E2. lia.
Qed.

(** ** Deletion: the backward shift of [robin_table_del] *)

Lemma mod_unshift y p c n :
  0 < n -> (y + p) mod n = (c + 1) mod n -> (y + (p - 1)) mod n = c mod n.
Proof.
  intros Hn H.
  replace (y + (p - 1)) with (y + p - 1) by lia.
  rewrite Zminus_mod, H, <- Zminus_mod. f_equal. lia.
Qed.

Lemma rank_zero_bucket : rank zero_bucket = -1.
Proof. reflexivity. Qed.

Section Shift.

(** The shift stops: the vacated slot is zeroed. *)
Lemma del_shift_stop rt cm x :
  geometry rt -> in_range rt cm -> in_range rt x -> x <> cm ->
  x = (cm + 1) mod bucket_count rt ->
  zeros_ok (vacated rt cm) -> entries_ok (vacated rt cm) ->
  distinct_ok (vacated rt cm) ->
  robin_except (vacated rt cm) (fun i => i = cm) ->
  count rt = occ_count (buckets (vacated rt cm)) + 1 ->
  is_null (key (slot rt x)) || (psl (slot rt x) =? 0) = true ->
  let rt' := write_slot rt cm zero_bucket (wrap64 (count rt - 1)) in
  table_inv rt' /\ same_frame rt rt' /\ count rt' = count rt - 1 /\
  (forall k v, holds rt' k v <-> holds (vacated rt cm) k v) /\
  forall fuel bs, agree_except cm (buckets rt) bs ->
    shift_as_amended (S fuel) (mask rt) bs (count rt) cm = Some (buckets rt', count rt').
Proof.
  intros G Hcm Hx Hne Hxdef Hz He Hd Hr Hc Hstop rt'.
  pose proof (geo_small rt G) as Hsmall.
  pose proof (occ_count_range (buckets (vacated rt cm))) as Hocc.
  assert (G0 : geometry (vacated rt cm)) by (apply geometry_write; exact G).
  rewrite (geo_len _ G0) in Hocc. change (bucket_count (vacated rt cm)) with (bucket_count rt) in Hocc.
  assert (Hwrap : wrap64 (count rt - 1) = count rt - 1)
    by (apply wrap64_small; lia).
  split; [|split; [apply write_slot_frame | split; [exact Hwrap|]]].
  - constructor.
    + apply geometry_write. exact G.
    + exact Hz.
    + exact He.
    + exact Hd.
    + intros i Hi _. change (in_range rt i) in Hi.
      change (bucket_count rt') with (bucket_count rt).
      destruct (Z.eq_dec i cm) as [-> | Hicm].
      * rewrite <- Hxdef.
        unfold rt'. rewrite slot_write_eq by assumption.
        rewrite slot_write_ne by (unfold in_range in *; lia).
        rewrite rank_zero_bucket.
        apply orb_true_iff in Hstop. unfold rank.
        destruct Hstop as [Hn | Hp]; [rewrite Hn; lia|].
        apply Z.eqb_eq in Hp. destruct (is_null (key (slot rt x))); lia.
      * apply (Hr i Hi Hicm).
    + change (count rt') with (wrap64 (count rt - 1)). rewrite Hwrap.
      change (buckets rt') with (buckets (vacated rt cm)). lia.
  - split.
    + intros k v. split; intros (j & Hj & Hk); exists j; (split; [exact Hj | exact Hk]).
    + intros fuel bs Hag. cbn [shift_as_amended]. cbv zeta.
      assert (Hnx : Z.land (cm + 1) (mask rt) = x).
      { rewrite (geo_land rt G). symmetry. exact Hxdef. }
      rewrite Hnx.
      rewrite (proj2 Hag x) by (unfold in_range in *; lia).
      fold (slot rt x). rewrite Hstop.
      change (count rt') with (wrap64 (count rt - 1)). rewrite Hwrap.
      rewrite (agree_except_zeroed cm (buckets rt) bs) by (unfold in_range in *; tauto || lia).
      reflexivity.
Qed.

Lemma del_shift_ok (g : nat) : forall fuel rt c,
  geometry rt -> 0 <= c ->
  zeros_ok (vacated rt (c mod bucket_count rt)) ->
  entries_ok (vacated rt (c mod bucket_count rt)) ->
  distinct_ok (vacated rt (c mod bucket_count rt)) ->
  robin_except (vacated rt (c mod bucket_count rt))
               (fun i => i = c mod bucket_count rt) ->
  (forall j, in_range rt j ->
     (j + 1) mod bucket_count rt = c mod bucket_count rt ->
     rank (slot (vacated rt (c mod bucket_count rt)) ((c + 1) mod bucket_count rt))
     <= rank (slot (vacated rt (c mod bucket_count rt)) j) + 2) ->
  count rt = occ_count (buckets (vacated rt (c mod bucket_count rt))) + 1 ->
  (g < fuel)%nat -> Z.of_nat g + 1 < bucket_count rt ->
  key (slot rt ((c + 1 + Z.of_nat g) mod bucket_count rt)) = None ->
  exists rt',
    del_shift fuel rt (c mod bucket_count rt) (c mod bucket_count rt) = Done rt' /\
    table_inv rt' /\ same_frame rt rt' /\ count rt' = count rt - 1 /\
    (forall k v, holds rt' k v <-> holds (vacated rt (c mod bucket_count rt)) k v) /\
    forall bs, agree_except (c mod bucket_count rt) (buckets rt) bs ->
      shift_as_amended fuel (mask rt) bs (count rt) (c mod bucket_count rt)
      = Some (buckets rt', count rt').
Proof.
  induction g as [|g IH];
    intros fuel rt c G Hc0 Hz He Hd Hr Hprev Hcnt Hf Hg Hgap;
    (destruct fuel as [|fuel]; [lia|]);
    pose proof (geo_big rt G) as Hbig;
    pose proof (geo_small rt G) as Hsmall;
    set (n := bucket_count rt) in *;
    set (cm := c mod n) in *;
    assert (Hcm : in_range rt cm) by (apply mod_range; lia);
    assert (Hstep : Z.land (wrap64 (cm + 1)) (mask rt) = (c + 1) mod n)
      by (apply (geo_next rt G); lia);
    assert (Hxdef : (c + 1) mod n = (cm + 1) mod n)
      by (symmetry; apply mod_succ_mod; lia);
    set (x := (c + 1) mod n) in *;
    assert (Hx : in_range rt x) by (apply mod_range; lia);
    assert (Hxne : x <> cm) by (apply mod_apart; lia);
    rewrite del_shift_S; cbv zeta; rewrite Hstep;
    destruct (is_null (key (slot rt x)) || (psl (slot rt x) =? 0)) eqn:Hstop;
    try (pose proof (del_shift_stop rt cm x G Hcm Hx Hxne Hxdef Hz He Hd Hr Hcnt Hstop)
           as (A1 & A2 & A3 & A4 & A5);
         eexists; split; [reflexivity|];
         repeat (split; [assumption|]); apply A5).
  - (* no slot left to cross: the next one is the empty slot *)
    exfalso. replace (c + 1 + Z.of_nat 0) with (c + 1) in Hgap by lia.
    fold x in Hgap. rewrite Hgap in Hstop. discriminate.
  - apply orb_false_iff in Hstop. destruct Hstop as [Hnn Hp0].
    apply Z.eqb_neq in Hp0.
    set (b := slot rt x) in *.
    destruct (key b) as [kb|] eqn:Ekb; [clear Hnn | discriminate].
    assert (Hs0x : slot (vacated rt cm) x = b)
      by (apply slot_write_ne; unfold in_range in *; lia).
    assert (Hs0c : slot (vacated rt cm) cm = zero_bucket)
      by (apply slot_write_eq; assumption).
    pose proof (He x Hx kb) as Hbok. rewrite Hs0x in Hbok.
    destruct (Hbok Ekb) as (Hb1 & Hb2 & Hb3 & Hb4 & Hb5).
    change (bucket_count (vacated rt cm)) with n in Hb4, Hb5.
    change (mask (vacated rt cm)) with (mask rt) in Hb5.
    assert (Hw : wrap64 (psl b - 1) = psl b - 1) by (apply wrap64_small; lia).
    rewrite Hw.
    set (b' := set_psl b (psl b - 1)).
    assert (Hat : bucket_at (set_bucket (buckets rt) x b') x = b')
      by (apply bucket_at_set_eq; rewrite (geo_len rt G); exact Hx).
    rewrite Hat.
    set (rt1 := set_buckets rt (set_bucket (set_bucket (buckets rt) x b') cm b')).
    set (R := write_slot (write_slot (vacated rt cm) x zero_bucket (count rt))
                         cm b' (count rt)).
    assert (HR : vacated rt1 x = R).
    { unfold vacated, R, rt1, write_slot, set_count, set_buckets. simpl. f_equal.
      repeat first
        [ rewrite set_bucket_twice
        | rewrite (set_bucket_swap _ cm x) by (unfold in_range in *; lia) ].
      reflexivity. }
    assert (G0 : geometry (vacated rt cm)) by (apply geometry_write; exact G).
    assert (G1 : geometry rt1).
    { apply (geometry_frame rt); [exact G | repeat split |].
      unfold rt1. simpl. rewrite !length_set_bucket. reflexivity. }
    assert (GR : geometry (write_slot (vacated rt cm) x zero_bucket (count rt)))
      by (apply geometry_write; exact G0).
    assert (HsR : forall j, in_range rt j ->
              slot R j = if decide (j = cm) then b'
                         else if decide (j = x) then zero_bucket
                         else slot (vacated rt cm) j).
    { intros j Hj. unfold R.
      destruct (decide (j = cm)) as [-> | Hjc].
      - apply slot_write_eq; assumption.
      - rewrite slot_write_ne by (unfold in_range in *; lia).
        destruct (decide (j = x)) as [-> | Hjx].
        + apply slot_write_eq; assumption.
        + apply slot_write_ne; unfold in_range in *; lia. }
    assert (Hkb' : key b' = Some kb) by exact Ekb.
    assert (Hunique : forall j, in_range rt j -> j <> x ->
              key (slot (vacated rt cm) j) <> Some kb).
    { intros j Hj Hjx Hkj. apply Hjx.
      apply (Hd j x kb Hj Hx Hkj). rewrite Hs0x. exact Ekb. }
    change (bucket_count rt1) with n in IH.
    destruct (IH fuel rt1 (c + 1) G1 ltac:(lia))
      as (rt' & Hrun & I' & Hfr & Hc' & Hh' & Hsp').
    + (* zeros *)
      change (bucket_count rt1) with n. fold x. rewrite HR.
      intros j Hj. change (in_range rt j) in Hj. rewrite (HsR j Hj).
      destruct (decide (j = cm)); [rewrite Hkb'; discriminate|].
      destruct (decide (j = x)); [reflexivity|]. apply (Hz j Hj).
    + (* entries *)
      change (bucket_count rt1) with n. fold x. rewrite HR.
      intros j Hj. change (in_range rt j) in Hj. rewrite (HsR j Hj).
      destruct (decide (j = cm)) as [-> |].
      * intros k0 Hk0. rewrite Hkb' in Hk0. injection Hk0 as <-.
        change (bucket_count R) with n. change (mask R) with (mask rt).
        change (hash_func R) with (hash_func rt). change (seed R) with (seed rt).
        cbn [b' set_psl klen hash psl].
        repeat split; try assumption; try lia.
        apply mod_unshift; [lia | exact Hb5].
      * destruct (decide (j = x)); [intros k0 [=] | apply (He j Hj)].
    + (* distinct *)
      change (bucket_count rt1) with n. fold x. rewrite HR.
      intros j1 j2 k0 Hj1 Hj2.
      change (in_range rt j1) in Hj1. change (in_range rt j2) in Hj2.
      rewrite (HsR j1 Hj1), (HsR j2 Hj2).
      destruct (decide (j1 = cm)) as [-> | Hn1]; destruct (decide (j2 = cm)) as [-> | Hn2];
        try (intros; reflexivity).
      * rewrite Hkb'. intros [= <-].
        destruct (decide (j2 = x)); [intros [=]|].
        intros Hk2. exfalso. apply (Hunique j2); assumption.
      * destruct (decide (j1 = x)); [intros [=]|].
        intros Hk1. rewrite Hkb'. intros [= <-].
        exfalso. apply (Hunique j1); assumption.
      * destruct (decide (j1 = x)); [intros [=]|].
        destruct (decide (j2 = x)); [intros _ [=]|].
        apply (Hd j1 j2 k0 Hj1 Hj2).
    + (* Robin Hood ordering, the pair after [x] exempted *)
      change (bucket_count rt1) with n. fold x. rewrite HR.
      intros i Hi Hix. change (in_range rt i) in Hi.
      change (bucket_count R) with n.
      assert (Hi' : in_range rt ((i + 1) mod n)) by (apply mod_range; lia).
      rewrite (HsR i Hi), (HsR _ Hi').
      destruct (decide (i = cm)) as [-> | Hic].
      * rewrite <- Hxdef.
        destruct (decide (x = cm)); [contradiction|].
        destruct (decide (x = x)); [|contradiction].
        rewrite rank_zero_bucket, (rank_occupied b' kb Hkb').
        cbn [b' set_psl psl]. lia.
      * destruct (decide (i = x)); [contradiction|].
        destruct (decide ((i + 1) mod n = cm)) as [Hnc | Hnc].
        -- specialize (Hprev i Hi Hnc). rewrite Hs0x in Hprev.
           rewrite (rank_occupied b kb Ekb) in Hprev.
           rewrite (rank_occupied b' kb Hkb'). cbn [b' set_psl psl]. lia.
        -- destruct (decide ((i + 1) mod n = x)) as [Hnx | Hnx].
           ++ exfalso. apply Hic.
              apply (succ_mod_inj n); unfold in_range in *; lia.
           ++ apply (Hr i Hi Hic).
    + (* the slot two steps ahead fits behind the moved entry *)
      change (bucket_count rt1) with n. fold x. rewrite HR.
      intros j Hj Hjx. change (in_range rt j) in Hj.
      assert (j = cm) as ->.
      { apply (succ_mod_inj n); unfold in_range in *; lia. }
      assert (Hy : in_range rt ((c + 1 + 1) mod n)) by (apply mod_range; lia).
      rewrite (HsR cm Hcm), (HsR _ Hy).
      destruct (decide (cm = cm)); [|contradiction].
      destruct (decide ((c + 1 + 1) mod n = cm)) as [Hbad | _].
      { exfalso. revert Hbad. apply mod_apart; lia. }
      destruct (decide ((c + 1 + 1) mod n = x)) as [Hbad | _].
      { exfalso. revert Hbad. apply mod_apart; lia. }
      pose proof (Hr x Hx Hxne) as Hrx.
      change (bucket_count (vacated rt cm)) with n in Hrx.
      unfold x in Hrx at 1. rewrite mod_succ_mod in Hrx by lia.
      rewrite Hs0x, (rank_occupied b kb Ekb) in Hrx.
      rewrite (rank_occupied b' kb Hkb'). cbn [b' set_psl psl]. lia.
    + (* count *)
      change (bucket_count rt1) with n. fold x. rewrite HR.
      change (count rt1) with (count rt). rewrite Hcnt.
      unfold R. cbn [write_slot set_count set_buckets buckets].
      rewrite occ_count_set
        by (rewrite length_set_bucket; rewrite (geo_len _ G0); exact Hcm).
      rewrite occ_count_set by (rewrite (geo_len _ G0); exact Hx).
      fold (slot (vacated rt cm) x).
      rewrite bucket_at_set_ne by (unfold in_range in *; lia).
      fold (slot (vacated rt cm) cm).
      rewrite Hs0x, Hs0c.
      rewrite (occ_occupied b kb Ekb), (occ_occupied b' kb Hkb').
      change (occ zero_bucket) with 0. lia.
    + lia.
    + change (bucket_count rt1) with n. lia.
    + change (bucket_count rt1) with n.
      assert (Hy : forall w, c + 1 < w < c + n ->
                slot rt1 (w mod n) = slot rt (w mod n)).
      { intros w Hwr. unfold rt1, slot. cbn [set_buckets buckets].
        rewrite !bucket_at_set_ne; try reflexivity;
          try (apply mod_range; lia); try (unfold in_range in *; lia).
        - apply not_eq_sym. apply mod_apart; lia.
        - apply not_eq_sym. apply mod_apart; lia. }
      rewrite Hy by lia.
      replace (c + 1 + 1 + Z.of_nat g) with (c + 1 + Z.of_nat (S g)) by lia.
      exact Hgap.
    + exists rt'. split; [exact Hrun|]. split; [exact I'|].
      split; [|split; [|split]].
      * apply (same_frame_trans rt rt1 rt'); [repeat split | exact Hfr].
      * rewrite Hc'. reflexivity.
      * intros k0 v0. rewrite Hh'.
        change (bucket_count rt1) with n. fold x. rewrite HR.
        split.
        -- intros (j & Hj & Hk & Hv). change (in_range rt j) in Hj.
           rewrite (HsR j Hj) in Hk, Hv.
           destruct (decide (j = cm)).
           ++ exists x. split; [exact Hx|]. rewrite Hs0x. split; assumption.
           ++ destruct (decide (j = x)); [discriminate|].
              exists j. split; [exact Hj|]. split; assumption.
        -- intros (j & Hj & Hk & Hv). change (in_range rt j) in Hj.
           destruct (Z.eq_dec j x) as [-> | Hjx].
           ++ exists cm. split; [exact Hcm|]. rewrite (HsR cm Hcm).
              destruct (decide (cm = cm)); [|contradiction].
              rewrite Hs0x in Hk, Hv. split; assumption.
           ++ destruct (Z.eq_dec j cm) as [-> | Hjc].
              ** rewrite Hs0c in Hk. discriminate.
              ** exists j. split; [exact Hj|]. rewrite (HsR j Hj).
                 destruct (decide (j = cm)); [contradiction|].
                 destruct (decide (j = x)); [contradiction|]. split; assumption.
      * intros bs (Hlen & Hag). cbn [shift_as_amended]. cbv zeta.
        assert (Hnx : Z.land (cm + 1) (mask rt) = x).
        { rewrite (geo_land rt G). symmetry. exact Hxdef. }
        rewrite Hnx.
        rewrite (Hag x) by (unfold in_range in *; lia).
        fold (slot rt x). fold b. rewrite Ekb. cbn [is_null orb].
        destruct (Z.eqb_spec (psl b) 0) as [|_]; [contradiction|].
        fold b'.
        change (bucket_count rt1) with n in Hsp'. fold x in Hsp'.
        apply (Hsp' (set_bucket bs cm b')).
        split.
        -- unfold rt1. cbn [set_buckets buckets]. rewrite !length_set_bucket. exact Hlen.
        -- intros j Hj Hjx. unfold rt1. cbn [set_buckets buckets].
           destruct (Z.eq_dec j cm) as [-> | Hjc].
           ++ rewrite !bucket_at_set_eq; [reflexivity | |].
              ** rewrite length_set_bucket, (geo_len rt G). exact Hcm.
              ** rewrite Hlen, (geo_len rt G). exact Hcm.
           ++ rewrite !bucket_at_set_ne by (unfold in_range in *; lia).
              apply Hag; assumption.
Qed.

End Shift.

(** The whole shift, started at the slot that holds the key. *)
Lemma del_shift_found rt i k :
  table_inv rt -> count rt < bucket_count rt ->
  in_range rt i -> key (slot rt i) = Some k ->
  exists rt',
    del_shift (probe_budget rt) rt i i = Done rt' /\
    table_inv rt' /\ same_frame rt rt' /\ count rt' = count rt - 1 /\
    (forall k' v', holds rt' k' v' <-> holds rt k' v' /\ k' <> k) /\
    shift_as_amended (probe_budget rt) (mask rt) (buckets rt) (count rt) i
    = Some (buckets rt', count rt').
Proof.
  intros I Hroom Hi Hk.
  pose proof (inv_geometry rt I) as G.
  pose proof (geo_big rt G) as Hbig.
  set (n := bucket_count rt) in *.
  assert (Himod : i mod n = i) by (apply Z.mod_small; exact Hi).
  assert (Hs0 : forall j, in_range rt j ->
            slot (vacated rt i) j = if decide (j = i) then zero_bucket else slot rt j).
  { intros j Hj. destruct (decide (j = i)) as [-> | Hne].
    - apply slot_write_eq; assumption.
    - apply slot_write_ne; unfold in_range in *; lia. }
  assert (Hrank : forall j, in_range rt j -> -1 <= rank (slot rt j)).
  { intros j Hj. destruct (key (slot rt j)) as [kj|] eqn:Ekj.
    - rewrite (rank_occupied _ kj Ekj).
      destruct (inv_entries rt I j Hj kj Ekj) as (_ & _ & _ & Hp & _). lia.
    - rewrite (rank_empty _ Ekj). lia. }
  destruct (empty_ahead rt (i + 1) G (inv_count rt I) Hroom) as (g & Hg & Hempty).
  fold n in Hg, Hempty.
  assert (Hg1 : Z.of_nat g + 1 < n).
  { destruct (Z.eq_dec (Z.of_nat g + 1) n) as [Heq | Hneq]; [|lia].
    exfalso. replace (i + 1 + Z.of_nat g) with (i + 1 * n) in Hempty by lia.
    rewrite Z.mod_add in Hempty by lia. rewrite Himod in Hempty. congruence. }
  pose proof (del_shift_ok g (probe_budget rt) rt i G) as H.
  fold n in H. rewrite Himod in H.
  destruct H as (rt' & Hrun & I' & Hfr & Hc' & Hh' & Hsp'); try assumption.
  - unfold in_range in Hi. lia.
  - intros j Hj. change (in_range rt j) in Hj. rewrite (Hs0 j Hj).
    destruct (decide (j = i)); [reflexivity | apply (inv_zeros rt I j Hj)].
  - intros j Hj. change (in_range rt j) in Hj. rewrite (Hs0 j Hj).
    destruct (decide (j = i)); [intros k0 [=] | apply (inv_entries rt I j Hj)].
  - intros j1 j2 k0 Hj1 Hj2.
    change (in_range rt j1) in Hj1. change (in_range rt j2) in Hj2.
    rewrite (Hs0 j1 Hj1), (Hs0 j2 Hj2).
    destruct (decide (j1 = i)); [intros [=]|].
    destruct (decide (j2 = i)); [intros _ [=]|].
    apply (inv_distinct rt I j1 j2 k0 Hj1 Hj2).
  - intros j Hj Hji. change (in_range rt j) in Hj.
    change (bucket_count (vacated rt i)) with n.
    assert (Hj' : in_range rt ((j + 1) mod n)) by (apply mod_range; lia).
    rewrite (Hs0 j Hj), (Hs0 _ Hj').
    destruct (decide (j = i)); [contradiction|].
    destruct (decide ((j + 1) mod n = i)).
    + rewrite rank_zero_bucket. specialize (Hrank j Hj). lia.
    + apply (inv_robin rt I j Hj). tauto.
  - intros j Hj Hji.
    assert (Hi' : in_range rt ((i + 1) mod n)) by (apply mod_range; lia).
    rewrite (Hs0 j Hj), (Hs0 _ Hi').
    destruct (decide ((i + 1) mod n = i)) as [Hbad | _].
    { exfalso. revert Hbad. apply succ_mod_neq; unfold in_range in Hi; lia. }
    destruct (decide (j = i)) as [-> | _].
    { exfalso. revert Hji. apply succ_mod_neq; unfold in_range in Hi; lia. }
    pose proof (inv_robin rt I i Hi ltac:(tauto)) as H1.
    pose proof (inv_robin rt I j Hj ltac:(tauto)) as H2.
    fold n in H1, H2. rewrite Hji in H2. lia.
  - unfold vacated, write_slot. cbn [set_count set_buckets buckets].
    rewrite occ_count_set by (rewrite (geo_len rt G); exact Hi).
    fold (slot rt i). rewrite (occ_occupied _ k Hk).
    change (occ zero_bucket) with 0. rewrite (inv_count rt I). lia.
  - unfold probe_budget. fold n. lia.
  - exists rt'. repeat (split; [assumption|]). split.
    + intros k' v'. rewrite Hh'. split.
      * intros (j & Hj & Hkj & Hv). change (in_range rt j) in Hj.
        rewrite (Hs0 j Hj) in Hkj, Hv.
        destruct (decide (j = i)) as [| Hne]; [discriminate|].
        split; [exists j; tauto|].
        intros ->. apply Hne. exact (inv_distinct rt I j i k Hj Hi Hkj Hk).
      * intros ((j & Hj & Hkj & Hv) & Hne).
        exists j. split; [exact Hj|]. rewrite (Hs0 j Hj).
        destruct (decide (j = i)) as [-> |]; [|tauto].
        exfalso. apply Hne. congruence.
    + apply Hsp'. split; [reflexivity|]. intros; reflexivity.
Qed.

(** ** Resizing *)

Lemma drop_buckets_cons bs i :
  0 <= i < Z.of_nat (length bs) ->
  drop (Z.to_nat i) bs = bucket_at bs i :: drop (Z.to_nat (i + 1)) bs.
Proof.
  intros Hi. replace (Z.to_nat (i + 1)) with (S (Z.to_nat i)) by lia.
  apply drop_S. unfold bucket_at.
  destruct (nth_lookup_or_length bs (Z.to_nat i) zero_bucket) as [H | H]; [exact H | lia].
Qed.

Section ResizeLoop.

Variable old : robin_table_t.
Hypothesis Iold : table_inv old.

Lemma resize_loop_ok (m : nat) : forall i rt,
  table_inv rt -> 0 <= i -> i + Z.of_nat m = bucket_count old ->
  count old < bucket_count rt ->
  count rt + occ_count (drop (Z.to_nat i) (buckets old)) = count old ->
  (forall k v, holds rt k v <->
               exists j, 0 <= j < i /\ key (slot old j) = Some k /\ val (slot old j) = v) ->
  exists rt',
    resize_loop m i (buckets old) rt = Done rt' /\
    table_inv rt' /\ same_frame rt rt' /\ count rt' = count old /\
    forall k v, holds rt' k v <-> holds old k v.
Proof.
  pose proof (inv_geometry old Iold) as Gold.
  induction m as [|m IH]; intros i rt I Hi Him Hroom Hcnt Hh.
  - exists rt. split; [reflexivity|]. split; [exact I|].
    split; [apply same_frame_refl|]. split.
    + rewrite drop_ge in Hcnt by (pose proof (geo_len old Gold); lia).
      simpl in Hcnt. lia.
    + intros k v. rewrite Hh. unfold holds, in_range.
      replace i with (bucket_count old) by lia. reflexivity.
  - assert (Hio : in_range old i) by (unfold in_range; lia).
    rewrite drop_buckets_cons in Hcnt by (rewrite (geo_len old Gold); exact Hio).
    fold (slot old i) in Hcnt. cbn [occ_count] in Hcnt.
    pose proof (occ_count_range (drop (Z.to_nat (i + 1)) (buckets old))) as Hrest.
    cbn [resize_loop]. fold (slot old i).
    destruct (key (slot old i)) as [k|] eqn:Ek.
    + destruct (inv_entries old Iold i Hio k Ek) as (Hk1 & Hk2 & _).
      rewrite (occ_occupied _ k Ek) in Hcnt.
      assert (Hab : absent rt k).
      { intros j Hj Hkj.
        destruct (proj1 (Hh k (val (slot rt j)))) as (j' & Hj' & Hkj' & _).
        { exists j. tauto. }
        assert (j' = i) by (apply (inv_distinct old Iold j' i k); unfold in_range; (lia || assumption)).
        lia. }
      rewrite Hk2.
      destruct (robin_table_put0_absent rt I ltac:(lia) k Hk1 (probe_budget rt)
                  (val (slot old i)) ltac:(unfold probe_budget; lia) Hab)
        as (rt1 & Hput & I1 & Hfr1 & Hc1 & Hh1).
      rewrite Hput, bind_done.
      destruct Hfr1 as (Hbc1 & Hfr1').
      destruct (IH (i + 1) rt1 I1 ltac:(lia) ltac:(lia)) as (rt' & Hrun & I' & Hfr & Hc' & Hh').
      * rewrite Hbc1. exact Hroom.
      * lia.
      * intros k' v'. rewrite Hh1, Hh. split.
        -- intros [(j & Hj & H) | (-> & ->)].
           ++ exists j. split; [lia | exact H].
           ++ exists i. split; [lia | tauto].
        -- intros (j & Hj & Hkj & Hv).
           destruct (Z.eq_dec j i) as [-> | Hne].
           ++ right. split; congruence.
           ++ left. exists j. split; [lia | tauto].
      * exists rt'. split; [exact Hrun|]. split; [exact I'|].
        split; [|split; assumption].
        apply (same_frame_trans rt rt1 rt'); [split; assumption | exact Hfr].
    + rewrite (occ_empty _ Ek) in Hcnt.
      apply IH; try assumption; try lia.
      intros k' v'. rewrite Hh. split.
      * intros (j & Hj & H). exists j. split; [lia | exact H].
      * intros (j & Hj & Hkj & Hv).
        destruct (Z.eq_dec j i) as [-> | Hne]; [congruence|].
        exists j. split; [lia | tauto].
Qed.

End ResizeLoop.

Lemma fresh_table_slot n init sd hf i : slot (fresh_table n init sd hf) i = zero_bucket.
Proof. apply bucket_at_replicate. Qed.

Lemma fresh_table_inv n init sd hf :
  (exists e, 0 <= e /\ n = 2 ^ e) -> (exists e, 0 <= e /\ init = 2 ^ e) ->
  RT_BUCKET_COUNT_MIN <= init <= n -> n * sizeof_bucket <= PTRDIFF_MAX ->
  table_inv (fresh_table n init sd hf).
Proof.
  intros Hp Hip Hfl Hfit.
  assert (Hn : 32 <= n /\ n * 40 < 2 ^ 63)
    by (unfold RT_BUCKET_COUNT_MIN, sizeof_bucket, PTRDIFF_MAX in *; lia).
  constructor.
  - constructor; cbn [fresh_table bucket_count init_buckets buckets mask expand_at shrink_at];
      try assumption.
    + rewrite length_replicate. lia.
    + apply wrap64_small. lia.
    + unfold RT_LOAD_FACTOR_PCT_MAX. rewrite wrap64_small by lia. reflexivity.
    + unfold RT_LOAD_FACTOR_PCT_MIN. rewrite wrap64_small by lia. reflexivity.
  - intros i _ _. apply fresh_table_slot.
  - intros i _ k. rewrite fresh_table_slot. intros [=].
  - intros i j k _ _. rewrite fresh_table_slot. intros [=].
  - intros i _ _. rewrite !fresh_table_slot. rewrite rank_zero_bucket. lia.
  - cbn [fresh_table count buckets]. rewrite occ_count_replicate. reflexivity.
Qed.

Lemma fresh_table_empty n init sd hf k v : ~ holds (fresh_table n init sd hf) k v.
Proof. intros (i & _ & Hk & _). rewrite fresh_table_slot in Hk. discriminate. Qed.

Lemma calloc_buckets_Some avail n bs :
  calloc_buckets avail n = Some bs ->
  n * sizeof_bucket <= PTRDIFF_MAX /\ bs = replicate (Z.to_nat n) zero_bucket.
Proof.
  unfold calloc_buckets, malloc_ok.
  destruct avail; cbn [andb]; [|discriminate].
  destruct (Z.leb_spec (n * sizeof_bucket) PTRDIFF_MAX); [|discriminate].
  intros [= <-]. split; [assumption | reflexivity].
Qed.

Lemma resize_assert_pow2 n :
  (exists e, 0 <= e /\ n = 2 ^ e) -> n < 2 ^ 64 ->
  RT_ASSERT (Z.land n (wrap64 (n - 1)) =? 0) = Done tt.
Proof.
  intros (e & He & ->) Hlt.
  assert (Hpos : 0 < 2 ^ e) by (apply Z.pow_pos_nonneg; lia).
  rewrite wrap64_small by lia.
  rewrite land_mask_mod by lia. rewrite Z.mod_same by lia. reflexivity.
Qed.

Lemma resize_assert_room c n : c < n -> RT_ASSERT (c <? n) = Done tt.
Proof. intros H. destruct (Z.ltb_spec c n); [reflexivity | lia]. Qed.

Lemma robin_table_resize_fail avail rt new_count :
  table_inv rt -> (exists e, 0 <= e /\ new_count = 2 ^ e) -> new_count < 2 ^ 64 ->
  count rt < new_count ->
  calloc_buckets avail new_count = None ->
  robin_table_resize avail rt new_count = Done (false, rt).
Proof.
  intros I Hp Hlt Hc Hnone.
  unfold robin_table_resize.
  rewrite (resize_assert_pow2 _ Hp Hlt), bind_done.
  rewrite (resize_assert_room _ _ Hc), bind_done.
  rewrite Hnone. reflexivity.
Qed.

Lemma robin_table_resize_ok avail rt new_count bs :
  table_inv rt -> (exists e, 0 <= e /\ new_count = 2 ^ e) ->
  init_buckets rt <= new_count -> count rt < new_count ->
  calloc_buckets avail new_count = Some bs ->
  exists rt',
    robin_table_resize avail rt new_count = Done (true, rt') /\
    table_inv rt' /\ bucket_count rt' = new_count /\
    init_buckets rt' = init_buckets rt /\ seed rt' = seed rt /\
    hash_func rt' = hash_func rt /\ count rt' = count rt /\
    forall k v, holds rt' k v <-> holds rt k v.
Proof.
  intros I Hp Hinit Hc Hsome.
  pose proof (inv_geometry rt I) as G.
  destruct (calloc_buckets_Some _ _ _ Hsome) as (Hfit & ->).
  assert (Hlt : new_count < 2 ^ 58) by (unfold sizeof_bucket, PTRDIFF_MAX in *; lia).
  unfold robin_table_resize.
  rewrite (resize_assert_pow2 _ Hp ltac:(lia)), bind_done.
  rewrite (resize_assert_room _ _ Hc), bind_done.
  rewrite Hsome.
  change (mk_table (replicate (Z.to_nat new_count) zero_bucket) 0 new_count
            (init_buckets rt) (wrap64 (new_count - 1))
            (wrap64 (new_count * RT_LOAD_FACTOR_PCT_MAX) / 100)
            (wrap64 (new_count * RT_LOAD_FACTOR_PCT_MIN) / 100)
            (seed rt) (hash_func rt))
    with (fresh_table new_count (init_buckets rt) (seed rt) (hash_func rt)).
  set (rt1 := fresh_table new_count (init_buckets rt) (seed rt) (hash_func rt)).
  assert (I1 : table_inv rt1).
  { apply fresh_table_inv; try assumption.
    - apply (geo_init_pow2 rt G).
    - pose proof (geo_floor rt G). lia. }
  destruct (resize_loop_ok rt I (Z.to_nat (bucket_count rt)) 0 rt1 I1)
    as (rt' & Hrun & I' & Hfr & Hc' & Hh'); try lia.
  - pose proof (geo_big rt G). lia.
  - exact Hc.
  - change (Z.to_nat 0) with 0%nat. rewrite drop_0.
    cbn [rt1 fresh_table count]. rewrite (inv_count rt I). lia.
  - intros k v. split.
    + intros H. exfalso. exact (fresh_table_empty _ _ _ _ _ _ H).
    + intros (j & Hj & _). lia.
  - exists rt'. rewrite Hrun, bind_done.
    destruct Hfr as (Hbc & Hin & _ & _ & _ & Hsd & Hhf).
    repeat (split; [first [reflexivity | assumption]|]). exact Hh'.
Qed.

(** ** The public operations on well-formed tables *)

Lemma calloc_buckets_ok avail n :
  malloc_ok avail (n * sizeof_bucket) = true ->
  calloc_buckets avail n = Some (replicate (Z.to_nat n) zero_bucket).
Proof. unfold calloc_buckets. intros ->. reflexivity. Qed.

Lemma calloc_buckets_fail avail n :
  malloc_ok avail (n * sizeof_bucket) = false -> calloc_buckets avail n = None.
Proof. unfold calloc_buckets. intros ->. reflexivity. Qed.

Lemma WF_room rt : WF rt -> 0 <= count rt < bucket_count rt.
Proof.
  intros (I & Hload).
  pose proof (geo_expand_lt rt (inv_geometry rt I)).
  pose proof (occ_count_range (buckets rt)). rewrite <- (inv_count rt I) in H0. lia.
Qed.

Lemma pow2_double n : (exists e, 0 <= e /\ n = 2 ^ e) -> exists e, 0 <= e /\ 2 * n = 2 ^ e.
Proof.
  intros (e & He & ->). exists (e + 1). split; [lia|].
  rewrite Z.pow_add_r by lia. lia.
Qed.

Lemma pow2_half n m :
  (exists e, 0 <= e /\ n = 2 ^ e) -> (exists e, 0 <= e /\ m = 2 ^ e) -> m < n ->
  (exists e, 0 <= e /\ n / 2 = 2 ^ e) /\ m <= n / 2 /\ 2 * (n / 2) = n.
Proof.
  intros (e & He & ->) (e0 & He0 & ->) Hlt.
  apply Z.pow_lt_mono_r_iff in Hlt; [|lia|lia].
  assert (Hs : 2 ^ e = 2 * 2 ^ (e - 1)).
  { replace e with (1 + (e - 1)) at 1 by lia. rewrite Z.pow_add_r by lia. reflexivity. }
  assert (Hh : 2 ^ e / 2 = 2 ^ (e - 1)).
  { rewrite Hs. rewrite Z.mul_comm. apply Z.div_mul. lia. }
  rewrite Hh. split; [exists (e - 1); split; [lia | reflexivity]|].
  split; [apply Z.pow_le_mono_r; lia | lia].
Qed.

Lemma shiftl_1 n : Z.shiftl n 1 = 2 * n.
Proof. rewrite Z.shiftl_mul_pow2 by lia. lia. Qed.

Lemma shiftr_1 n : Z.shiftr n 1 = n / 2.
Proof. rewrite Z.shiftr_div_pow2 by lia. reflexivity. Qed.

Section Put.

Variable rt : robin_table_t.
Hypothesis W : WF rt.
Variable k : key_t.
Hypothesis Hk : k <> [].
Variables (avail : bool) (v : Z).

Lemma put_new_count : wrap64 (Z.shiftl (bucket_count rt) 1) = 2 * bucket_count rt.
Proof.
  destruct W as (I & _). pose proof (inv_geometry rt I) as G.
  pose proof (geo_big rt G). pose proof (geo_small rt G).
  rewrite shiftl_1. apply wrap64_small. lia.
Qed.

Lemma robin_table_put_grow_fail :
  must_grow rt = true -> grow_ok avail rt = false ->
  robin_table_put avail rt k v = Done (NULL, rt).
Proof.
  intros Hg Hf. destruct W as (I & Hload).
  pose proof (inv_geometry rt I) as G.
  pose proof (geo_big rt G). pose proof (geo_small rt G).
  pose proof (WF_room rt W) as Hroom.
  unfold robin_table_put.
  rewrite (assert_key_ok k Hk), bind_done.
  unfold must_grow in Hg. rewrite Hg.
  rewrite put_new_count.
  rewrite (robin_table_resize_fail avail rt (2 * bucket_count rt) I); try lia.
  - reflexivity.
  - apply pow2_double. apply (geo_pow2 rt G).
  - apply calloc_buckets_fail. exact Hf.
Qed.

(** The table [robin_table_put0] receives: [rt] itself, or [rt] rehashed
    into twice the buckets. *)
Lemma put_stage :
  must_grow rt = false \/ grow_ok avail rt = true ->
  exists rt1,
    robin_table_put avail rt k v =
      robin_table_put0 (probe_budget rt1) rt1 k (Z.of_nat (length k)) v /\
    table_inv rt1 /\ count rt1 < expand_at rt1 /\
    bucket_count rt1 = (if must_grow rt then 2 * bucket_count rt else bucket_count rt) /\
    init_buckets rt1 = init_buckets rt /\ seed rt1 = seed rt /\
    hash_func rt1 = hash_func rt /\ count rt1 = count rt /\
    forall k' v', holds rt1 k' v' <-> holds rt k' v'.
Proof.
  intros Hcase. destruct W as (I & Hload).
  pose proof (inv_geometry rt I) as G.
  pose proof (geo_big rt G) as Hbig. pose proof (geo_small rt G) as Hsmall.
  pose proof (WF_room rt W) as Hroom.
  unfold robin_table_put, must_grow in *.
  rewrite (assert_key_ok k Hk), bind_done.
  destruct (Z.leb_spec (expand_at rt) (count rt)) as [Hgrow | Hnogrow].
  - destruct Hcase as [Hc | Hok]; [discriminate|].
    rewrite put_new_count.
    destruct (robin_table_resize_ok avail rt (2 * bucket_count rt)
                (replicate (Z.to_nat (2 * bucket_count rt)) zero_bucket) I)
      as (rt1 & Hres & I1 & Hbc & Hin & Hsd & Hhf & Hc1 & Hh1); try lia.
    + apply pow2_double. apply (geo_pow2 rt G).
    + pose proof (geo_floor rt G). lia.
    + apply calloc_buckets_ok. exact Hok.
    + exists rt1. rewrite Hres, bind_done.
      split; [reflexivity|]. split; [exact I1|].
      split.
      * rewrite (geo_expand rt1 (inv_geometry rt1 I1)), Hbc, Hc1.
        rewrite (geo_expand rt G) in Hload.
        unfold RT_LOAD_FACTOR_PCT_MAX in *.
        assert (bucket_count rt * 75 / 100 < 2 * bucket_count rt * 75 / 100); [|lia].
        apply Z.div_lt_upper_bound; [lia|].
        pose proof (Z.mul_div_le (2 * bucket_count rt * 75) 100 ltac:(lia)).
        pose proof (Z.mod_pos_bound (2 * bucket_count rt * 75) 100 ltac:(lia)).
        pose proof (Z.div_mod (2 * bucket_count rt * 75) 100 ltac:(lia)).
        pose proof (Z.mul_div_le (bucket_count rt * 75) 100 ltac:(lia)).
        lia.
      * repeat (split; [assumption|]). exact Hh1.
  - exists rt. split; [reflexivity|]. split; [exact I|].
    split; [lia|]. repeat (split; [reflexivity|]). intros; reflexivity.
Qed.

Lemma robin_table_put_present v1 :
  must_grow rt = false \/ grow_ok avail rt = true ->
  holds rt k v1 ->
  exists rt',
    robin_table_put avail rt k v = Done (v1, rt') /\ WF rt' /\
    bucket_count rt' = (if must_grow rt then 2 * bucket_count rt else bucket_count rt) /\
    init_buckets rt' = init_buckets rt /\ seed rt' = seed rt /\
    hash_func rt' = hash_func rt /\ count rt' = count rt /\
    forall k' v', holds rt' k' v' <-> holds rt k' v'.
Proof.
  intros Hcase Hh.
  destruct (put_stage Hcase) as (rt1 & Hput & I1 & Hload1 & Hrest).
  destruct Hrest as (Hbc & Hin & Hsd & Hhf & Hc1 & Hh1).
  apply Hh1 in Hh. destruct Hh as (i & Hi & Hki & Hv).
  pose proof (geo_expand_lt rt1 (inv_geometry rt1 I1)) as Hlt.
  exists rt1. rewrite Hput.
  rewrite (robin_table_put0_present rt1 I1 k (probe_budget rt1) v i
             ltac:(unfold probe_budget; lia) Hi Hki).
  rewrite Hv. split; [reflexivity|]. split; [split; [exact I1 | lia]|].
  repeat (split; [assumption|]). exact Hh1.
Qed.

Lemma robin_table_put_absent :
  must_grow rt = false \/ grow_ok avail rt = true ->
  absent rt k ->
  exists rt',
    robin_table_put avail rt k v = Done (v, rt') /\ WF rt' /\
    bucket_count rt' = (if must_grow rt then 2 * bucket_count rt else bucket_count rt) /\
    init_buckets rt' = init_buckets rt /\ seed rt' = seed rt /\
    hash_func rt' = hash_func rt /\ count rt' = count rt + 1 /\
    forall k' v', holds rt' k' v' <-> holds rt k' v' \/ (k' = k /\ v' = v).
Proof.
  intros Hcase Hab.
  destruct (put_stage Hcase) as (rt1 & Hput & I1 & Hload1 & Hrest).
  destruct Hrest as (Hbc & Hin & Hsd & Hhf & Hc1 & Hh1).
  pose proof (geo_expand_lt rt1 (inv_geometry rt1 I1)) as Hlt.
  assert (Hab1 : absent rt1 k).
  { intros i Hi Hki. apply (absent_not_holds rt k (val (slot rt1 i)) Hab).
    apply Hh1. exists i. tauto. }
  destruct (robin_table_put0_absent rt1 I1 ltac:(lia) k Hk (probe_budget rt1) v
              ltac:(unfold probe_budget; lia) Hab1)
    as (rt' & Hrun & I' & Hfr & Hc' & Hh').
  destruct Hfr as (Hbc' & Hin' & _ & Hex' & _ & Hsd' & Hhf').
  exists rt'. rewrite Hput, Hrun.
  split; [reflexivity|]. split; [split; [exact I' | lia]|].
  split; [congruence|]. split; [congruence|]. split; [congruence|].
  split; [congruence|]. split; [lia|].
  intros k' v'. rewrite Hh', Hh1. reflexivity.
Qed.

End Put.

Section Del.

Variable rt : robin_table_t.
Hypothesis W : WF rt.
Variable k : key_t.
Hypothesis Hk : k <> [].
Variable avail : bool.

Lemma robin_table_del_absent :
  absent rt k -> robin_table_del avail rt k = Done (NULL, rt).
Proof.
  intros Hab. destruct W as (I & _). pose proof (WF_room rt W) as Hroom.
  unfold robin_table_del.
  rewrite (assert_key_ok k Hk), bind_done.
  rewrite (robin_table_get_bucket_absent rt I ltac:(lia) k Hk Hab), bind_done.
  reflexivity.
Qed.

Lemma robin_table_del_present v :
  holds rt k v ->
  exists rt',
    robin_table_del avail rt k = Done (v, rt') /\ WF rt' /\
    bucket_count rt' =
      (if must_shrink rt && shrink_ok avail rt
       then bucket_count rt / 2 else bucket_count rt) /\
    init_buckets rt' = init_buckets rt /\ seed rt' = seed rt /\
    hash_func rt' = hash_func rt /\ count rt' = count rt - 1 /\
    forall k' v', holds rt' k' v' <-> holds rt k' v' /\ k' <> k.
Proof.
  intros (i & Hi & Hki & Hv). destruct W as (I & Hload).
  pose proof (inv_geometry rt I) as G.
  pose proof (geo_big rt G) as Hbig. pose proof (geo_small rt G) as Hsmall.
  pose proof (WF_room rt W) as Hroom.
  unfold robin_table_del.
  rewrite (assert_key_ok k Hk), bind_done.
  rewrite (robin_table_get_bucket_present rt I k i Hi Hki), bind_done.
  fold (slot rt i). rewrite Hv.
  destruct (del_shift_found rt i k I ltac:(lia) Hi Hki)
    as (rt1 & Hrun & I1 & Hfr & Hc1 & Hh1 & _).
  rewrite Hrun, bind_done.
  destruct Hfr as (Hbc & Hin & _ & Hex & Hsh & Hsd & Hhf).
  rewrite Hin, Hbc, Hc1, Hsh. fold (must_shrink rt).
  destruct (must_shrink rt) eqn:Hms.
  - unfold must_shrink in Hms. apply andb_prop in Hms. destruct Hms as [Hlt Hle].
    apply Z.ltb_lt in Hlt. apply Z.leb_le in Hle.
    rewrite shiftr_1.
    destruct (pow2_half (bucket_count rt) (init_buckets rt)
                (geo_pow2 rt G) (geo_init_pow2 rt G) Hlt) as (Hp & Hfl & Hdbl).
    pose proof (geo_floor rt G) as Hfloor. unfold RT_BUCKET_COUNT_MIN in Hfloor.
    rewrite (geo_shrink rt G) in Hle. unfold RT_LOAD_FACTOR_PCT_MIN in Hle.
    set (hb := bucket_count rt / 2) in *.
    assert (Hq : bucket_count rt * 25 / 100 < hb).
    { apply Z.div_lt_upper_bound; lia. }
    cbn [andb]. unfold shrink_ok. fold hb.
    destruct (malloc_ok avail (hb * sizeof_bucket)) eqn:Hok.
    + destruct (robin_table_resize_ok avail rt1 hb
                  (replicate (Z.to_nat hb) zero_bucket) I1)
        as (rt2 & Hres & I2 & Hbc2 & Hin2 & Hsd2 & Hhf2 & Hc2 & Hh2); try lia; try assumption.
      * apply calloc_buckets_ok. exact Hok.
      * exists rt2. rewrite Hres, bind_done.
        split; [reflexivity|]. split.
        -- split; [exact I2|].
           rewrite (geo_expand rt2 (inv_geometry rt2 I2)), Hbc2, Hc2, Hc1.
           unfold RT_LOAD_FACTOR_PCT_MAX.
           assert (bucket_count rt * 25 / 100 <= hb * 75 / 100); [|lia].
           apply Z.div_le_mono; lia.
        -- split; [exact Hbc2|]. split; [congruence|]. split; [congruence|].
           split; [congruence|]. split; [lia|].
           intros k' v'. rewrite Hh2. apply Hh1.
    + rewrite (robin_table_resize_fail avail rt1 hb I1); try lia; try assumption.
      * rewrite bind_done. exists rt1.
        split; [reflexivity|]. split; [split; [exact I1 | lia]|].
        repeat (split; [first [assumption | lia]|]). exact Hh1.
      * apply calloc_buckets_fail. exact Hok.
  - cbn [andb]. exists rt1.
    split; [reflexivity|]. split; [split; [exact I1 | lia]|].
    repeat (split; [first [assumption | lia]|]). exact Hh1.
Qed.

End Del.

Lemma fresh_table_WF n init sd hf :
  (exists e, 0 <= e /\ n = 2 ^ e) -> (exists e, 0 <= e /\ init = 2 ^ e) ->
  RT_BUCKET_COUNT_MIN <= init <= n -> n * sizeof_bucket <= PTRDIFF_MAX ->
  WF (fresh_table n init sd hf).
Proof.
  intros Hp Hip Hfl Hfit.
  pose proof (fresh_table_inv n init sd hf Hp Hip Hfl Hfit) as I.
  split; [exact I|].
  rewrite (geo_expand _ (inv_geometry _ I)).
  cbn [fresh_table count bucket_count]. unfold RT_LOAD_FACTOR_PCT_MAX, RT_BUCKET_COUNT_MIN in *.
  apply Z.div_pos; lia.
Qed.

Lemma robin_table_clear_spec avail rt update_buckets :
  WF rt ->
  let r := robin_table_clear avail rt update_buckets in
  WF (snd r) /\
  init_buckets (snd r) = init_buckets rt /\ seed (snd r) = seed rt /\
  hash_func (snd r) = hash_func rt /\
  (fst r = false -> snd r = rt) /\
  (fst r = true ->
     count (snd r) = 0 /\ (forall k v, ~ holds (snd r) k v) /\
     bucket_count (snd r) = if update_buckets then init_buckets rt else bucket_count rt).
Proof.
  intros W r. destruct W as (I & Hload). pose proof (inv_geometry rt I) as G.
  pose proof (geo_floor rt G) as Hfl. pose proof (geo_fit rt G) as Hfit.
  pose proof (geo_big rt G) as Hbig.
  unfold robin_table_clear in r.
  destruct update_buckets.
  - destruct (malloc_ok avail (wrap64 (init_buckets rt * sizeof_bucket))) eqn:Hok;
      subst r; cbn [fst snd].
    + change (mk_table (replicate (Z.to_nat (init_buckets rt)) zero_bucket) 0
                (init_buckets rt) (init_buckets rt) (wrap64 (init_buckets rt - 1))
                (wrap64 (init_buckets rt * RT_LOAD_FACTOR_PCT_MAX) / 100)
                (wrap64 (init_buckets rt * RT_LOAD_FACTOR_PCT_MIN) / 100)
                (seed rt) (hash_func rt))
        with (fresh_table (init_buckets rt) (init_buckets rt) (seed rt) (hash_func rt)).
      split.
      * apply fresh_table_WF; try apply (geo_init_pow2 rt G).
        -- lia.
        -- unfold sizeof_bucket in *. lia.
      * repeat (split; [reflexivity|]). split; [discriminate|].
        intros _. split; [reflexivity|]. split; [|reflexivity].
        intros k v. apply fresh_table_empty.
    + split; [split; assumption|]. repeat (split; [reflexivity|]).
      discriminate.
  - subst r. cbn [fst snd].
    assert (Heq : set_count (set_buckets rt
                    (replicate (Z.to_nat (bucket_count rt)) zero_bucket)) 0
                  = fresh_table (bucket_count rt) (init_buckets rt) (seed rt) (hash_func rt)).
    { unfold set_count, set_buckets, fresh_table.
      cbn [buckets count bucket_count init_buckets mask expand_at shrink_at seed hash_func].
      assert (Hb : bucket_count rt * 40 < 2 ^ 63)
        by (unfold sizeof_bucket, PTRDIFF_MAX in *; lia).
      rewrite (geo_mask rt G), (geo_expand rt G), (geo_shrink rt G).
      unfold RT_LOAD_FACTOR_PCT_MAX, RT_LOAD_FACTOR_PCT_MIN.
      rewrite !wrap64_small by lia. reflexivity. }
    rewrite Heq. split.
    + apply fresh_table_WF; try assumption.
      * apply (geo_pow2 rt G).
      * apply (geo_init_pow2 rt G).
    + repeat (split; [reflexivity|]). split; [discriminate|].
      intros _. split; [reflexivity|]. split; [|reflexivity].
      intros k v. apply fresh_table_empty.
Qed.

Lemma robin_table_calc_bucket_count_pow2 n :
  exists e, 5 <= e /\ robin_table_calc_bucket_count n = 2 ^ e.
Proof.
  unfold robin_table_calc_bucket_count, RT_LOAD_FACTOR_PCT_MAX, RT_BUCKET_COUNT_MIN.
  set (q := wrap64 (n * 100) / 75).
  assert (Hq : 0 <= q < 2 ^ 63).
  { unfold q, wrap64.
    pose proof (Z.mod_pos_bound (n * 100) (2 ^ 64) ltac:(lia)) as Hm.
    split; [apply Z.div_pos; lia|].
    apply Z.div_lt_upper_bound; lia. }
  destruct (Z.ltb_spec q 32) as [Hlt | Hge].
  - exists 5. split; [lia | reflexivity].
  - rewrite robin_table_next_pow2_log2_up by lia.
    exists (Z.log2_up q). split; [|reflexivity].
    change 5 with (Z.log2_up 32). apply Z.log2_up_le_mono. exact Hge.
Qed.

Lemma robin_table_create_spec dflt avail_rt avail_bs n hf sd rt :
  robin_table_create dflt avail_rt avail_bs n hf sd = Some rt ->
  WF rt /\ count rt = 0 /\
  bucket_count rt = robin_table_calc_bucket_count n /\
  init_buckets rt = bucket_count rt /\ seed rt = sd /\
  hash_func rt = default dflt hf /\
  (forall i, slot rt i = zero_bucket) /\
  forall k v, ~ holds rt k v.
Proof.
  unfold robin_table_create.
  destruct avail_rt; cbn [negb]; [|discriminate].
  destruct (calloc_buckets avail_bs (robin_table_calc_bucket_count n)) as [bs|] eqn:Hc;
    [|discriminate].
  destruct (calloc_buckets_Some _ _ _ Hc) as (Hfit & ->).
  intros [= <-].
  change (mk_table (replicate (Z.to_nat (robin_table_calc_bucket_count n)) zero_bucket) 0
            (robin_table_calc_bucket_count n) (robin_table_calc_bucket_count n)
            (wrap64 (robin_table_calc_bucket_count n - 1))
            (wrap64 (robin_table_calc_bucket_count n * RT_LOAD_FACTOR_PCT_MAX) / 100)
            (wrap64 (robin_table_calc_bucket_count n * RT_LOAD_FACTOR_PCT_MIN) / 100)
            sd (match hf with Some h => h | None => dflt end))
    with (fresh_table (robin_table_calc_bucket_count n) (robin_table_calc_bucket_count n)
            sd (match hf with Some h => h | None => dflt end)).
  destruct (robin_table_calc_bucket_count_pow2 n) as (e & He & Hn).
  assert (Hp : exists e, 0 <= e /\ robin_table_calc_bucket_count n = 2 ^ e)
    by (exists e; split; [lia | exact Hn]).
  assert (H32 : 32 <= robin_table_calc_bucket_count n).
  { rewrite Hn. change 32 with (2 ^ 5). apply Z.pow_le_mono_r; lia. }
  split.
  - apply fresh_table_WF; try assumption. unfold RT_BUCKET_COUNT_MIN. lia.
  - do 4 (split; [reflexivity|]).
    split; [destruct hf; reflexivity|].
    split; [intros i; apply fresh_table_slot|].
    intros k v. apply fresh_table_empty.
Qed.

(** ** Representing a table by a finite map *)

Lemma rep_absent rt m k : rep rt m -> m !! k = None -> absent rt k.
Proof.
  intros Hr Hn i Hi Hk.
  assert (H : m !! k = Some (val (slot rt i))) by (apply Hr; exists i; tauto).
  congruence.
Qed.

Lemma rep_same rt rt' m :
  rep rt m -> (forall k v, holds rt' k v <-> holds rt k v) -> rep rt' m.
Proof.
  intros Hr Hh k v. split.
  - intros H. apply Hh, Hr, H.
  - intros H. apply Hr, Hh, H.
Qed.

Lemma rep_insert rt rt' m k v :
  rep rt m -> m !! k = None ->
  (forall k' v', holds rt' k' v' <-> holds rt k' v' \/ (k' = k /\ v' = v)) ->
  rep rt' (<[k := v]> m).
Proof.
  intros Hr Hn Hh k' v'. rewrite lookup_insert_Some. split.
  - intros [(<- & <-) | (Hne & Hl)]; apply Hh; [right; tauto | left; apply Hr; exact Hl].
  - intros H. apply Hh in H. destruct H as [Hl | (-> & ->)]; [right | left; tauto].
    apply Hr in Hl. split; [congruence | exact Hl].
Qed.

Lemma rep_delete rt rt' m k :
  rep rt m ->
  (forall k' v', holds rt' k' v' <-> holds rt k' v' /\ k' <> k) ->
  rep rt' (delete k m).
Proof.
  intros Hr Hh k' v'. rewrite lookup_delete_Some. split.
  - intros (Hne & Hl). apply Hh. split; [apply Hr; exact Hl | congruence].
  - intros H. apply Hh in H. destruct H as (Hl & Hne).
    split; [congruence | apply Hr; exact Hl].
Qed.

Lemma rep_empty rt : (forall k v, ~ holds rt k v) -> rep rt ∅.
Proof.
  intros He k v. rewrite lookup_empty. split; [discriminate|].
  intros H. exfalso. exact (He k v H).
Qed.

Lemma contents_Some bs k v :
  contents bs !! k = Some v -> exists b, b ∈ bs /\ key b = Some k /\ val b = v.
Proof.
  induction bs as [|b bs IH]; simpl.
  - rewrite lookup_empty. discriminate.
  - destruct (key b) as [kb|] eqn:Ekb.
    + rewrite lookup_insert_Some. intros [(<- & <-) | (_ & H)].
      * exists b. split; [left | tauto].
      * destruct (IH H) as (b' & Hin & Hb'). exists b'. split; [right; exact Hin | exact Hb'].
    + intros H. destruct (IH H) as (b' & Hin & Hb'). exists b'.
      split; [right; exact Hin | exact Hb'].
Qed.

Lemma contents_is_Some bs b k :
  b ∈ bs -> key b = Some k -> is_Some (contents bs !! k).
Proof.
  induction bs as [|b0 bs IH]; intros Hin Hk; [inversion Hin|].
  simpl. apply elem_of_cons in Hin. destruct Hin as [<- | Hin].
  - rewrite Hk. rewrite lookup_insert_eq. eauto.
  - destruct (key b0) as [k0|]; [|apply IH; assumption].
    destruct (decide (k0 = k)) as [-> | Hne].
    + rewrite lookup_insert_eq. eauto.
    + rewrite lookup_insert_ne by exact Hne. apply IH; assumption.
Qed.

Lemma elem_of_buckets rt b :
  geometry rt -> (b ∈ buckets rt <-> exists i, in_range rt i /\ slot rt i = b).
Proof.
  intros G. rewrite list_elem_of_lookup. split.
  - intros (i & Hi). exists (Z.of_nat i).
    pose proof (lookup_lt_Some _ _ _ Hi) as Hlt.
    split; [unfold in_range; rewrite <- (geo_len rt G); lia|].
    unfold slot. rewrite bucket_at_lookup, Nat2Z.id, Hi. reflexivity.
  - intros (i & Hi & Hs). exists (Z.to_nat i).
    unfold slot in Hs. rewrite bucket_at_lookup in Hs.
    destruct (buckets rt !! Z.to_nat i) as [b'|] eqn:E; [simpl in Hs; congruence|].
    apply lookup_ge_None in E. unfold in_range in Hi.
    pose proof (geo_len rt G). lia.
Qed.

Lemma rep_contents rt : table_inv rt -> rep rt (contents (buckets rt)).
Proof.
  intros I k v. pose proof (inv_geometry rt I) as G. split.
  - intros H. destruct (contents_Some _ _ _ H) as (b & Hin & Hk & Hv).
    apply (elem_of_buckets rt b G) in Hin. destruct Hin as (i & Hi & <-).
    exists i. tauto.
  - intros (i & Hi & Hk & Hv).
    assert (Hin : slot rt i ∈ buckets rt) by (apply (elem_of_buckets rt _ G); eauto).
    destruct (contents_is_Some _ _ _ Hin Hk) as (v' & Hv').
    destruct (contents_Some _ _ _ Hv') as (b & Hinb & Hkb & Hvb).
    apply (elem_of_buckets rt b G) in Hinb. destruct Hinb as (j & Hj & <-).
    assert (j = i) as -> by exact (inv_distinct rt I j i k Hj Hi Hkb Hk).
    congruence.
Qed.

Lemma sim_model_of rt : WF rt -> sim rt (model_of rt).
Proof.
  intros W. split; [exact W|]. split; [apply rep_contents, W|].
  repeat split.
Qed.

(** ** Each operation refines its model *)

Section Refinement.

Variable rt : robin_table_t.
Variable st : model.
Hypothesis S : sim rt st.
Variable k : key_t.
Hypothesis Hk : k <> [].

Lemma sim_must_grow : must_grow rt = model_must_grow st.
Proof.
  destruct S as ((I & _) & _ & Hc & Hb & _).
  unfold must_grow, model_must_grow.
  rewrite (geo_expand rt (inv_geometry rt I)), Hc, Hb. reflexivity.
Qed.

Lemma sim_must_shrink : must_shrink rt = model_must_shrink st.
Proof.
  destruct S as ((I & _) & _ & Hc & Hb & Hi).
  unfold must_shrink, model_must_shrink.
  rewrite (geo_shrink rt (inv_geometry rt I)), Hc, Hb, Hi. reflexivity.
Qed.

Lemma refine_get : robin_table_get rt k = Done (model_get st k).
Proof.
  destruct S as (W & Hr & _). pose proof (WF_room rt W) as Hroom.
  destruct W as (I & Hload). unfold model_get.
  destruct (m_map st !! k) as [v|] eqn:E.
  - apply (robin_table_get_present rt I k Hk). apply Hr. exact E.
  - apply (robin_table_get_absent rt I ltac:(lia) k Hk).
    apply (rep_absent rt (m_map st)); assumption.
Qed.

Lemma refine_put avail v :
  exists rt',
    robin_table_put avail rt k v = Done (fst (model_put avail st k v), rt') /\
    sim rt' (snd (model_put avail st k v)) /\
    hash_func rt' = hash_func rt /\ seed rt' = seed rt.
Proof.
  pose proof sim_must_grow as Hmg.
  destruct S as (W & Hr & Hc & Hb & Hi).
  unfold model_put. rewrite <- Hmg, <- Hb. fold (grow_ok avail rt).
  destruct (must_grow rt && negb (grow_ok avail rt)) eqn:Hfail.
  - apply andb_prop in Hfail. destruct Hfail as [Hg Hn].
    apply negb_true_iff in Hn.
    exists rt. rewrite (robin_table_put_grow_fail rt W k Hk avail v Hg Hn).
    split; [reflexivity|]. split; [exact S|]. split; reflexivity.
  - assert (Hcase : must_grow rt = false \/ grow_ok avail rt = true).
    { destruct (must_grow rt); [right | left; reflexivity].
      destruct (grow_ok avail rt); [reflexivity | discriminate]. }
    destruct (m_map st !! k) as [v1|] eqn:E.
    + destruct (robin_table_put_present rt W k Hk avail v v1 Hcase (proj1 (Hr k v1) E))
        as (rt' & Hput & W' & Hbc & Hin & Hsd & Hhf & Hc' & Hh').
      exists rt'. cbn [fst snd]. split; [exact Hput|].
      split; [|split; assumption].
      split; [exact W'|]. split; [exact (rep_same rt rt' _ Hr Hh')|].
      cbn [m_count m_buckets m_init m_map]. repeat split; congruence.
    + destruct (robin_table_put_absent rt W k Hk avail v Hcase
                  (rep_absent rt _ k Hr E))
        as (rt' & Hput & W' & Hbc & Hin & Hsd & Hhf & Hc' & Hh').
      exists rt'. cbn [fst snd]. split; [exact Hput|].
      split; [|split; assumption].
      split; [exact W'|]. split; [exact (rep_insert rt rt' _ k v Hr E Hh')|].
      cbn [m_count m_buckets m_init m_map]. repeat split; congruence.
Qed.

Lemma refine_del avail :
  exists rt',
    robin_table_del avail rt k = Done (fst (model_del avail st k), rt') /\
    sim rt' (snd (model_del avail st k)) /\
    hash_func rt' = hash_func rt /\ seed rt' = seed rt.
Proof.
  pose proof sim_must_shrink as Hms.
  destruct S as (W & Hr & Hc & Hb & Hi).
  unfold model_del.
  destruct (m_map st !! k) as [v|] eqn:E.
  - destruct (robin_table_del_present rt W k Hk avail v (proj1 (Hr k v) E))
      as (rt' & Hdel & W' & Hbc & Hin & Hsd & Hhf & Hc' & Hh').
    exists rt'. cbn [fst snd]. split; [exact Hdel|].
    split; [|split; assumption].
    split; [exact W'|]. split; [exact (rep_delete rt rt' _ k Hr Hh')|].
    cbn [m_count m_buckets m_init m_map].
    rewrite <- Hms, <- Hb. fold (shrink_ok avail rt).
    repeat split; congruence.
  - exists rt. rewrite (robin_table_del_absent rt W k Hk avail (rep_absent rt _ k Hr E)).
    split; [reflexivity|]. split; [exact S|]. split; reflexivity.
Qed.

End Refinement.

(** ** The probe budget is never the limit

    A loop that finishes within some budget finishes with the same result
    within any larger one. *)

Lemma get_bucket_loop_fuel_mono fuel : forall fuel' rt h k kl idx p r,
  (fuel <= fuel')%nat ->
  get_bucket_loop fuel rt h k kl idx p = Done r ->
  get_bucket_loop fuel' rt h k kl idx p = Done r.
Proof.
  induction fuel as [|fuel IH]; intros fuel' rt h k kl idx p r Hle; [discriminate|].
  destruct fuel' as [|fuel']; [lia|].
  rewrite !get_bucket_loop_S.
  destruct (key_matches (slot rt idx) h k kl); [tauto|].
  destruct (is_null (key (slot rt idx)) || (psl (slot rt idx) <? p)); [tauto|].
  apply IH. lia.
Qed.

Lemma put0_loop_fuel_mono fuel : forall fuel' rt h k kl v idx entry r,
  (fuel <= fuel')%nat ->
  put0_loop fuel rt h k kl v idx entry = Done r ->
  put0_loop fuel' rt h k kl v idx entry = Done r.
Proof.
  induction fuel as [|fuel IH]; intros fuel' rt h k kl v idx entry r Hle; [discriminate|].
  destruct fuel' as [|fuel']; [lia|].
  rewrite !put0_loop_S.
  destruct (is_null (key (slot rt idx))); [tauto|].
  destruct (key_matches (slot rt idx) h k kl); [tauto|].
  destruct (psl (slot rt idx) <? psl entry); apply IH; lia.
Qed.

Lemma del_shift_fuel_mono fuel : forall fuel' rt bucket idx r,
  (fuel <= fuel')%nat ->
  del_shift fuel rt bucket idx = Done r ->
  del_shift fuel' rt bucket idx = Done r.
Proof.
  induction fuel as [|fuel IH]; intros fuel' rt bucket idx r Hle; [discriminate|].
  destruct fuel' as [|fuel']; [lia|].
  rewrite !del_shift_S. cbv zeta.
  destruct (is_null (key (slot rt (Z.land (wrap64 (idx + 1)) (mask rt)))) ||
            (psl (slot rt (Z.land (wrap64 (idx + 1)) (mask rt))) =? 0)); [tauto|].
  apply IH. lia.
Qed.

(** ** Runs refine model runs *)

Lemma refine_step rt st o avail :
  sim rt st -> op_key o <> [] ->
  exists rt',
    step rt o avail = Done (fst (model_step st o avail), rt') /\
    sim rt' (snd (model_step st o avail)) /\
    hash_func rt' = hash_func rt /\ seed rt' = seed rt.
Proof.
  intros S Hk. destruct o as [k v | k | k]; cbn [op_key step model_step] in *.
  - apply refine_put; assumption.
  - exists rt. rewrite (refine_get rt st S k Hk), bind_done.
    split; [reflexivity|]. split; [exact S|]. split; reflexivity.
  - apply refine_del; assumption.
Qed.

Lemma refine_run ops : forall rt st,
  sim rt st -> keys_ok ops ->
  exists rt',
    run rt ops = Done (fst (model_run st ops), rt') /\
    sim rt' (snd (model_run st ops)) /\
    hash_func rt' = hash_func rt /\ seed rt' = seed rt.
Proof.
  induction ops as [|[o avail] ops IH]; intros rt st S Hk.
  - exists rt. split; [reflexivity|]. split; [exact S|]. split; reflexivity.
  - apply Forall_cons in Hk. destruct Hk as [Hk1 Hk].
    destruct (refine_step rt st o avail S Hk1) as (rt1 & Hs & S1 & Hhf1 & Hsd1).
    destruct (IH rt1 _ S1 Hk) as (rt2 & Hr & S2 & Hhf2 & Hsd2).
    exists rt2. cbn [run model_run]. rewrite Hs, bind_done.
    rewrite Hr, bind_done. cbv zeta. cbn [fst snd].
    destruct S1 as (_ & _ & Hc1 & _). unfold robin_table_count. rewrite Hc1.
    split; [reflexivity|]. split; [exact S2|]. split; congruence.
Qed.

Lemma model_step_other st o avail k :
  op_key o <> k -> m_map (snd (model_step st o avail)) !! k = m_map st !! k.
Proof.
  intros Hne. destruct o as [k0 v | k0 | k0]; cbn [op_key model_step] in *.
  - unfold model_put.
    destruct (model_must_grow st && negb (malloc_ok avail (2 * m_buckets st * sizeof_bucket)));
      [reflexivity|].
    destruct (m_map st !! k0); cbn [snd m_map]; [reflexivity|].
    apply lookup_insert_ne. exact Hne.
  - reflexivity.
  - unfold model_del.
    destruct (m_map st !! k0); cbn [snd m_map]; [|reflexivity].
    apply lookup_delete_ne. exact Hne.
Qed.

Lemma model_run_other ops : forall st k,
  Forall (fun oa => op_key (fst oa) <> k) ops ->
  m_map (snd (model_run st ops)) !! k = m_map st !! k.
Proof.
  induction ops as [|[o avail] ops IH]; intros st k Hne; [reflexivity|].
  apply Forall_cons in Hne. destruct Hne as [Hne1 Hne].
  cbn [model_run]. cbv zeta. cbn [snd].
  rewrite (IH _ k Hne). apply model_step_other. exact Hne1.
Qed.

(** ** Reachable tables are well formed *)

Lemma put_returns_key_ok avail rt k v r :
  robin_table_put avail rt k v = Done r -> k <> [].
Proof.
  intros H ->. unfold robin_table_put in H. simpl in H. discriminate.
Qed.

Lemma del_returns_key_ok avail rt k r :
  robin_table_del avail rt k = Done r -> k <> [].
Proof.
  intros H ->. unfold robin_table_del in H. simpl in H. discriminate.
Qed.

Lemma reachable_WF dflt rt : reachable dflt rt -> WF rt.
Proof.
  induction 1 as [a1 a2 n hf sd rt Hc
                 | rt avail k v r rt' _ IH Hput
                 | rt k r _ IH _
                 | rt avail k r rt' _ IH Hdel
                 | rt avail upd ok rt' _ IH Hclear].
  - apply (robin_table_create_spec _ _ _ _ _ _ _ Hc).
  - pose proof (put_returns_key_ok _ _ _ _ _ Hput) as Hk.
    destruct (refine_put rt _ (sim_model_of rt IH) k Hk avail v) as (rt'' & Hp & S' & _).
    rewrite Hp in Hput. injection Hput as _ <-. apply S'.
  - exact IH.
  - pose proof (del_returns_key_ok _ _ _ _ Hdel) as Hk.
    destruct (refine_del rt _ (sim_model_of rt IH) k Hk avail) as (rt'' & Hp & S' & _).
    rewrite Hp in Hdel. injection Hdel as _ <-. apply S'.
  - pose proof (robin_table_clear_spec avail rt upd IH) as Hs.
    cbv zeta in Hs. rewrite Hclear in Hs. apply Hs.
Qed.

(** ** Sample tables are well formed *)

Lemma first_byte_hash_contract : hash_contract first_byte_hash.
Proof. intros k l s. unfold first_byte_hash, wrap64. apply Z.mod_pos_bound. lia. Qed.

Lemma length_hash_contract : hash_contract length_hash.
Proof. intros k l s. unfold length_hash, wrap64. apply Z.mod_pos_bound. lia. Qed.

Lemma keys_ok_puts_upto n : keys_ok (puts_upto n).
Proof.
  unfold keys_ok, puts_upto. apply Forall_forall. intros x Hx.
  apply list_elem_of_In, in_map_iff in Hx. destruct Hx as (i & <- & _). discriminate.
Qed.

(** Sample tables exist and are well formed.  Only first-order data is
    ever evaluated: a table carries its hash function, whose normal form is
    of no interest. *)
Lemma table_after_WF hf n ops d :
  keys_ok ops ->
  malloc_ok true (robin_table_calc_bucket_count n * sizeof_bucket) = true ->
  table_after hf n ops = Some (default d (table_after hf n ops)) /\
  WF (default d (table_after hf n ops)).
Proof.
  intros Hk Hok. unfold table_after.
  destruct (robin_table_create hf true true n (Some hf) 0) as [rt0|] eqn:Hc.
  - pose proof (robin_table_create_spec _ _ _ _ _ _ _ Hc) as (W & _).
    destruct (refine_run ops rt0 _ (sim_model_of rt0 W) Hk) as (rt' & Hr & S' & _).
    rewrite Hr. split; [reflexivity | apply S'].
  - exfalso. unfold robin_table_create in Hc. cbn [negb] in Hc.
    rewrite (calloc_buckets_ok _ _ Hok) in Hc. discriminate.
Qed.

Lemma empty_table_WF : WF empty_table.
Proof. apply table_after_WF; [constructor | vm_compute; reflexivity]. Qed.

Lemma full_table_WF : WF full_table.
Proof. apply table_after_WF; [apply keys_ok_puts_upto | vm_compute; reflexivity]. Qed.

Lemma chain_table_WF : WF chain_table.
Proof.
  apply table_after_WF; [|vm_compute; reflexivity].
  unfold keys_ok. repeat (apply List.Forall_cons; [discriminate|]). apply List.Forall_nil.
Qed.

Lemma robin_table_create_ok dflt n hf sd :
  malloc_ok true (robin_table_calc_bucket_count n * sizeof_bucket) = true ->
  robin_table_create dflt true true n hf sd
  = Some (fresh_table (robin_table_calc_bucket_count n) (robin_table_calc_bucket_count n)
            sd (default dflt hf)).
Proof.
  intros Hok. unfold robin_table_create. cbn [negb].
  rewrite (calloc_buckets_ok _ _ Hok). destruct hf; reflexivity.
Qed.

Lemma table_after_created hf n ops rt :
  table_after hf n ops = Some rt ->
  exists rt0 obs,
    robin_table_create hf true true n (Some hf) 0 = Some rt0 /\
    run rt0 ops = Done (obs, rt).
Proof.
  unfold table_after.
  destruct (robin_table_create hf true true n (Some hf) 0) as [rt0|]; [|discriminate].
  destruct (run rt0 ops) as [[obs rt']| |] eqn:Hr; try discriminate.
  intros [= <-]. exists rt0, obs. split; [reflexivity | exact Hr].
Qed.

Lemma run_reachable dflt ops : forall rt obs rt',
  reachable dflt rt -> run rt ops = Done (obs, rt') -> reachable dflt rt'.
Proof.
  induction ops as [|[o avail] ops IH]; intros rt obs rt' Hr Hrun.
  - injection Hrun as _ <-. exact Hr.
  - cbn [run] in Hrun.
    destruct (step rt o avail) as [[r rt1]| |] eqn:Hs; try discriminate.
    rewrite bind_done in Hrun.
    destruct (run rt1 ops) as [[obs1 rt2]| |] eqn:Hr1; try discriminate.
    rewrite bind_done in Hrun. injection Hrun as _ <-.
    apply (IH rt1 obs1 rt2); [|exact Hr1].
    destruct o as [k v | k | k]; cbn [step] in Hs.
    + exact (reach_put dflt rt avail k v r rt1 Hr Hs).
    + destruct (robin_table_get rt k) as [v| |] eqn:Hg; try discriminate.
      rewrite bind_done in Hs. injection Hs as _ <-.
      exact (reach_get dflt rt k v Hr Hg).
    + exact (reach_del dflt rt avail k r rt1 Hr Hs).
Qed.

Lemma table_after_reachable hf n ops rt :
  table_after hf n ops = Some rt -> reachable hf rt.
Proof.
  intros H. destruct (table_after_created hf n ops rt H) as (rt0 & obs & Hc & Hr).
  apply (run_reachable hf ops rt0 obs rt); [|exact Hr].
  exact (reach_create hf true true n (Some hf) 0 rt0 Hc).
Qed.

Lemma holds_functional rt k v v' :
  table_inv rt -> holds rt k v -> holds rt k v' -> v = v'.
Proof.
  intros I (i & Hi & Hk & Hv) (j & Hj & Hk' & Hv').
  assert (i = j) as -> by exact (inv_distinct rt I i j k Hi Hj Hk Hk').
  congruence.
Qed.

(** * The claims *)

(** C7 (growth-failure atomicity of put).  On a well-formed table whose
    entry count has reached the growth threshold, when the allocation of
    the doubled bucket array fails, [robin_table_put] returns [NULL] and the
    table it leaves is the table it was given: buckets, count, bucket
    count, mask and thresholds are all unchanged. *)
Theorem put_growth_failure_is_atomic rt k v avail :
  WF rt -> k <> [] ->
  expand_at rt <= count rt ->
  calloc_buckets avail (wrap64 (Z.shiftl (bucket_count rt) 1)) = None ->
  robin_table_put avail rt k v = Done (NULL, rt).
Proof.
  intros W Hk Hgrow Hfail.
  apply (robin_table_put_grow_fail rt W k Hk avail v).
  - unfold must_grow. apply Z.leb_le. exact Hgrow.
  - rewrite (put_new_count rt W) in Hfail. unfold grow_ok.
    unfold calloc_buckets in Hfail.
    destruct (malloc_ok avail (2 * bucket_count rt * sizeof_bucket)); [discriminate | reflexivity].
Qed.

Lemma put_growth_failure_is_atomic_witness :
  WF full_table /\ [25] <> ([] : key_t) /\
  expand_at full_table <= count full_table /\
  calloc_buckets false (wrap64 (Z.shiftl (bucket_count full_table) 1)) = None /\
  robin_table_put false full_table [25] 35 = Done (NULL, full_table).
Proof.
  assert (H1 : WF full_table) by exact full_table_WF.
  assert (H2 : [25] <> ([] : key_t)) by discriminate.
  assert (H3 : expand_at full_table <= count full_table)
    by (apply Z.leb_le; vm_compute; reflexivity).
  assert (H4 : calloc_buckets false (wrap64 (Z.shiftl (bucket_count full_table) 1)) = None)
    by reflexivity.
  exact (conj H1 (conj H2 (conj H3 (conj H4
           (put_growth_failure_is_atomic full_table [25] 35 false H1 H2 H3 H4))))).
Defined.




(** C4 (PSL invariant).  In every table reachable through the public
    interface (create, put, get, del, clear), each occupied slot at index
    [i] caches the hash of its key and satisfies
    [psl = (i - (hash & mask)) mod bucket_count]. *)
Theorem psl_is_distance_from_ideal dflt rt i k :
  reachable dflt rt ->
  0 <= i < bucket_count rt ->
  key (bucket_at (buckets rt) i) = Some k ->
  hash (bucket_at (buckets rt) i) = hash_func rt k (Z.of_nat (length k)) (seed rt) /\
  psl (bucket_at (buckets rt) i)
  = (i - Z.land (hash (bucket_at (buckets rt) i)) (mask rt)) mod bucket_count rt.
Proof.
  intros Hr Hi Hk. pose proof (reachable_WF dflt rt Hr) as (I & _).
  pose proof (geo_big rt (inv_geometry rt I)) as Hbig.
  destruct (inv_entries rt I i Hi k Hk) as (_ & Hl & Hh & Hp & Hpos).
  fold (slot rt i). split; [rewrite Hh, Hl; reflexivity|].
  remember (slot rt i) as b eqn:Eb. clear Eb.
  rewrite <- Hpos.
  rewrite Zminus_mod_idemp_l.
  replace (Z.land (hash b) (mask rt) + psl b - Z.land (hash b) (mask rt))
    with (psl b) by lia.
  symmetry. apply Z.mod_small. exact Hp.
Qed.

Lemma chain_table_after :
  table_after first_byte_hash 0 [(OpPut [1] 11, true); (OpPut [33] 12, true)]
  = Some chain_table.
Proof.
  apply table_after_WF; [|vm_compute; reflexivity].
  unfold keys_ok. repeat (apply List.Forall_cons; [discriminate|]). apply List.Forall_nil.
Qed.

Lemma psl_is_distance_from_ideal_witness :
  reachable first_byte_hash chain_table /\
  0 <= 2 < bucket_count chain_table /\
  key (bucket_at (buckets chain_table) 2) = Some [33] /\
  hash (bucket_at (buckets chain_table) 2)
  = hash_func chain_table [33] (Z.of_nat (length [33])) (seed chain_table) /\
  psl (bucket_at (buckets chain_table) 2)
  = (2 - Z.land (hash (bucket_at (buckets chain_table) 2)) (mask chain_table))
    mod bucket_count chain_table.
Proof.
  assert (H1 : reachable first_byte_hash chain_table)
    by exact (table_after_reachable _ _ _ _ chain_table_after).
  assert (H2 : 0 <= 2 < bucket_count chain_table)
    by (split; [apply Z.leb_le | apply Z.ltb_lt]; vm_compute; reflexivity).
  assert (H3 : key (bucket_at (buckets chain_table) 2) = Some [33])
    by (vm_compute; reflexivity).
  exact (conj H1 (conj H2 (conj H3
           (psl_is_distance_from_ideal first_byte_hash chain_table 2 [33] H1 H2 H3)))).
Defined.

(** C3 (deletion completeness).  On a well-formed table that holds [k]
    with value [v], [robin_table_del] returns [v], after which [get(k)]
    reports absent (returns [NULL], no slot holds [k]) and the count is one
    less; on a table that does not hold [k] it returns [NULL] and leaves
    the table, hence the count, unchanged. *)
Theorem del_removes_exactly_one rt k avail :
  WF rt -> k <> [] ->
  (forall v, holds rt k v ->
     exists rt',
       robin_table_del avail rt k = Done (v, rt') /\
       robin_table_get rt' k = Done NULL /\ absent rt' k /\
       robin_table_count rt' = robin_table_count rt - 1) /\
  (absent rt k -> robin_table_del avail rt k = Done (NULL, rt)).
Proof.
  intros W Hk. split.
  - intros v Hh.
    destruct (robin_table_del_present rt W k Hk avail v Hh)
      as (rt' & Hdel & W' & _ & _ & _ & _ & Hc & Hh').
    assert (Hab : absent rt' k).
    { intros i Hi Hki.
      destruct (proj1 (Hh' k (val (slot rt' i)))) as (_ & Hne); [exists i; tauto|].
      apply Hne. reflexivity. }
    exists rt'. split; [exact Hdel|]. split; [|split; [exact Hab | exact Hc]].
    pose proof (WF_room rt' W') as Hroom. destruct W' as (I' & _).
    apply (robin_table_get_absent rt' I' ltac:(lia) k Hk Hab).
  - apply robin_table_del_absent; assumption.
Qed.

Lemma del_removes_exactly_one_witness :
  WF chain_table /\ [1] <> ([] : key_t) /\ holds chain_table [1] 11 /\
  (exists rt',
     robin_table_del true chain_table [1] = Done (11, rt') /\
     robin_table_get rt' [1] = Done NULL /\ absent rt' [1] /\
     robin_table_count rt' = robin_table_count chain_table - 1) /\
  [2] <> ([] : key_t) /\ absent chain_table [2] /\
  robin_table_del true chain_table [2] = Done (NULL, chain_table).
Proof.
  assert (H1 : WF chain_table) by exact chain_table_WF.
  assert (H2 : [1] <> ([] : key_t)) by discriminate.
  assert (H3 : holds chain_table [1] 11).
  { apply (rep_contents chain_table (proj1 H1)). vm_compute. reflexivity. }
  assert (H4 : [2] <> ([] : key_t)) by discriminate.
  assert (H5 : absent chain_table [2]).
  { apply (rep_absent chain_table _ [2] (rep_contents chain_table (proj1 H1))).
    vm_compute. reflexivity. }
  exact (conj H1 (conj H2 (conj H3
           (conj (proj1 (del_removes_exactly_one chain_table [1] true H1 H2) 11 H3)
              (conj H4 (conj H5
                 (proj2 (del_removes_exactly_one chain_table [2] true H1 H4) H5))))))).
Defined.

Lemma model_put_fresh avail st k v :
  m_map st !! k = None ->
  fst (model_put avail st k v) = v ->
  model_get (snd (model_put avail st k v)) k = v.
Proof.
  unfold model_put, model_get.
  destruct (m_map st !! k) as [v0|] eqn:E; [discriminate|]. intros _.
  destruct (model_must_grow st && negb (malloc_ok avail (2 * m_buckets st * sizeof_bucket)));
    cbn [fst snd m_map].
  - intros <-. rewrite E. reflexivity.
  - intros _. rewrite lookup_insert_eq. reflexivity.
Qed.

(** C1 (round trip).  Let [k] be absent from a well-formed table and let
    [robin_table_put] of [k] with [v] return [v].  Then after any further
    run of put, get and del calls on other keys, whatever the allocator
    answers during them, [robin_table_get] of [k] returns [v]. *)
Theorem put_then_get_round_trip rt k v avail rt1 ops :
  WF rt -> k <> [] -> absent rt k ->
  robin_table_put avail rt k v = Done (v, rt1) ->
  keys_ok ops ->
  Forall (fun oa => op_key (fst oa) <> k) ops ->
  exists obs rt2,
    run rt1 ops = Done (obs, rt2) /\ robin_table_get rt2 k = Done v.
Proof.
  intros W Hk Hab Hput Hkeys Hother.
  pose proof (sim_model_of rt W) as S.
  assert (Hnone : m_map (model_of rt) !! k = None).
  { destruct (m_map (model_of rt) !! k) as [v0|] eqn:E; [|reflexivity].
    exfalso. apply (absent_not_holds rt k v0 Hab). apply S. exact E. }
  destruct (refine_put rt _ S k Hk avail v) as (rt1' & Hp & S1 & _).
  rewrite Hp in Hput. injection Hput as Hv <-.
  destruct (refine_run ops rt1' _ S1 Hkeys) as (rt2 & Hrun & S2 & _).
  exists (fst (model_run (snd (model_put avail (model_of rt) k v)) ops)), rt2.
  split; [exact Hrun|].
  rewrite (refine_get rt2 _ S2 k Hk). f_equal.
  unfold model_get. rewrite (model_run_other ops _ k Hother).
  exact (model_put_fresh avail (model_of rt) k v Hnone Hv).
Qed.

Lemma put_then_get_round_trip_witness :
  exists rt1,
    WF full_table /\ [27] <> ([] : key_t) /\ absent full_table [27] /\
    robin_table_put true full_table [27] 70 = Done (70, rt1) /\
    keys_ok other_key_ops /\
    Forall (fun oa => op_key (fst oa) <> [27]) other_key_ops /\
    exists obs rt2,
      run rt1 other_key_ops = Done (obs, rt2) /\ robin_table_get rt2 [27] = Done 70.
Proof.
  assert (H1 : WF full_table) by exact full_table_WF.
  assert (H2 : [27] <> ([] : key_t)) by discriminate.
  assert (H3 : absent full_table [27]).
  { apply (rep_absent full_table _ [27] (rep_contents full_table (proj1 H1))).
    vm_compute. reflexivity. }
  destruct (robin_table_put_absent full_table H1 [27] H2 true 70
              (or_intror eq_refl) H3) as (rt1 & H4 & _).
  assert (H5 : keys_ok other_key_ops).
  { unfold keys_ok, other_key_ops.
    repeat (apply List.Forall_cons; [discriminate|]). apply List.Forall_nil. }
  assert (H6 : Forall (fun oa => op_key (fst oa) <> [27]) other_key_ops).
  { unfold other_key_ops.
    repeat (apply List.Forall_cons; [discriminate|]). apply List.Forall_nil. }
  exists rt1.
  exact (conj H1 (conj H2 (conj H3 (conj H4 (conj H5 (conj H6
           (put_then_get_round_trip full_table [27] 70 true rt1 other_key_ops
              H1 H2 H3 H4 H5 H6))))))).
Defined.

(** C2 as stated fails when the duplicate put needs growth and the
    allocation fails: key [[1]] is present in [full_table] with value 11,
    yet [put([1], 99)] returns [NULL], not 11. *)
Lemma put_duplicate_returns_stored_counterexample :
  WF full_table /\ holds full_table [1] 11 /\
  robin_table_put false full_table [1] 99 = Done (NULL, full_table) /\
  NULL <> 11.
Proof.
  split; [exact full_table_WF|]. split; [|split; [|discriminate]].
  - apply (rep_contents full_table (proj1 full_table_WF)). vm_compute. reflexivity.
  - apply (robin_table_put_grow_fail full_table full_table_WF [1]); [discriminate | |].
    + vm_compute. reflexivity.
    + reflexivity.
Qed.

(** C2, amended (no overwrite, first writer wins).  On a well-formed table
    that holds [k] with value [v1], [robin_table_put] of [k] with any [v2]
    leaves [v1] stored for [k] and [get(k) = v1], also when it grows the
    table first; it returns [v1] unless growth is required and its
    allocation fails, in which case it returns [NULL] and the table is
    unchanged. *)
Theorem put_duplicate_keeps_first_value rt k v1 v2 avail :
  WF rt -> k <> [] -> holds rt k v1 ->
  exists r rt',
    robin_table_put avail rt k v2 = Done (r, rt') /\
    r = (if must_grow rt && negb (grow_ok avail rt) then NULL else v1) /\
    robin_table_get rt' k = Done v1 /\
    (forall v, holds rt' k v <-> v = v1) /\
    robin_table_count rt' = robin_table_count rt /\
    (must_grow rt && negb (grow_ok avail rt) = true -> rt' = rt).
Proof.
  intros W Hk Hh.
  assert (Hget : forall rt', WF rt' -> holds rt' k v1 -> robin_table_get rt' k = Done v1).
  { intros rt' (I' & _) Hh'. apply (robin_table_get_present rt' I' k Hk v1 Hh'). }
  assert (Hfun : forall rt', WF rt' -> holds rt' k v1 -> forall v, holds rt' k v <-> v = v1).
  { intros rt' (I' & _) Hh' v. split.
    - intros Hv. exact (holds_functional rt' k v v1 I' Hv Hh').
    - intros ->. exact Hh'. }
  destruct (must_grow rt && negb (grow_ok avail rt)) eqn:Hfail.
  - apply andb_prop in Hfail. destruct Hfail as [Hg Hn]. apply negb_true_iff in Hn.
    exists NULL, rt.
    split; [exact (robin_table_put_grow_fail rt W k Hk avail v2 Hg Hn)|].
    split; [reflexivity|]. split; [exact (Hget rt W Hh)|].
    split; [exact (Hfun rt W Hh)|]. split; reflexivity.
  - assert (Hcase : must_grow rt = false \/ grow_ok avail rt = true).
    { destruct (must_grow rt); [right | left; reflexivity].
      destruct (grow_ok avail rt); [reflexivity | discriminate]. }
    destruct (robin_table_put_present rt W k Hk avail v2 v1 Hcase Hh)
      as (rt' & Hput & W' & _ & _ & _ & _ & Hc & Hh').
    assert (Hh1 : holds rt' k v1) by (apply Hh'; exact Hh).
    exists v1, rt'. split; [exact Hput|]. split; [reflexivity|].
    split; [exact (Hget rt' W' Hh1)|]. split; [exact (Hfun rt' W' Hh1)|].
    split; [exact Hc | discriminate].
Qed.

(** The duplicate put on the full table, with the growth granted and with
    the growth refused. *)
Lemma put_duplicate_keeps_first_value_witness :
  WF full_table /\ [1] <> ([] : key_t) /\ holds full_table [1] 11 /\
  must_grow full_table && negb (grow_ok true full_table) = false /\
  must_grow full_table && negb (grow_ok false full_table) = true /\
  (exists r rt',
     robin_table_put true full_table [1] 99 = Done (r, rt') /\
     r = (if must_grow full_table && negb (grow_ok true full_table) then NULL else 11) /\
     robin_table_get rt' [1] = Done 11 /\
     (forall v, holds rt' [1] v <-> v = 11) /\
     robin_table_count rt' = robin_table_count full_table /\
     (must_grow full_table && negb (grow_ok true full_table) = true -> rt' = full_table)) /\
  (exists r rt',
     robin_table_put false full_table [1] 99 = Done (r, rt') /\
     r = (if must_grow full_table && negb (grow_ok false full_table) then NULL else 11) /\
     robin_table_get rt' [1] = Done 11 /\
     (forall v, holds rt' [1] v <-> v = 11) /\
     robin_table_count rt' = robin_table_count full_table /\
     (must_grow full_table && negb (grow_ok false full_table) = true -> rt' = full_table)).
Proof.
  assert (H1 : WF full_table) by exact full_table_WF.
  assert (H2 : [1] <> ([] : key_t)) by discriminate.
  assert (H3 : holds full_table [1] 11).
  { apply (rep_contents full_table (proj1 H1)). vm_compute. reflexivity. }
  assert (H4 : must_grow full_table && negb (grow_ok true full_table) = false)
    by (vm_compute; reflexivity).
  assert (H5 : must_grow full_table && negb (grow_ok false full_table) = true)
    by (vm_compute; reflexivity).
  exact (conj H1 (conj H2 (conj H3 (conj H4 (conj H5
           (conj (put_duplicate_keeps_first_value full_table [1] 11 99 true H1 H2 H3)
                 (put_duplicate_keeps_first_value full_table [1] 11 99 false H1 H2 H3))))))).
Defined.

(** C9 (hash-strategy substitutability).  Two tables created for the same
    expected count, each with its own hash function (meeting the hash
    contract) and seed, and given the same run of put, get and del calls
    with the same allocator answers, both complete the run and produce the
    same returned value and the same count at every step. *)
Theorem hash_strategy_is_unobservable dflt n a1 a2 a1' a2' h1 h2 s1 s2 rt1 rt2 ops :
  hash_contract h1 -> hash_contract h2 ->
  keys_ok ops ->
  robin_table_create dflt a1 a2 n (Some h1) s1 = Some rt1 ->
  robin_table_create dflt a1' a2' n (Some h2) s2 = Some rt2 ->
  exists obs rt1' rt2',
    run rt1 ops = Done (obs, rt1') /\ run rt2 ops = Done (obs, rt2').
Proof.
  intros _ _ Hkeys Hc1 Hc2.
  pose proof (robin_table_create_spec _ _ _ _ _ _ _ Hc1) as (W1 & C1 & B1 & I1 & _ & _ & _ & E1).
  pose proof (robin_table_create_spec _ _ _ _ _ _ _ Hc2) as (W2 & C2 & B2 & I2 & _ & _ & _ & E2).
  set (st := mk_model ∅ 0 (robin_table_calc_bucket_count n) (robin_table_calc_bucket_count n)).
  assert (S1 : sim rt1 st).
  { split; [exact W1|]. split; [apply rep_empty; exact E1|].
    cbn [st m_count m_buckets m_init]. repeat split; congruence. }
  assert (S2 : sim rt2 st).
  { split; [exact W2|]. split; [apply rep_empty; exact E2|].
    cbn [st m_count m_buckets m_init]. repeat split; congruence. }
  destruct (refine_run ops rt1 st S1 Hkeys) as (rt1' & Hr1 & _).
  destruct (refine_run ops rt2 st S2 Hkeys) as (rt2' & Hr2 & _).
  exists (fst (model_run st ops)), rt1', rt2'. split; assumption.
Qed.

Lemma hash_strategy_is_unobservable_witness :
  exists rt1 rt2,
    hash_contract first_byte_hash /\ hash_contract length_hash /\
    keys_ok mixed_ops /\
    robin_table_create first_byte_hash true true 0 (Some first_byte_hash) 0 = Some rt1 /\
    robin_table_create first_byte_hash true true 0 (Some length_hash) 42 = Some rt2 /\
    exists obs rt1' rt2',
      run rt1 mixed_ops = Done (obs, rt1') /\ run rt2 mixed_ops = Done (obs, rt2').
Proof.
  assert (Hk : keys_ok mixed_ops).
  { unfold keys_ok, mixed_ops. apply Forall_app. split; [apply keys_ok_puts_upto|].
    apply Forall_app. split.
    - repeat (apply List.Forall_cons; [discriminate|]). apply List.Forall_nil.
    - apply Forall_forall. intros x Hx.
      apply list_elem_of_In, in_map_iff in Hx. destruct Hx as (i & <- & _). discriminate. }
  assert (Hok : malloc_ok true (robin_table_calc_bucket_count 0 * sizeof_bucket) = true)
    by (vm_compute; reflexivity).
  pose proof (robin_table_create_ok first_byte_hash 0 (Some first_byte_hash) 0 Hok) as H1.
  pose proof (robin_table_create_ok first_byte_hash 0 (Some length_hash) 42 Hok) as H2.
  eexists _, _.
  split; [exact first_byte_hash_contract|]. split; [exact length_hash_contract|].
  split; [exact Hk|].
  exact (conj H1 (conj H2
           (hash_strategy_is_unobservable first_byte_hash 0 true true true true
              first_byte_hash length_hash 0 42 _ _ mixed_ops
              first_byte_hash_contract length_hash_contract Hk H1 H2))).
Defined.

(** The same insertions lay the two tables out differently. *)
Example layouts_differ :
  let ops := puts_upto 3 in
  option_map buckets (table_after first_byte_hash 0 ops)
  <> option_map buckets (table_after length_hash 0 ops).
Proof. vm_compute. discriminate. Qed.

(** C10 (null-value ambiguity).  [robin_table_put] returns [NULL] when a
    required growth fails, and also when it inserts a [NULL] value or finds
    a stored [NULL] value for the key; [robin_table_get] returns [NULL]
    when the key is absent, and also when the key is present with a stored
    [NULL] value. *)
Theorem null_return_is_ambiguous rt k v avail :
  WF rt -> k <> [] ->
  (must_grow rt = true -> grow_ok avail rt = false ->
     robin_table_put avail rt k v = Done (NULL, rt)) /\
  (must_grow rt = false \/ grow_ok avail rt = true -> absent rt k ->
     exists rt', robin_table_put avail rt k NULL = Done (NULL, rt') /\ holds rt' k NULL) /\
  (must_grow rt = false \/ grow_ok avail rt = true -> holds rt k NULL ->
     exists rt', robin_table_put avail rt k v = Done (NULL, rt') /\ holds rt' k NULL) /\
  (absent rt k -> robin_table_get rt k = Done NULL) /\
  (holds rt k NULL -> robin_table_get rt k = Done NULL).
Proof.
  intros W Hk. pose proof (WF_room rt W) as Hroom.
  split; [|split; [|split; [|split]]].
  - intros Hg Hf. exact (robin_table_put_grow_fail rt W k Hk avail v Hg Hf).
  - intros Hcase Hab.
    destruct (robin_table_put_absent rt W k Hk avail NULL Hcase Hab)
      as (rt' & Hput & _ & _ & _ & _ & _ & _ & Hh').
    exists rt'. split; [exact Hput|]. apply Hh'. right. split; reflexivity.
  - intros Hcase Hh.
    destruct (robin_table_put_present rt W k Hk avail v NULL Hcase Hh)
      as (rt' & Hput & _ & _ & _ & _ & _ & _ & Hh').
    exists rt'. split; [exact Hput|]. apply Hh'. exact Hh.
  - intros Hab. destruct W as (I & _).
    exact (robin_table_get_absent rt I ltac:(lia) k Hk Hab).
  - intros Hh. destruct W as (I & _).
    exact (robin_table_get_present rt I k Hk NULL Hh).
Qed.

Lemma null_valued_table_WF : WF null_valued_table.
Proof.
  apply table_after_WF; [|vm_compute; reflexivity].
  unfold keys_ok. repeat (apply List.Forall_cons; [discriminate|]). apply List.Forall_nil.
Qed.

(** The same [NULL] comes back from [get] for an absent key and for a
    present one, and from [put] for a failed and for a successful call. *)
Lemma null_return_is_ambiguous_witness :
  (WF empty_table /\ [1] <> ([] : key_t) /\ absent empty_table [1] /\
   robin_table_get empty_table [1] = Done NULL) /\
  (WF null_valued_table /\ holds null_valued_table [1] NULL /\
   robin_table_get null_valued_table [1] = Done NULL) /\
  (WF full_table /\ absent full_table [25] /\
   robin_table_put false full_table [25] 35 = Done (NULL, full_table)) /\
  (exists rt', robin_table_put true empty_table [1] NULL = Done (NULL, rt') /\
               holds rt' [1] NULL).
Proof.
  assert (Hk : [1] <> ([] : key_t)) by discriminate.
  assert (Hk' : [25] <> ([] : key_t)) by discriminate.
  pose proof (null_return_is_ambiguous empty_table [1] 0 true empty_table_WF Hk)
    as (_ & E2 & _ & E4 & _).
  pose proof (null_return_is_ambiguous null_valued_table [1] 0 true null_valued_table_WF Hk)
    as (_ & _ & _ & _ & N5).
  pose proof (null_return_is_ambiguous full_table [25] 35 false full_table_WF Hk')
    as (F1 & _).
  assert (Ha : absent empty_table [1]).
  { apply (rep_absent empty_table _ [1] (rep_contents empty_table (proj1 empty_table_WF))).
    vm_compute. reflexivity. }
  assert (Hh : holds null_valued_table [1] NULL).
  { apply (rep_contents null_valued_table (proj1 null_valued_table_WF)).
    vm_compute. reflexivity. }
  assert (Hf : absent full_table [25]).
  { apply (rep_absent full_table _ [25] (rep_contents full_table (proj1 full_table_WF))).
    vm_compute. reflexivity. }
  split; [exact (conj empty_table_WF (conj Hk (conj Ha (E4 Ha))))|].
  split; [exact (conj null_valued_table_WF (conj Hh (N5 Hh)))|].
  split; [|exact (E2 (or_introl eq_refl) Ha)].
  refine (conj full_table_WF (conj Hf (F1 _ eq_refl))).
  vm_compute. reflexivity.
Defined.

(** C8 as stated fails for counts whose product with 100 overflows 64
    bits: for [n = 184467440737095517], [n * 100] wraps to 84, the table is
    created with 32 buckets, while [target_capacity n] is [2 ^ 58]. *)
Lemma create_capacity_counterexample :
  0 <= 184467440737095517 < 2 ^ 64 /\
  exists rt,
    robin_table_create first_byte_hash true true 184467440737095517 None 0 = Some rt /\
    bucket_count rt = 32 /\
    target_capacity 184467440737095517 = 2 ^ 58 /\
    bucket_count rt <> target_capacity 184467440737095517.
Proof.
  split; [lia|].
  eexists. split.
  - apply robin_table_create_ok. vm_compute. reflexivity.
  - cbn [fresh_table bucket_count].
    assert (H1 : robin_table_calc_bucket_count 184467440737095517 = 32)
      by (vm_compute; reflexivity).
    assert (H2 : target_capacity 184467440737095517 = 2 ^ 58)
      by (vm_compute; reflexivity).
    rewrite H1, H2. split; [reflexivity|]. split; [reflexivity | lia].
Qed.

(** C8, amended (construction capacity).  For every expected entry count
    [n] whose product with 100 fits in 64 bits, a successful
    [robin_table_create] yields a zeroed bucket array of exactly
    [target_capacity n] slots: 32 when [ceil(n * 100 / 75) < 32], otherwise
    the next power of two at or above [ceil(n * 100 / 75)]. *)
Theorem create_capacity_is_target dflt avail_rt avail_bs n hf sd rt :
  0 <= n -> n * 100 < 2 ^ 64 ->
  robin_table_create dflt avail_rt avail_bs n hf sd = Some rt ->
  bucket_count rt = target_capacity n /\
  Z.of_nat (length (buckets rt)) = target_capacity n /\
  forall i, bucket_at (buckets rt) i = zero_bucket.
Proof.
  intros Hn Hov Hc.
  pose proof (robin_table_create_spec _ _ _ _ _ _ _ Hc)
    as ((I & _) & _ & Hbc & _ & _ & _ & Hz & _).
  rewrite (robin_table_calc_bucket_count_target n Hn Hov) in Hbc.
  split; [exact Hbc|]. split; [|exact Hz].
  rewrite (geo_len rt (inv_geometry rt I)). exact Hbc.
Qed.

Lemma create_capacity_is_target_witness :
  exists rt,
    0 <= 0 /\ 0 * 100 < 2 ^ 64 /\
    robin_table_create first_byte_hash true true 0 None 0 = Some rt /\
    target_capacity 0 = 32 /\
    bucket_count rt = target_capacity 0 /\
    Z.of_nat (length (buckets rt)) = target_capacity 0 /\
    forall i, bucket_at (buckets rt) i = zero_bucket.
Proof.
  assert (Hok : malloc_ok true (robin_table_calc_bucket_count 0 * sizeof_bucket) = true)
    by (vm_compute; reflexivity).
  pose proof (robin_table_create_ok first_byte_hash 0 None 0 Hok) as Hc.
  assert (H1 : 0 <= 0) by lia.
  assert (H2 : 0 * 100 < 2 ^ 64) by lia.
  eexists.
  exact (conj H1 (conj H2 (conj Hc (conj eq_refl
           (create_capacity_is_target first_byte_hash true true 0 None 0 _ H1 H2 Hc))))).
Defined.

(** [robin_table_del] when no shrink follows: the value found and the
    table the shift leaves. *)
Lemma robin_table_del_no_shrink avail rt k i rt1 :
  k <> [] ->
  robin_table_get_bucket rt k (Z.of_nat (length k)) = Done (Some i) ->
  del_shift (probe_budget rt) rt i i = Done rt1 ->
  (init_buckets rt1 <? bucket_count rt1) && (count rt1 <=? shrink_at rt1) = false ->
  robin_table_del avail rt k = Done (val (bucket_at (buckets rt) i), rt1).
Proof.
  intros Hk Hg Hs Hno. unfold robin_table_del.
  rewrite (assert_key_ok k Hk), bind_done. rewrite Hg, bind_done.
  rewrite Hs, bind_done. rewrite Hno. reflexivity.
Qed.

(** C5 as stated fails once an entry has been shifted.  In [chain_table]
    keys [[1]] and [[33]] sit in slots 1 and 2; deleting [[1]] moves [[33]]
    back into slot 1 and zeroes slot 2.  The originally-freed slot 1 is not
    zeroed, and the steps as the claim words them would instead empty
    slot 1 and leave the stale copy of [[33]] in slot 2. *)
Lemma shift_zeroes_freed_slot_counterexample :
  robin_table_get_bucket chain_table [1] 1 = Done (Some 1) /\
  exists rt',
    del_shift (probe_budget chain_table) chain_table 1 1 = Done rt' /\
    key (bucket_at (buckets rt') 1) = Some [33] /\
    bucket_at (buckets rt') 2 = zero_bucket /\
    exists bs c,
      shift_as_specified (probe_budget chain_table) (mask chain_table)
        (buckets chain_table) (count chain_table) 1 1 = Some (bs, c) /\
      bucket_at bs 1 = zero_bucket /\
      key (bucket_at bs 2) = Some [33] /\
      bs <> buckets rt'.
Proof.
  pose proof chain_table_WF as W. pose proof (WF_room _ W) as Hroom.
  destruct W as (I & _).
  assert (Hin : in_range chain_table 1)
    by (split; [apply Z.leb_le | apply Z.ltb_lt]; vm_compute; reflexivity).
  assert (Hk : key (slot chain_table 1) = Some [1]) by (vm_compute; reflexivity).
  split.
  - exact (robin_table_get_bucket_present chain_table I [1] 1 Hin Hk).
  - destruct (del_shift_found chain_table 1 [1] I ltac:(lia) Hin Hk)
      as (rt' & Hrun & _ & _ & _ & _ & Hsp).
    assert (Hdata : shift_as_amended (probe_budget chain_table) (mask chain_table)
                      (buckets chain_table) (count chain_table) 1
                    = Some (set_bucket (set_bucket (buckets chain_table) 1
                                          (mk_bucket (Some [33]) 12 0 1 33))
                                       2 zero_bucket, 1))
      by (vm_compute; reflexivity).
    rewrite Hdata in Hsp. injection Hsp as Hbs _.
    exists rt'. split; [exact Hrun|]. rewrite <- Hbs.
    split; [vm_compute; reflexivity|]. split; [vm_compute; reflexivity|].
    eexists _, _. split; [vm_compute; reflexivity|].
    split; [vm_compute; reflexivity|]. split; [vm_compute; reflexivity|].
    vm_compute. discriminate.
Qed.

(** C5, amended (backward-shift deletion steps).  When [robin_table_del]
    finds the key, its shift performs these steps and no others: walking
    forward from the freed index with wraparound, on a slot that is empty
    or has [psl = 0] it zeroes the slot being vacated at that point (the
    originally-freed slot only if nothing was shifted), decrements the
    count and stops; otherwise it decrements that slot's [psl] by one,
    moves it one position back into the slot being vacated, and continues
    from the now-vacated next slot.  The loop ends, and the table it leaves
    has the buckets and the count that [shift_as_amended] computes. *)
Theorem backward_shift_follows_amended_steps rt k v :
  WF rt -> k <> [] -> holds rt k v ->
  exists i rt1,
    robin_table_get_bucket rt k (Z.of_nat (length k)) = Done (Some i) /\
    val (bucket_at (buckets rt) i) = v /\
    del_shift (probe_budget rt) rt i i = Done rt1 /\
    shift_as_amended (probe_budget rt) (mask rt) (buckets rt) (count rt) i
    = Some (buckets rt1, count rt1) /\
    (must_shrink rt = false ->
     forall avail, robin_table_del avail rt k = Done (v, rt1)).
Proof.
  intros W Hk (i & Hi & Hki & Hv).
  pose proof (WF_room rt W) as Hroom. destruct W as (I & _).
  pose proof (robin_table_get_bucket_present rt I k i Hi Hki) as Hg.
  destruct (del_shift_found rt i k I ltac:(lia) Hi Hki)
    as (rt1 & Hrun & _ & Hfr & Hc & _ & Hsp).
  exists i, rt1. split; [exact Hg|]. split; [exact Hv|].
  split; [exact Hrun|]. split; [exact Hsp|].
  intros Hno avail. rewrite <- Hv.
  apply robin_table_del_no_shrink; try assumption.
  destruct Hfr as (Hbc & Hin & _ & _ & Hsh & _).
  rewrite Hbc, Hin, Hsh, Hc. exact Hno.
Qed.

Lemma backward_shift_follows_amended_steps_witness :
  WF chain_table /\ [1] <> ([] : key_t) /\ holds chain_table [1] 11 /\
  exists i rt1,
    robin_table_get_bucket chain_table [1] (Z.of_nat (length [1])) = Done (Some i) /\
    val (bucket_at (buckets chain_table) i) = 11 /\
    del_shift (probe_budget chain_table) chain_table i i = Done rt1 /\
    shift_as_amended (probe_budget chain_table) (mask chain_table)
      (buckets chain_table) (count chain_table) i
    = Some (buckets rt1, count rt1) /\
    (must_shrink chain_table = false ->
     forall avail, robin_table_del avail chain_table [1] = Done (11, rt1)).
Proof.
  assert (H1 : WF chain_table) by exact chain_table_WF.
  assert (H2 : [1] <> ([] : key_t)) by discriminate.
  assert (H3 : holds chain_table [1] 11).
  { apply (rep_contents chain_table (proj1 H1)). vm_compute. reflexivity. }
  exact (conj H1 (conj H2 (conj H3
           (backward_shift_follows_amended_steps chain_table [1] 11 H1 H2 H3)))).
Defined.

(** * Further properties of the table engine *)

(** ** Reachable sample tables *)

Lemma sample_reachable hf n ops d :
  keys_ok ops ->
  malloc_ok true (robin_table_calc_bucket_count n * sizeof_bucket) = true ->
  reachable hf (default d (table_after hf n ops)).
Proof.
  intros Hk Hok. destruct (table_after_WF hf n ops d Hk Hok) as (He & _).
  exact (table_after_reachable _ _ _ _ He).
Qed.

Lemma empty_table_reachable : reachable first_byte_hash empty_table.
Proof. apply sample_reachable; [constructor | vm_compute; reflexivity]. Qed.

Lemma full_table_reachable : reachable first_byte_hash full_table.
Proof. apply sample_reachable; [apply keys_ok_puts_upto | vm_compute; reflexivity]. Qed.

Lemma chain_table_reachable : reachable first_byte_hash chain_table.
Proof.
  apply sample_reachable; [|vm_compute; reflexivity].
  unfold keys_ok. repeat (apply List.Forall_cons; [discriminate|]). apply List.Forall_nil.
Qed.

Lemma pow2_exponent_ge n e : 0 <= e -> n = 2 ^ e -> 32 <= n -> 5 <= e.
Proof.
  intros He -> H32.
  destruct (Z_lt_le_dec e 5) as [Hlt|]; [|assumption].
  assert (H : 2 ^ e <= 2 ^ 4) by (apply Z.pow_le_mono_r; lia).
  change (2 ^ 4) with 16 in H. lia.
Qed.

(** ** Invariants of reachable tables *)

(** X1 (shape of a reachable table).  In every table reachable through the
    public interface the bucket count is a power of two not below 32, the
    array has that many slots, [mask = bucket_count - 1], the two
    thresholds are 75% and 25% of the bucket count (rounded down), [count]
    is the number of occupied slots, and [count <= expand_at <
    bucket_count], so at least one slot is always empty. *)
Theorem reachable_table_shape dflt rt :
  reachable dflt rt ->
  (exists e, 5 <= e /\ bucket_count rt = 2 ^ e) /\
  Z.of_nat (length (buckets rt)) = bucket_count rt /\
  mask rt = bucket_count rt - 1 /\
  expand_at rt = bucket_count rt * RT_LOAD_FACTOR_PCT_MAX / 100 /\
  shrink_at rt = bucket_count rt * RT_LOAD_FACTOR_PCT_MIN / 100 /\
  robin_table_count rt = occ_count (buckets rt) /\
  robin_table_count rt <= expand_at rt < bucket_count rt.
Proof.
  intros Hr. destruct (reachable_WF dflt rt Hr) as (I & Hload).
  pose proof (inv_geometry rt I) as G.
  split.
  - destruct (geo_pow2 rt G) as (e & He & Hbc). exists e.
    split; [|exact Hbc]. exact (pow2_exponent_ge _ e He Hbc (geo_big rt G)).
  - split; [exact (geo_len rt G)|]. split; [exact (geo_mask rt G)|].
    split; [exact (geo_expand rt G)|]. split; [exact (geo_shrink rt G)|].
    split; [exact (inv_count rt I)|].
    split; [exact Hload | exact (geo_expand_lt rt G)].
Qed.

Lemma reachable_table_shape_witness :
  reachable first_byte_hash full_table /\
  (exists e, 5 <= e /\ bucket_count full_table = 2 ^ e) /\
  Z.of_nat (length (buckets full_table)) = bucket_count full_table /\
  mask full_table = bucket_count full_table - 1 /\
  expand_at full_table = bucket_count full_table * RT_LOAD_FACTOR_PCT_MAX / 100 /\
  shrink_at full_table = bucket_count full_table * RT_LOAD_FACTOR_PCT_MIN / 100 /\
  robin_table_count full_table = occ_count (buckets full_table) /\
  robin_table_count full_table <= expand_at full_table < bucket_count full_table.
Proof.
  exact (conj full_table_reachable
           (reachable_table_shape first_byte_hash full_table full_table_reachable)).
Defined.

(** X2 (occupied slots).  In every reachable table an occupied slot
    records a non-empty key together with its byte length, and no two slots
    hold the same key. *)
Theorem reachable_keys_unique dflt rt i j k :
  reachable dflt rt ->
  0 <= i < bucket_count rt -> 0 <= j < bucket_count rt ->
  key (bucket_at (buckets rt) i) = Some k ->
  key (bucket_at (buckets rt) j) = Some k ->
  i = j /\ k <> [] /\ klen (bucket_at (buckets rt) i) = Z.of_nat (length k).
Proof.
  intros Hr Hi Hj Hki Hkj. destruct (reachable_WF dflt rt Hr) as (I & _).
  split; [exact (inv_distinct rt I i j k Hi Hj Hki Hkj)|].
  destruct (inv_entries rt I i Hi k Hki) as (Hne & Hl & _).
  split; assumption.
Qed.

Lemma reachable_keys_unique_witness :
  reachable first_byte_hash chain_table /\
  0 <= 2 < bucket_count chain_table /\
  key (bucket_at (buckets chain_table) 2) = Some [33] /\
  2 = 2 /\ [33] <> ([] : key_t) /\
  klen (bucket_at (buckets chain_table) 2) = Z.of_nat (length [33]).
Proof.
  assert (H2 : 0 <= 2 < bucket_count chain_table)
    by (split; [apply Z.leb_le | apply Z.ltb_lt]; vm_compute; reflexivity).
  assert (H3 : key (bucket_at (buckets chain_table) 2) = Some [33])
    by (vm_compute; reflexivity).
  exact (conj chain_table_reachable (conj H2 (conj H3
           (reachable_keys_unique first_byte_hash chain_table 2 2 [33]
              chain_table_reachable H2 H2 H3 H3)))).
Defined.

(** X3 (empty slots).  In every reachable table an empty slot is all
    zero, as [calloc] and [memset] left it.  Its [klen] is therefore 0, so
    for a non-empty key the hash-and-length test that guards [memcmp] in
    [robin_table_get_bucket] fails on it: [memcmp] is never handed the
    [NULL] key of an empty slot. *)
Theorem reachable_empty_slot_is_zero dflt rt i h (k : key_t) :
  reachable dflt rt ->
  0 <= i < bucket_count rt ->
  key (bucket_at (buckets rt) i) = None ->
  k <> [] ->
  bucket_at (buckets rt) i = zero_bucket /\
  (hash (bucket_at (buckets rt) i) =? h) &&
  (klen (bucket_at (buckets rt) i) =? Z.of_nat (length k)) = false.
Proof.
  intros Hr Hi Hnone Hk. destruct (reachable_WF dflt rt Hr) as (I & _).
  pose proof (inv_zeros rt I i Hi Hnone) as Hz. unfold slot in Hz.
  split; [exact Hz|]. rewrite Hz. cbn [hash klen zero_bucket].
  pose proof (length_key_nonzero k Hk).
  destruct (Z.eqb_spec 0 (Z.of_nat (length k))); [lia|].
  apply andb_false_r.
Qed.

Lemma reachable_empty_slot_is_zero_witness :
  reachable first_byte_hash chain_table /\
  0 <= 3 < bucket_count chain_table /\
  key (bucket_at (buckets chain_table) 3) = None /\
  [3] <> ([] : key_t) /\
  bucket_at (buckets chain_table) 3 = zero_bucket /\
  (hash (bucket_at (buckets chain_table) 3) =? 3) &&
  (klen (bucket_at (buckets chain_table) 3) =? Z.of_nat (length [3])) = false.
Proof.
  assert (H2 : 0 <= 3 < bucket_count chain_table)
    by (split; [apply Z.leb_le | apply Z.ltb_lt]; vm_compute; reflexivity).
  assert (H3 : key (bucket_at (buckets chain_table) 3) = None)
    by (vm_compute; reflexivity).
  assert (H4 : [3] <> ([] : key_t)) by discriminate.
  exact (conj chain_table_reachable (conj H2 (conj H3 (conj H4
           (reachable_empty_slot_is_zero first_byte_hash chain_table 3 3 [3]
              chain_table_reachable H2 H3 H4))))).
Defined.

(** X4 (Robin Hood ordering).  In every reachable table, stepping from a
    slot to the next one (with wraparound) raises the probe sequence length
    by at most one, and an entry that follows an empty slot sits at its
    ideal index ([psl = 0]).  This is what lets [robin_table_get_bucket]
    stop at the first slot whose [psl] is below the probe distance. *)
Theorem reachable_robin_hood_order dflt rt i :
  reachable dflt rt ->
  0 <= i < bucket_count rt ->
  key (bucket_at (buckets rt) ((i + 1) mod bucket_count rt)) <> None ->
  psl (bucket_at (buckets rt) ((i + 1) mod bucket_count rt))
  <= (if is_null (key (bucket_at (buckets rt) i)) then 0
      else psl (bucket_at (buckets rt) i) + 1).
Proof.
  intros Hr Hi Hocc. destruct (reachable_WF dflt rt Hr) as (I & _).
  pose proof (inv_robin rt I i Hi ltac:(tauto)) as Hrk. unfold slot, rank in Hrk.
  destruct (key (bucket_at (buckets rt) ((i + 1) mod bucket_count rt)));
    [|contradiction].
  cbn [is_null] in Hrk.
  destruct (is_null (key (bucket_at (buckets rt) i))); lia.
Qed.

Lemma reachable_robin_hood_order_witness :
  reachable first_byte_hash chain_table /\
  0 <= 1 < bucket_count chain_table /\
  key (bucket_at (buckets chain_table) ((1 + 1) mod bucket_count chain_table)) <> None /\
  psl (bucket_at (buckets chain_table) ((1 + 1) mod bucket_count chain_table))
  <= (if is_null (key (bucket_at (buckets chain_table) 1)) then 0
      else psl (bucket_at (buckets chain_table) 1) + 1).
Proof.
  assert (H2 : 0 <= 1 < bucket_count chain_table)
    by (split; [apply Z.leb_le | apply Z.ltb_lt]; vm_compute; reflexivity).
  assert (H3 : key (bucket_at (buckets chain_table)
                      ((1 + 1) mod bucket_count chain_table)) <> None)
    by (vm_compute; discriminate).
  exact (conj chain_table_reachable (conj H2 (conj H3
           (reachable_robin_hood_order first_byte_hash chain_table 1
              chain_table_reachable H2 H3)))).
Defined.

(** ** Lookup *)

Lemma not_holds_absent rt k : (forall v, ~ holds rt k v) -> absent rt k.
Proof. intros H i Hi Hk. apply (H (val (slot rt i))). exists i. tauto. Qed.

Lemma get_total rt k :
  WF rt -> k <> [] ->
  (exists v, holds rt k v /\ robin_table_get rt k = Done v) \/
  (absent rt k /\ robin_table_get rt k = Done NULL).
Proof.
  intros W Hk. pose proof (WF_room rt W) as Hroom. destruct W as (I & _).
  destruct (present_or_absent rt k) as [(i & Hi & Hki) | Hab].
  - left. exists (val (slot rt i)).
    assert (Hh : holds rt k (val (slot rt i))) by (exists i; tauto).
    split; [exact Hh | exact (robin_table_get_present rt I k Hk _ Hh)].
  - right. split; [exact Hab | exact (robin_table_get_absent rt I ltac:(lia) k Hk Hab)].
Qed.

Lemma get_same_contents rt rt' k :
  WF rt -> WF rt' -> k <> [] ->
  (forall v, holds rt' k v <-> holds rt k v) ->
  robin_table_get rt' k = robin_table_get rt k.
Proof.
  intros W W' Hk Hsame.
  destruct (get_total rt k W Hk) as [(v & Hh & ->) | (Hab & ->)].
  - destruct W' as (I' & _). apply (robin_table_get_present rt' I' k Hk).
    apply Hsame. exact Hh.
  - pose proof (WF_room rt' W') as Hroom. destruct W' as (I' & _).
    apply (robin_table_get_absent rt' I' ltac:(lia) k Hk).
    apply not_holds_absent. intros v Hv. apply Hsame in Hv.
    exact (absent_not_holds rt k v Hab Hv).
Qed.

(** X5 (lookup finds exactly what is stored).  On every reachable table
    and for every non-empty key, [robin_table_get] returns; it returns the
    stored value when some slot of the array holds the key, wherever the
    key was displaced to, and [NULL] when no slot holds it; a non-[NULL]
    result is always the value of a slot holding the key. *)
Theorem lookup_finds_exactly_stored dflt rt k :
  reachable dflt rt -> k <> [] ->
  exists r,
    robin_table_get rt k = Done r /\
    (forall v, holds rt k v -> r = v) /\
    (absent rt k -> r = NULL) /\
    (r <> NULL -> holds rt k r).
Proof.
  intros Hr Hk. pose proof (reachable_WF dflt rt Hr) as W.
  destruct (get_total rt k W Hk) as [(v & Hh & Hg) | (Hab & Hg)].
  - exists v. split; [exact Hg|]. split; [|split].
    + intros v' Hh'. exact (holds_functional rt k v v' (proj1 W) Hh Hh').
    + intros Hab. exfalso. exact (absent_not_holds rt k v Hab Hh).
    + intros _. exact Hh.
  - exists NULL. split; [exact Hg|]. split; [|split].
    + intros v Hh. exfalso. exact (absent_not_holds rt k v Hab Hh).
    + reflexivity.
    + intros Hne. contradiction.
Qed.

Lemma lookup_finds_exactly_stored_witness :
  reachable first_byte_hash chain_table /\ [33] <> ([] : key_t) /\
  holds chain_table [33] 12 /\
  exists r,
    robin_table_get chain_table [33] = Done r /\
    (forall v, holds chain_table [33] v -> r = v) /\
    (absent chain_table [33] -> r = NULL) /\
    (r <> NULL -> holds chain_table [33] r).
Proof.
  assert (H2 : [33] <> ([] : key_t)) by discriminate.
  assert (H3 : holds chain_table [33] 12).
  { apply (rep_contents chain_table (proj1 chain_table_WF)). vm_compute. reflexivity. }
  exact (conj chain_table_reachable (conj H2 (conj H3
           (lookup_finds_exactly_stored first_byte_hash chain_table [33]
              chain_table_reachable H2)))).
Defined.

(** ** Completion *)

(** X6 (every call returns).  Started on a reachable table, any sequence
    of put, get and del calls with non-empty keys, under any allocator
    answers, runs to completion: no [RT_ASSERT] fires (in particular the
    two assertions of [robin_table_resize]) and no [while (1)] probe loop
    needs more than [bucket_count + 1] iterations.  The table it ends in is
    reachable again. *)
Theorem operations_complete dflt rt ops :
  reachable dflt rt -> keys_ok ops ->
  exists obs rt', run rt ops = Done (obs, rt') /\ reachable dflt rt'.
Proof.
  intros Hr Hk. pose proof (reachable_WF dflt rt Hr) as W.
  destruct (refine_run ops rt _ (sim_model_of rt W) Hk) as (rt' & Hrun & _).
  exists (fst (model_run (model_of rt) ops)), rt'.
  split; [exact Hrun|]. exact (run_reachable dflt ops rt _ rt' Hr Hrun).
Qed.

Lemma operations_complete_witness :
  reachable first_byte_hash full_table /\ keys_ok other_key_ops /\
  exists obs rt',
    run full_table other_key_ops = Done (obs, rt') /\ reachable first_byte_hash rt'.
Proof.
  assert (H2 : keys_ok other_key_ops).
  { unfold keys_ok, other_key_ops.
    repeat (apply List.Forall_cons; [discriminate|]). apply List.Forall_nil. }
  exact (conj full_table_reachable (conj H2
           (operations_complete first_byte_hash full_table other_key_ops
              full_table_reachable H2))).
Defined.

(** ** Insertion and deletion *)

Lemma grow_case rt avail :
  must_grow rt && negb (grow_ok avail rt) = false ->
  must_grow rt = false \/ grow_ok avail rt = true.
Proof.
  destruct (must_grow rt); [right | left; reflexivity].
  destruct (grow_ok avail rt); [reflexivity | discriminate].
Qed.

(** X7 (insertion of a fresh key).  On a well-formed table that does not
    hold [k], a put that is not stopped by a failed growth returns the new
    value, raises the count by one, makes [get(k)] return the new value and
    leaves the result of [get] unchanged for every other key, also when the
    table is rehashed into twice the buckets on the way. *)
Theorem put_inserts_fresh_key rt k v avail :
  WF rt -> k <> [] -> absent rt k ->
  must_grow rt = false \/ grow_ok avail rt = true ->
  exists rt',
    robin_table_put avail rt k v = Done (v, rt') /\
    robin_table_count rt' = robin_table_count rt + 1 /\
    robin_table_get rt' k = Done v /\
    forall k', k' <> [] -> k' <> k -> robin_table_get rt' k' = robin_table_get rt k'.
Proof.
  intros W Hk Hab Hcase.
  destruct (robin_table_put_absent rt W k Hk avail v Hcase Hab)
    as (rt' & Hput & W' & _ & _ & _ & _ & Hc & Hh).
  exists rt'. split; [exact Hput|]. split; [exact Hc|]. split.
  - destruct W' as (I' & _). apply (robin_table_get_present rt' I' k Hk).
    apply Hh. right. split; reflexivity.
  - intros k' Hk' Hne. apply (get_same_contents rt rt' k' W W' Hk').
    intros v'. rewrite Hh. split; [|tauto].
    intros [H | (H & _)]; [exact H | contradiction].
Qed.

Lemma put_inserts_fresh_key_witness :
  WF full_table /\ [27] <> ([] : key_t) /\ absent full_table [27] /\
  (must_grow full_table = false \/ grow_ok true full_table = true) /\
  exists rt',
    robin_table_put true full_table [27] 70 = Done (70, rt') /\
    robin_table_count rt' = robin_table_count full_table + 1 /\
    robin_table_get rt' [27] = Done 70 /\
    forall k', k' <> [] -> k' <> [27] ->
      robin_table_get rt' k' = robin_table_get full_table k'.
Proof.
  assert (H1 : WF full_table) by exact full_table_WF.
  assert (H2 : [27] <> ([] : key_t)) by discriminate.
  assert (H3 : absent full_table [27]).
  { apply (rep_absent full_table _ [27] (rep_contents full_table (proj1 H1))).
    vm_compute. reflexivity. }
  assert (H4 : must_grow full_table = false \/ grow_ok true full_table = true)
    by (right; vm_compute; reflexivity).
  exact (conj H1 (conj H2 (conj H3 (conj H4
           (put_inserts_fresh_key full_table [27] 70 true H1 H2 H3 H4))))).
Defined.

(** X8 (capacity policy of put).  A put on a well-formed table returns and
    leaves a well-formed table.  The bucket array is doubled exactly when
    the count had reached [expand_at] and the allocation was granted, and
    this also when the key was already present and nothing is inserted;
    otherwise the capacity is unchanged.  [init_buckets], the seed and the
    hash function never change. *)
Theorem put_capacity_policy rt k v avail :
  WF rt -> k <> [] ->
  exists r rt',
    robin_table_put avail rt k v = Done (r, rt') /\ WF rt' /\
    bucket_count rt' =
      (if must_grow rt && grow_ok avail rt then 2 * bucket_count rt else bucket_count rt) /\
    init_buckets rt' = init_buckets rt /\ seed rt' = seed rt /\
    hash_func rt' = hash_func rt.
Proof.
  intros W Hk.
  destruct (must_grow rt && negb (grow_ok avail rt)) eqn:Hfail.
  - apply andb_prop in Hfail. destruct Hfail as [Hg Hn]. apply negb_true_iff in Hn.
    exists NULL, rt. rewrite (robin_table_put_grow_fail rt W k Hk avail v Hg Hn).
    rewrite Hg, Hn. cbn [andb].
    split; [reflexivity|]. split; [exact W|]. repeat split.
  - pose proof (grow_case rt avail Hfail) as Hcase.
    assert (Hbc : (if must_grow rt then 2 * bucket_count rt else bucket_count rt)
                  = (if must_grow rt && grow_ok avail rt
                     then 2 * bucket_count rt else bucket_count rt)).
    { destruct (must_grow rt); [|reflexivity].
      destruct Hcase as [Hc | ->]; [discriminate | reflexivity]. }
    destruct (get_total rt k W Hk) as [(v1 & Hh & _) | (Hab & _)].
    + destruct (robin_table_put_present rt W k Hk avail v v1 Hcase Hh)
        as (rt' & Hput & W' & Hb & Hi & Hs & Hf & _).
      exists v1, rt'. rewrite <- Hbc. tauto.
    + destruct (robin_table_put_absent rt W k Hk avail v Hcase Hab)
        as (rt' & Hput & W' & Hb & Hi & Hs & Hf & _).
      exists v, rt'. rewrite <- Hbc. tauto.
Qed.

Lemma put_capacity_policy_witness :
  WF full_table /\ [1] <> ([] : key_t) /\
  must_grow full_table && grow_ok true full_table = true /\
  exists r rt',
    robin_table_put true full_table [1] 99 = Done (r, rt') /\ WF rt' /\
    bucket_count rt' =
      (if must_grow full_table && grow_ok true full_table
       then 2 * bucket_count full_table else bucket_count full_table) /\
    init_buckets rt' = init_buckets full_table /\ seed rt' = seed full_table /\
    hash_func rt' = hash_func full_table.
Proof.
  assert (H1 : WF full_table) by exact full_table_WF.
  assert (H2 : [1] <> ([] : key_t)) by discriminate.
  assert (H3 : must_grow full_table && grow_ok true full_table = true)
    by (vm_compute; reflexivity).
  exact (conj H1 (conj H2 (conj H3
           (put_capacity_policy full_table [1] 99 true H1 H2)))).
Defined.

(** X9 (deletion: frame and shrink policy).  Deleting a key that a
    well-formed table holds returns its value and leaves a well-formed
    table in which [get] is unchanged for every other key.  The bucket
    array is halved exactly when it is larger than [init_buckets], the
    count after the removal is at most [shrink_at], and the allocation is
    granted; a refused allocation is ignored and the deletion still takes
    place. *)
Theorem del_frame_and_shrink_policy rt k v avail :
  WF rt -> k <> [] -> holds rt k v ->
  exists rt',
    robin_table_del avail rt k = Done (v, rt') /\ WF rt' /\
    bucket_count rt' =
      (if must_shrink rt && shrink_ok avail rt
       then bucket_count rt / 2 else bucket_count rt) /\
    init_buckets rt' = init_buckets rt /\
    robin_table_get rt' k = Done NULL /\
    forall k', k' <> [] -> k' <> k -> robin_table_get rt' k' = robin_table_get rt k'.
Proof.
  intros W Hk Hh.
  destruct (robin_table_del_present rt W k Hk avail v Hh)
    as (rt' & Hdel & W' & Hb & Hi & _ & _ & _ & Hh').
  exists rt'. split; [exact Hdel|]. split; [exact W'|]. split; [exact Hb|].
  split; [exact Hi|]. split.
  - pose proof (WF_room rt' W') as Hroom. destruct W' as (I' & _).
    apply (robin_table_get_absent rt' I' ltac:(lia) k Hk).
    apply not_holds_absent. intros v' Hv'. apply Hh' in Hv'. tauto.
  - intros k' Hk' Hne. apply (get_same_contents rt rt' k' W W' Hk').
    intros v'. rewrite Hh'. tauto.
Qed.

Lemma del_frame_and_shrink_policy_witness :
  WF chain_table /\ [1] <> ([] : key_t) /\ holds chain_table [1] 11 /\
  exists rt',
    robin_table_del false chain_table [1] = Done (11, rt') /\ WF rt' /\
    bucket_count rt' =
      (if must_shrink chain_table && shrink_ok false chain_table
       then bucket_count chain_table / 2 else bucket_count chain_table) /\
    init_buckets rt' = init_buckets chain_table /\
    robin_table_get rt' [1] = Done NULL /\
    forall k', k' <> [] -> k' <> [1] ->
      robin_table_get rt' k' = robin_table_get chain_table k'.
Proof.
  assert (H1 : WF chain_table) by exact chain_table_WF.
  assert (H2 : [1] <> ([] : key_t)) by discriminate.
  assert (H3 : holds chain_table [1] 11).
  { apply (rep_contents chain_table (proj1 H1)). vm_compute. reflexivity. }
  exact (conj H1 (conj H2 (conj H3
           (del_frame_and_shrink_policy chain_table [1] 11 false H1 H2 H3)))).
Defined.

(** X10 (deleting what was just inserted).  On a well-formed table that
    does not hold [k], [put(k, v)] returns [v], or [NULL] when it was
    stopped by a failed growth; unless it was stopped, [get(k)] then
    returns [v] and the count is one higher.  The [del(k)] that follows
    returns what the put returned and restores the count and the result of
    [get] for every key, whatever the allocator answers in either call. *)
Theorem put_then_del_restores rt k v a1 a2 :
  WF rt -> k <> [] -> absent rt k ->
  exists r rt1 rt2,
    robin_table_put a1 rt k v = Done (r, rt1) /\
    r = (if must_grow rt && negb (grow_ok a1 rt) then NULL else v) /\
    (must_grow rt && negb (grow_ok a1 rt) = false ->
     robin_table_get rt1 k = Done v /\
     robin_table_count rt1 = robin_table_count rt + 1) /\
    robin_table_del a2 rt1 k = Done (r, rt2) /\
    robin_table_count rt2 = robin_table_count rt /\
    forall k', k' <> [] -> robin_table_get rt2 k' = robin_table_get rt k'.
Proof.
  intros W Hk Hab.
  destruct (must_grow rt && negb (grow_ok a1 rt)) eqn:Hfail.
  - apply andb_prop in Hfail. destruct Hfail as [Hg Hn]. apply negb_true_iff in Hn.
    exists NULL, rt, rt.
    split; [exact (robin_table_put_grow_fail rt W k Hk a1 v Hg Hn)|].
    split; [reflexivity|]. split; [discriminate|].
    split; [exact (robin_table_del_absent rt W k Hk a2 Hab)|].
    split; reflexivity.
  - destruct (robin_table_put_absent rt W k Hk a1 v (grow_case rt a1 Hfail) Hab)
      as (rt1 & Hput & W1 & _ & _ & _ & _ & Hc1 & Hh1).
    assert (Hv : holds rt1 k v) by (apply Hh1; right; split; reflexivity).
    destruct (robin_table_del_present rt1 W1 k Hk a2 v Hv)
      as (rt2 & Hdel & W2 & _ & _ & _ & _ & Hc2 & Hh2).
    exists v, rt1, rt2. split; [exact Hput|]. split; [reflexivity|].
    split.
    { intros _. split; [|exact Hc1].
      exact (robin_table_get_present rt1 (proj1 W1) k Hk v Hv). }
    split; [exact Hdel|].
    split; [unfold robin_table_count; lia|].
    intros k' Hk'. apply (get_same_contents rt rt2 k' W W2 Hk').
    intros v'. rewrite Hh2, Hh1. split.
    + intros ([H | (H & _)] & Hne); [exact H | contradiction].
    + intros H. split; [left; exact H|].
      intros ->. exact (absent_not_holds rt k v' Hab H).
Qed.

Lemma put_then_del_restores_witness :
  WF full_table /\ [27] <> ([] : key_t) /\ absent full_table [27] /\
  must_grow full_table && negb (grow_ok true full_table) = false /\
  exists r rt1 rt2,
    robin_table_put true full_table [27] 70 = Done (r, rt1) /\
    r = (if must_grow full_table && negb (grow_ok true full_table) then NULL else 70) /\
    (must_grow full_table && negb (grow_ok true full_table) = false ->
     robin_table_get rt1 [27] = Done 70 /\
     robin_table_count rt1 = robin_table_count full_table + 1) /\
    robin_table_del false rt1 [27] = Done (r, rt2) /\
    robin_table_count rt2 = robin_table_count full_table /\
    forall k', k' <> [] -> robin_table_get rt2 k' = robin_table_get full_table k'.
Proof.
  assert (H1 : WF full_table) by exact full_table_WF.
  assert (H2 : [27] <> ([] : key_t)) by discriminate.
  assert (H3 : absent full_table [27]).
  { apply (rep_absent full_table _ [27] (rep_contents full_table (proj1 H1))).
    vm_compute. reflexivity. }
  assert (H4 : must_grow full_table && negb (grow_ok true full_table) = false)
    by (vm_compute; reflexivity).
  exact (conj H1 (conj H2 (conj H3 (conj H4
           (put_then_del_restores full_table [27] 70 true false H1 H2 H3))))).
Defined.

(** X28 (replacing a value).  [put] never overwrites, so a value is
    replaced by deleting the key and putting it again.  On a well-formed
    table that holds [k] with value [v], [del(k)] followed by
    [put(k, v2)], both with the allocator refusing every request, returns
    [v] and then [v2]; afterwards [get(k)] returns [v2], and the count,
    the capacity and the result of [get] for every other key are what
    they were. *)
Theorem del_then_put_replaces rt k v v2 :
  WF rt -> k <> [] -> holds rt k v ->
  exists rt1 rt2,
    robin_table_del false rt k = Done (v, rt1) /\
    robin_table_put false rt1 k v2 = Done (v2, rt2) /\
    robin_table_get rt2 k = Done v2 /\
    robin_table_count rt2 = robin_table_count rt /\
    bucket_count rt2 = bucket_count rt /\
    forall k', k' <> [] -> k' <> k -> robin_table_get rt2 k' = robin_table_get rt k'.
Proof.
  intros W Hk Hh.
  destruct (robin_table_del_present rt W k Hk false v Hh)
    as (rt1 & Hdel & W1 & Hbc1 & _ & _ & _ & Hc1 & Hh1).
  assert (Hno : must_shrink rt && shrink_ok false rt = false)
    by (unfold shrink_ok, malloc_ok; cbn [andb]; apply andb_false_r).
  rewrite Hno in Hbc1.
  assert (Hex : expand_at rt1 = expand_at rt).
  { rewrite (geo_expand rt1 (inv_geometry rt1 (proj1 W1))),
      (geo_expand rt (inv_geometry rt (proj1 W))), Hbc1. reflexivity. }
  assert (Hng : must_grow rt1 = false).
  { unfold must_grow. apply Z.leb_gt. destruct W as (_ & Hload). lia. }
  assert (Hab : absent rt1 k).
  { apply not_holds_absent. intros v' Hv'. apply Hh1 in Hv'. tauto. }
  destruct (robin_table_put_absent rt1 W1 k Hk false v2 (or_introl Hng) Hab)
    as (rt2 & Hput & W2 & Hbc2 & _ & _ & _ & Hc2 & Hh2).
  rewrite Hng in Hbc2.
  exists rt1, rt2. split; [exact Hdel|]. split; [exact Hput|]. split.
  - apply (robin_table_get_present rt2 (proj1 W2) k Hk).
    apply Hh2. right. split; reflexivity.
  - split; [unfold robin_table_count; lia|]. split; [congruence|].
    intros k' Hk' Hne. apply (get_same_contents rt rt2 k' W W2 Hk').
    intros v'. rewrite Hh2, Hh1. split.
    + intros [(H & _) | (H & _)]; [exact H | contradiction].
    + intros H. left. split; [exact H | exact Hne].
Qed.

Lemma del_then_put_replaces_witness :
  WF full_table /\ [1] <> ([] : key_t) /\ holds full_table [1] 11 /\
  exists rt1 rt2,
    robin_table_del false full_table [1] = Done (11, rt1) /\
    robin_table_put false rt1 [1] 99 = Done (99, rt2) /\
    robin_table_get rt2 [1] = Done 99 /\
    robin_table_count rt2 = robin_table_count full_table /\
    bucket_count rt2 = bucket_count full_table /\
    forall k', k' <> [] -> k' <> [1] ->
      robin_table_get rt2 k' = robin_table_get full_table k'.
Proof.
  assert (H1 : WF full_table) by exact full_table_WF.
  assert (H2 : [1] <> ([] : key_t)) by discriminate.
  assert (H3 : holds full_table [1] 11).
  { apply (rep_contents full_table (proj1 H1)). vm_compute. reflexivity. }
  exact (conj H1 (conj H2 (conj H3
           (del_then_put_replaces full_table [1] 11 99 H1 H2 H3)))).
Defined.

(** ** Clearing and resizing *)

(** X11 (clear).  [robin_table_clear] on a well-formed table fails exactly
    when [update_buckets] is set and the allocation of the
    [init_buckets]-sized array is refused, and then leaves the table
    exactly as it was; otherwise it succeeds and leaves a well-formed table
    with count 0, every slot zeroed, every [get] returning [NULL], and a
    capacity of [init_buckets] when [update_buckets] is set and the old
    capacity otherwise. *)
Theorem clear_empties_table rt avail update_buckets :
  WF rt ->
  exists ok rt',
    robin_table_clear avail rt update_buckets = (ok, rt') /\
    ok = (if update_buckets
          then malloc_ok avail (init_buckets rt * sizeof_bucket) else true) /\
    (update_buckets = false -> ok = true) /\
    (ok = false -> rt' = rt) /\
    (ok = true ->
       WF rt' /\ robin_table_count rt' = 0 /\
       (forall i, bucket_at (buckets rt') i = zero_bucket) /\
       (forall k, k <> [] -> robin_table_get rt' k = Done NULL) /\
       bucket_count rt' = (if update_buckets then init_buckets rt else bucket_count rt)).
Proof.
  intros W.
  pose proof (robin_table_clear_spec avail rt update_buckets W) as Hs. cbv zeta in Hs.
  destruct (robin_table_clear avail rt update_buckets) as [ok rt'] eqn:Hc.
  cbn [fst snd] in Hs. destruct Hs as (W' & _ & _ & _ & Hfalse & Htrue).
  assert (Hsize : wrap64 (init_buckets rt * sizeof_bucket) = init_buckets rt * sizeof_bucket).
  { pose proof (inv_geometry rt (proj1 W)) as G.
    pose proof (geo_floor rt G) as Hfl. pose proof (geo_small rt G) as Hsm.
    unfold RT_BUCKET_COUNT_MIN in Hfl. unfold sizeof_bucket.
    apply wrap64_small. lia. }
  exists ok, rt'. split; [reflexivity|]. split; [|split; [|split; [exact Hfalse|]]].
  - unfold robin_table_clear in Hc. rewrite Hsize in Hc.
    destruct update_buckets; [|injection Hc as <- _; reflexivity].
    destruct (malloc_ok avail (init_buckets rt * sizeof_bucket));
      injection Hc as <- _; reflexivity.
  - intros ->. unfold robin_table_clear in Hc. injection Hc as <- _. reflexivity.
  - intros Hok. destruct (Htrue Hok) as (Hcnt & Hemp & Hbc).
    split; [exact W'|]. split; [exact Hcnt|]. split; [|split; [|exact Hbc]].
    + intros i. unfold robin_table_clear in Hc.
      destruct update_buckets.
      * destruct (malloc_ok avail (wrap64 (init_buckets rt * sizeof_bucket)));
          injection Hc as <- <-; [|discriminate].
        cbn [buckets]. apply bucket_at_replicate.
      * injection Hc as _ <-. cbn [set_count set_buckets buckets].
        apply bucket_at_replicate.
    + intros k Hk. pose proof (WF_room rt' W') as Hroom. destruct W' as (I' & _).
      apply (robin_table_get_absent rt' I' ltac:(lia) k Hk).
      apply not_holds_absent. intros v. apply Hemp.
Qed.

Lemma grown_table_WF : WF grown_table.
Proof. apply table_after_WF; [apply keys_ok_puts_upto | vm_compute; reflexivity]. Qed.

(** Clearing the grown table back to its initial capacity, with the
    allocation granted and with it refused. *)
Lemma clear_empties_table_witness :
  WF grown_table /\
  bucket_count grown_table = 64 /\ init_buckets grown_table = 32 /\
  malloc_ok true (init_buckets grown_table * sizeof_bucket) = true /\
  malloc_ok false (init_buckets grown_table * sizeof_bucket) = false /\
  (exists ok rt',
     robin_table_clear true grown_table true = (ok, rt') /\
     ok = (if true
           then malloc_ok true (init_buckets grown_table * sizeof_bucket) else true) /\
     (true = false -> ok = true) /\
     (ok = false -> rt' = grown_table) /\
     (ok = true ->
        WF rt' /\ robin_table_count rt' = 0 /\
        (forall i, bucket_at (buckets rt') i = zero_bucket) /\
        (forall k, k <> [] -> robin_table_get rt' k = Done NULL) /\
        bucket_count rt' = init_buckets grown_table)) /\
  (exists ok rt',
     robin_table_clear false grown_table true = (ok, rt') /\
     ok = (if true
           then malloc_ok false (init_buckets grown_table * sizeof_bucket) else true) /\
     (true = false -> ok = true) /\
     (ok = false -> rt' = grown_table) /\
     (ok = true ->
        WF rt' /\ robin_table_count rt' = 0 /\
        (forall i, bucket_at (buckets rt') i = zero_bucket) /\
        (forall k, k <> [] -> robin_table_get rt' k = Done NULL) /\
        bucket_count rt' = init_buckets grown_table)).
Proof.
  assert (H1 : bucket_count grown_table = 64) by (vm_compute; reflexivity).
  assert (H2 : init_buckets grown_table = 32) by (vm_compute; reflexivity).
  assert (H3 : malloc_ok true (init_buckets grown_table * sizeof_bucket) = true)
    by (vm_compute; reflexivity).
  assert (H4 : malloc_ok false (init_buckets grown_table * sizeof_bucket) = false)
    by reflexivity.
  exact (conj grown_table_WF (conj H1 (conj H2 (conj H3 (conj H4
           (conj (clear_empties_table grown_table true true grown_table_WF)
                 (clear_empties_table grown_table false true grown_table_WF))))))).
Defined.

(** X12 (resize keeps the entries).  [robin_table_resize] of a well-formed
    table to a power-of-two bucket count that is at least [init_buckets]
    and larger than the entry count trips neither of its assertions.  When
    the allocation is refused it returns [false] and leaves the table as
    it was; when it is granted it returns [true] and the rehashed table
    has the new bucket count, the same count of entries, and the same
    result of [get] for every key. *)
Theorem resize_keeps_entries rt new_count avail :
  WF rt ->
  (exists e, 0 <= e /\ new_count = 2 ^ e) ->
  init_buckets rt <= new_count -> count rt < new_count -> new_count < 2 ^ 64 ->
  exists ok rt',
    robin_table_resize avail rt new_count = Done (ok, rt') /\
    ok = malloc_ok avail (new_count * sizeof_bucket) /\
    (ok = false -> rt' = rt) /\
    (ok = true ->
       table_inv rt' /\ bucket_count rt' = new_count /\
       robin_table_count rt' = robin_table_count rt /\
       forall k, k <> [] -> robin_table_get rt' k = robin_table_get rt k).
Proof.
  intros W Hp Hinit Hc Hlt. pose proof (WF_room rt W) as Hroom.
  destruct (malloc_ok avail (new_count * sizeof_bucket)) eqn:Hok.
  - destruct (robin_table_resize_ok avail rt new_count _ (proj1 W) Hp Hinit Hc
                (calloc_buckets_ok avail new_count Hok))
      as (rt' & Hres & I' & Hbc & _ & _ & _ & Hc' & Hh').
    exists true, rt'. split; [exact Hres|]. split; [reflexivity|].
    split; [discriminate|]. intros _.
    split; [exact I'|]. split; [exact Hbc|]. split; [exact Hc'|].
    intros k Hk.
    destruct (get_total rt k W Hk) as [(v & Hh & ->) | (Hab & ->)].
    + apply (robin_table_get_present rt' I' k Hk). apply Hh'. exact Hh.
    + apply (robin_table_get_absent rt' I' ltac:(lia) k Hk).
      apply not_holds_absent. intros v Hv. apply Hh' in Hv.
      exact (absent_not_holds rt k v Hab Hv).
  - exists false, rt.
    split; [|split; [reflexivity | split; [reflexivity | discriminate]]].
    exact (robin_table_resize_fail avail rt new_count (proj1 W) Hp Hlt Hc
             (calloc_buckets_fail avail new_count Hok)).
Qed.

Lemma resize_keeps_entries_witness :
  WF chain_table /\ (exists e, 0 <= e /\ 128 = 2 ^ e) /\
  init_buckets chain_table <= 128 /\ count chain_table < 128 /\ 128 < 2 ^ 64 /\
  exists ok rt',
    robin_table_resize true chain_table 128 = Done (ok, rt') /\
    ok = malloc_ok true (128 * sizeof_bucket) /\
    (ok = false -> rt' = chain_table) /\
    (ok = true ->
       table_inv rt' /\ bucket_count rt' = 128 /\
       robin_table_count rt' = robin_table_count chain_table /\
       forall k, k <> [] -> robin_table_get rt' k = robin_table_get chain_table k).
Proof.
  assert (H1 : WF chain_table) by exact chain_table_WF.
  assert (H2 : exists e, 0 <= e /\ 128 = 2 ^ e) by (exists 7; split; [lia | reflexivity]).
  assert (H3 : init_buckets chain_table <= 128) by (apply Z.leb_le; vm_compute; reflexivity).
  assert (H4 : count chain_table < 128) by (apply Z.ltb_lt; vm_compute; reflexivity).
  assert (H5 : 128 < 2 ^ 64) by lia.
  exact (conj H1 (conj H2 (conj H3 (conj H4 (conj H5
           (resize_keeps_entries chain_table 128 true H1 H2 H3 H4 H5)))))).
Defined.

(** ** The table as a finite map *)

(** X13 (the table refines an insert-if-absent finite map).  Starting from
    a table that [robin_table_create] returned, every sequence of put, get
    and del calls with non-empty keys returns, call by call, the value and
    the count that [model_run] computes on a finite map: [put] inserts
    only when the key is absent and otherwise returns the stored value,
    [get] reads, [del] removes, and the only further state is the count
    and the capacity that decide growth and shrinking.  Neither the hash
    function nor the seed nor the layout of the slots is observable. *)
Theorem table_refines_finite_map dflt a1 a2 n hf sd rt ops :
  robin_table_create dflt a1 a2 n hf sd = Some rt ->
  keys_ok ops ->
  let st := mk_model ∅ 0 (robin_table_calc_bucket_count n)
                     (robin_table_calc_bucket_count n) in
  exists rt',
    run rt ops = Done (fst (model_run st ops), rt') /\
    (forall k v, holds rt' k v <-> m_map (snd (model_run st ops)) !! k = Some v) /\
    robin_table_count rt' = m_count (snd (model_run st ops)) /\
    bucket_count rt' = m_buckets (snd (model_run st ops)).
Proof.
  intros Hc Hk st.
  pose proof (robin_table_create_spec _ _ _ _ _ _ _ Hc)
    as (W & C & B & Hi & _ & _ & _ & E).
  assert (S : sim rt st).
  { split; [exact W|]. split; [apply rep_empty; exact E|].
    cbn [st m_count m_buckets m_init]. repeat split; congruence. }
  destruct (refine_run ops rt st S Hk) as (rt' & Hrun & (_ & Hrep & Hcnt & Hbc & _) & _).
  exists rt'. split; [exact Hrun|]. split; [|split; assumption].
  intros k v. symmetry. apply Hrep.
Qed.

Lemma table_refines_finite_map_witness :
  exists rt,
    robin_table_create first_byte_hash true true 0 None 0 = Some rt /\
    keys_ok mixed_ops /\
    let st := mk_model ∅ 0 (robin_table_calc_bucket_count 0)
                       (robin_table_calc_bucket_count 0) in
    exists rt',
      run rt mixed_ops = Done (fst (model_run st mixed_ops), rt') /\
      (forall k v, holds rt' k v <-> m_map (snd (model_run st mixed_ops)) !! k = Some v) /\
      robin_table_count rt' = m_count (snd (model_run st mixed_ops)) /\
      bucket_count rt' = m_buckets (snd (model_run st mixed_ops)).
Proof.
  assert (Hk : keys_ok mixed_ops).
  { unfold keys_ok, mixed_ops. apply Forall_app. split; [apply keys_ok_puts_upto|].
    apply Forall_app. split.
    - repeat (apply List.Forall_cons; [discriminate|]). apply List.Forall_nil.
    - apply Forall_forall. intros x Hx.
      apply list_elem_of_In, in_map_iff in Hx. destruct Hx as (i & <- & _). discriminate. }
  assert (Hok : malloc_ok true (robin_table_calc_bucket_count 0 * sizeof_bucket) = true)
    by (vm_compute; reflexivity).
  pose proof (robin_table_create_ok first_byte_hash 0 None 0 Hok) as Hc.
  eexists.
  exact (conj Hc (conj Hk
           (table_refines_finite_map first_byte_hash true true 0 None 0 _ mixed_ops Hc Hk))).
Defined.

(** ** Construction *)

(** X14 (a created table is empty).  A table that [robin_table_create]
    returns is well formed and empty: its count is 0 and [get] returns
    [NULL] for every key; it remembers its capacity as [init_buckets],
    stores the seed it was given, and uses the hash function it was given
    or, when that is [NULL], the default strategy. *)
Theorem create_yields_empty_table dflt a1 a2 n hf sd rt :
  robin_table_create dflt a1 a2 n hf sd = Some rt ->
  WF rt /\ robin_table_count rt = 0 /\
  (forall k, k <> [] -> robin_table_get rt k = Done NULL) /\
  init_buckets rt = bucket_count rt /\ seed rt = sd /\
  hash_func rt = match hf with Some h => h | None => dflt end.
Proof.
  intros Hc.
  pose proof (robin_table_create_spec _ _ _ _ _ _ _ Hc)
    as (W & C & _ & Hi & Hs & Hf & _ & E).
  split; [exact W|]. split; [exact C|]. split.
  - intros k Hk. pose proof (WF_room rt W) as Hroom. destruct W as (I & _).
    apply (robin_table_get_absent rt I ltac:(lia) k Hk).
    apply not_holds_absent. intros v. apply E.
  - split; [exact Hi|]. split; [exact Hs|]. rewrite Hf. destruct hf; reflexivity.
Qed.

Lemma create_yields_empty_table_witness :
  exists rt,
    robin_table_create first_byte_hash true true 100 None 7 = Some rt /\
    WF rt /\ robin_table_count rt = 0 /\
    (forall k, k <> [] -> robin_table_get rt k = Done NULL) /\
    init_buckets rt = bucket_count rt /\ seed rt = 7 /\
    hash_func rt = first_byte_hash.
Proof.
  assert (Hok : malloc_ok true (robin_table_calc_bucket_count 100 * sizeof_bucket) = true)
    by (vm_compute; reflexivity).
  pose proof (robin_table_create_ok first_byte_hash 100 None 7 Hok) as Hc.
  eexists.
  exact (conj Hc (create_yields_empty_table first_byte_hash true true 100 None 7 _ Hc)).
Defined.

(** ** Capacity arithmetic *)

(** X15 (rounding up to a power of two).  For [1 <= n <= 2 ^ 63],
    [robin_table_next_pow2 n] is the least power of two that is at least
    [n]: it is a power of two, [n <= r < 2 * n], and a power of two is
    returned unchanged. *)
Theorem next_pow2_rounds_up n :
  1 <= n <= 2 ^ 63 ->
  (exists e, 0 <= e < 64 /\ robin_table_next_pow2 n = 2 ^ e) /\
  n <= robin_table_next_pow2 n < 2 * n /\
  (forall e, 0 <= e -> n = 2 ^ e -> robin_table_next_pow2 n = n).
Proof.
  intros Hn. rewrite (robin_table_next_pow2_log2_up n Hn).
  assert (Hup : Z.log2_up n <= 63).
  { change 63 with (Z.log2_up (2 ^ 63)). apply Z.log2_up_le_mono. lia. }
  pose proof (Z.log2_up_nonneg n) as Hnn.
  split; [exists (Z.log2_up n); split; [lia | reflexivity]|].
  split.
  - destruct (Z.eq_dec n 1) as [-> | Hne]; [change (2 ^ Z.log2_up 1) with 1; lia|].
    pose proof (Z.log2_up_spec n ltac:(lia)) as (Hlo & Hhi).
    split; [exact Hhi|].
    replace (Z.log2_up n) with (Z.succ (Z.pred (Z.log2_up n))) by lia.
    rewrite Z.pow_succ_r; [lia|].
    assert (0 < Z.log2_up n) by (apply Z.log2_up_pos; lia). lia.
  - intros e He ->. rewrite Z.log2_up_pow2 by exact He. reflexivity.
Qed.

Lemma next_pow2_rounds_up_witness :
  1 <= 33 <= 2 ^ 63 /\
  (exists e, 0 <= e < 64 /\ robin_table_next_pow2 33 = 2 ^ e) /\
  33 <= robin_table_next_pow2 33 < 2 * 33 /\
  (forall e, 0 <= e -> 33 = 2 ^ e -> robin_table_next_pow2 33 = 33).
Proof.
  assert (H : 1 <= 33 <= 2 ^ 63) by lia.
  exact (conj H (next_pow2_rounds_up 33 H)).
Defined.

(** X16 (no power of two fits).  For [n = 0] and for every [n] above
    [2 ^ 63] the decrement or the final increment wraps around and
    [robin_table_next_pow2] returns 0. *)
Theorem next_pow2_wraps_to_zero n :
  n = 0 \/ 2 ^ 63 < n < 2 ^ 64 -> robin_table_next_pow2 n = 0.
Proof.
  intros Hn. unfold robin_table_next_pow2.
  assert (Hm : 2 ^ 63 <= wrap64 (n - 1) < 2 ^ 64).
  { destruct Hn as [-> | Hn]; [vm_compute; split; [discriminate | reflexivity]|].
    rewrite wrap64_small by lia. lia. }
  pose proof (smear_ones (wrap64 (n - 1)) ltac:(lia)) as Hs. cbv zeta in Hs.
  rewrite Hs.
  assert (Hlog : Z.log2 (wrap64 (n - 1)) = 63).
  { apply Z.log2_unique; [lia|]. change (2 ^ (63 + 1)) with (2 ^ 64). exact Hm. }
  rewrite Hlog. reflexivity.
Qed.

Lemma next_pow2_wraps_to_zero_witness :
  (0 = 0 \/ 2 ^ 63 < 0 < 2 ^ 64) /\ robin_table_next_pow2 0 = 0 /\
  (2 ^ 63 + 1 = 0 \/ 2 ^ 63 < 2 ^ 63 + 1 < 2 ^ 64) /\
  robin_table_next_pow2 (2 ^ 63 + 1) = 0.
Proof.
  assert (H1 : 0 = 0 \/ 2 ^ 63 < 0 < 2 ^ 64) by (left; reflexivity).
  assert (H2 : 2 ^ 63 + 1 = 0 \/ 2 ^ 63 < 2 ^ 63 + 1 < 2 ^ 64) by (right; lia).
  exact (conj H1 (conj (next_pow2_wraps_to_zero 0 H1)
           (conj H2 (next_pow2_wraps_to_zero (2 ^ 63 + 1) H2)))).
Defined.

Lemma pow2_split_8 r e : 0 <= e -> r = 2 ^ e -> 32 < r -> exists s, 0 < s /\ r = 8 * s.
Proof.
  intros He -> Hr.
  assert (He6 : 6 <= e).
  { destruct (Z_lt_le_dec e 6) as [Hlt|]; [|assumption].
    assert (H : 2 ^ e <= 2 ^ 5) by (apply Z.pow_le_mono_r; lia).
    change (2 ^ 5) with 32 in H. lia. }
  exists (2 ^ (e - 3)). split; [apply Z.pow_pos_nonneg; lia|].
  replace e with (3 + (e - 3)) at 1 by lia.
  rewrite Z.pow_add_r by lia. reflexivity.
Qed.

(** X17 (the capacity chosen for an expected count).  For an expected
    count [n] whose product with 100 fits in 64 bits,
    [robin_table_calc_bucket_count n] is a power of two not below 32 whose
    75% growth threshold is at least [n], and it is the least such: when
    it is above 32, half of it would have a threshold below [n]. *)
Theorem calc_bucket_count_least_sufficient n :
  0 <= n -> n * 100 < 2 ^ 64 ->
  let r := robin_table_calc_bucket_count n in
  (exists e, 5 <= e /\ r = 2 ^ e) /\
  n <= r * RT_LOAD_FACTOR_PCT_MAX / 100 /\
  (32 < r -> r / 2 * RT_LOAD_FACTOR_PCT_MAX / 100 < n).
Proof.
  intros Hn Hov r.
  destruct (robin_table_calc_bucket_count_pow2 n) as (e & He & Hr). fold r in Hr.
  split; [exists e; split; assumption|].
  pose proof (robin_table_calc_bucket_count_target n Hn Hov) as Ht. fold r in Ht.
  unfold target_capacity, RT_BUCKET_COUNT_MIN in Ht.
  pose proof (ceil_div_spec (n * 100) RT_LOAD_FACTOR_PCT_MAX ltac:(reflexivity)) as Hc.
  set (raw := ceil_div (n * 100) RT_LOAD_FACTOR_PCT_MAX) in *.
  unfold RT_LOAD_FACTOR_PCT_MAX in *.
  destruct (Z.ltb_spec raw 32) as [Hlt | Hge].
  - rewrite Ht. split; [|lia].
    change (32 * 75 / 100) with 24. lia.
  - pose proof (Z.log2_up_spec raw ltac:(lia)) as (Hlo & Hhi). rewrite <- Ht in Hhi.
    assert (H32 : 32 <= r) by lia.
    split.
    + destruct (pow2_ge_4_div r e Hr ltac:(lia)) as (t & Hrt).
      rewrite Hrt. replace (4 * t * 75) with (3 * t * 100) by lia.
      rewrite Z.div_mul by lia. lia.
    + intros Hbig.
      destruct (pow2_split_8 r e ltac:(lia) Hr Hbig) as (s & Hs & Hrs).
      assert (Hhalf : r / 2 = 4 * s).
      { rewrite Hrs. replace (8 * s) with (4 * s * 2) by lia. apply Z.div_mul. lia. }
      assert (Hpred : 2 ^ Z.pred (Z.log2_up raw) = r / 2).
      { rewrite Ht.
        replace (Z.log2_up raw) with (Z.succ (Z.pred (Z.log2_up raw))) at 2 by lia.
        assert (0 < Z.log2_up raw) by (apply Z.log2_up_pos; lia).
        rewrite Z.pow_succ_r by lia.
        rewrite Z.mul_comm, Z.div_mul by lia. reflexivity. }
      rewrite Hpred in Hlo.
      rewrite Hhalf in *. replace (4 * s * 75) with (3 * s * 100) by lia.
      rewrite Z.div_mul by lia. lia.
Qed.

Lemma calc_bucket_count_least_sufficient_witness :
  0 <= 25 /\ 25 * 100 < 2 ^ 64 /\
  robin_table_calc_bucket_count 25 = 64 /\
  let r := robin_table_calc_bucket_count 25 in
  (exists e, 5 <= e /\ r = 2 ^ e) /\
  25 <= r * RT_LOAD_FACTOR_PCT_MAX / 100 /\
  (32 < r -> r / 2 * RT_LOAD_FACTOR_PCT_MAX / 100 < 25).
Proof.
  assert (H1 : 0 <= 25) by lia.
  assert (H2 : 25 * 100 < 2 ^ 64) by lia.
  exact (conj H1 (conj H2 (conj eq_refl
           (calc_bucket_count_least_sufficient 25 H1 H2)))).
Defined.

(** ** A table sized for its entries *)

Lemma run_refused_puts kvs : forall rt,
  WF rt -> count rt + Z.of_nat (length kvs) <= expand_at rt ->
  Forall (fun kv => fst kv <> []) kvs ->
  NoDup (map fst kvs) ->
  Forall (fun kv => absent rt (fst kv)) kvs ->
  exists obs rt',
    run rt (refused_puts kvs) = Done (obs, rt') /\ WF rt' /\
    map fst obs = map snd kvs /\
    bucket_count rt' = bucket_count rt /\
    count rt' = count rt + Z.of_nat (length kvs) /\
    forall k v, holds rt' k v <-> holds rt k v \/ (k, v) ∈ kvs.
Proof.
  induction kvs as [|[k v] kvs IH]; intros rt W Hload Hne Hnd Hab.
  - exists [], rt. split; [reflexivity|]. split; [exact W|].
    split; [reflexivity|]. split; [reflexivity|]. split; [simpl; lia|].
    intros k v. rewrite elem_of_nil. tauto.
  - apply Forall_cons in Hne. destruct Hne as [Hk Hne].
    apply Forall_cons in Hab. destruct Hab as [Habk Hab].
    cbn [map fst] in Hnd. apply NoDup_cons in Hnd. destruct Hnd as [Hnotin Hnd].
    cbn [fst] in Hk, Habk. cbn [length] in Hload.
    assert (Hng : must_grow rt = false).
    { unfold must_grow. apply Z.leb_gt. lia. }
    destruct (robin_table_put_absent rt W k Hk false v (or_introl Hng) Habk)
      as (rt1 & Hput & W1 & Hbc1 & _ & _ & _ & Hc1 & Hh1).
    rewrite Hng in Hbc1.
    assert (Hex : expand_at rt1 = expand_at rt).
    { rewrite (geo_expand rt1 (inv_geometry rt1 (proj1 W1))),
        (geo_expand rt (inv_geometry rt (proj1 W))), Hbc1. reflexivity. }
    destruct (IH rt1 W1) as (obs & rt' & Hrun & W' & Hobs & Hbc' & Hc' & Hh');
      try assumption.
    + rewrite Hex, Hc1. lia.
    + apply Forall_forall. intros [k' v'] Hin. cbn [fst].
      apply not_holds_absent. intros v0 Hv0. apply Hh1 in Hv0.
      destruct Hv0 as [Hv0 | (-> & _)].
      * rewrite Forall_forall in Hab.
        exact (absent_not_holds rt k' v0 (Hab (k', v') Hin) Hv0).
      * apply Hnotin. apply list_elem_of_fmap. exists (k, v'). split; [reflexivity | exact Hin].
    + exists ((v, robin_table_count rt1) :: obs), rt'.
      split.
      * cbn [refused_puts map run step fst snd]. rewrite Hput, bind_done.
        fold (refused_puts kvs). rewrite Hrun, bind_done. reflexivity.
      * split; [exact W'|]. split; [cbn [map fst snd]; rewrite Hobs; reflexivity|].
        split; [congruence|]. split; [cbn [length]; lia|].
        intros k' v'. rewrite Hh', Hh1, elem_of_cons. split.
        -- intros [[H | (-> & ->)] | H]; [left; exact H | right; left; reflexivity
                                          | right; right; exact H].
        -- intros [H | [[= -> ->] | H]]; [left; left; exact H | left; right; tauto
                                          | right; exact H].
Qed.

(** X18 (a table sized for [n] entries takes them without growing).  On a
    table created for an expected count [n] (with [n * 100] below
    [2 ^ 64]), up to [n] puts of distinct non-empty keys all succeed even
    if the allocator refuses every request: each returns the value it was
    given, the bucket array stays the one allocated at creation, the count
    ends as the number of puts, and every key reads back its value. *)
Theorem created_table_takes_expected_entries dflt a1 a2 n hf sd rt kvs :
  0 <= n -> n * 100 < 2 ^ 64 ->
  robin_table_create dflt a1 a2 n hf sd = Some rt ->
  Forall (fun kv => fst kv <> []) kvs ->
  NoDup (map fst kvs) ->
  Z.of_nat (length kvs) <= n ->
  exists obs rt',
    run rt (refused_puts kvs) = Done (obs, rt') /\
    map fst obs = map snd kvs /\
    bucket_count rt' = bucket_count rt /\
    robin_table_count rt' = Z.of_nat (length kvs) /\
    Forall (fun kv => robin_table_get rt' (fst kv) = Done (snd kv)) kvs.
Proof.
  intros Hn Hov Hc Hne Hnd Hlen.
  pose proof (robin_table_create_spec _ _ _ _ _ _ _ Hc)
    as (W & C & B & _ & _ & _ & _ & E).
  pose proof (calc_bucket_count_least_sufficient n Hn Hov) as Hcap.
  cbv zeta in Hcap. destruct Hcap as (_ & Hfit & _). rewrite <- B in Hfit.
  rewrite <- (geo_expand rt (inv_geometry rt (proj1 W))) in Hfit.
  destruct (run_refused_puts kvs rt W) as (obs & rt' & Hrun & W' & Hobs & Hbc & Hcnt & Hh);
    try assumption.
  - lia.
  - apply Forall_forall. intros kv _. apply not_holds_absent. intros v. apply E.
  - exists obs, rt'. split; [exact Hrun|]. split; [exact Hobs|]. split; [exact Hbc|].
    split; [unfold robin_table_count; lia|].
    apply Forall_forall. intros [k v] Hin. cbn [fst snd].
    rewrite Forall_forall in Hne.
    apply (robin_table_get_present rt' (proj1 W') k (Hne (k, v) Hin)).
    apply Hh. right. exact Hin.
Qed.

Lemma created_table_takes_expected_entries_witness :
  exists rt,
    0 <= 24 /\ 24 * 100 < 2 ^ 64 /\
    robin_table_create first_byte_hash true true 24 None 0 = Some rt /\
    Forall (fun kv => fst kv <> []) [([1], 11); ([33], 12); ([2], 13)] /\
    NoDup (map fst [([1], 11); ([33], 12); ([2], 13)]) /\
    Z.of_nat (length [([1], 11); ([33], 12); ([2], 13)]) <= 24 /\
    exists obs rt',
      run rt (refused_puts [([1], 11); ([33], 12); ([2], 13)]) = Done (obs, rt') /\
      map fst obs = map snd [([1], 11); ([33], 12); ([2], 13)] /\
      bucket_count rt' = bucket_count rt /\
      robin_table_count rt' = Z.of_nat (length [([1], 11); ([33], 12); ([2], 13)]) /\
      Forall (fun kv => robin_table_get rt' (fst kv) = Done (snd kv))
             [([1], 11); ([33], 12); ([2], 13)].
Proof.
  assert (Hok : malloc_ok true (robin_table_calc_bucket_count 24 * sizeof_bucket) = true)
    by (vm_compute; reflexivity).
  pose proof (robin_table_create_ok first_byte_hash 24 None 0 Hok) as Hc.
  assert (H1 : 0 <= 24) by lia.
  assert (H2 : 24 * 100 < 2 ^ 64) by lia.
  assert (H3 : Forall (fun kv : key_t * Z => fst kv <> [])
                 [([1], 11); ([33], 12); ([2], 13)]).
  { repeat (apply List.Forall_cons; [discriminate|]). apply List.Forall_nil. }
  assert (H4 : NoDup (map fst [([1], 11); ([33], 12); ([2], 13)] : list key_t)).
  { apply (bool_decide_unpack _). vm_compute. reflexivity. }
  assert (H5 : Z.of_nat (length [([1], 11); ([33], 12); ([2], 13)]) <= 24)
    by (simpl; lia).
  eexists.
  exact (conj H1 (conj H2 (conj Hc (conj H3 (conj H4 (conj H5
           (created_table_takes_expected_entries first_byte_hash true true 24 None 0 _
              [([1], 11); ([33], 12); ([2], 13)] H1 H2 Hc H3 H4 H5))))))).
Defined.

Lemma run_app ops1 : forall rt ops2 obs1 rt1 obs2 rt2,
  run rt ops1 = Done (obs1, rt1) -> run rt1 ops2 = Done (obs2, rt2) ->
  run rt (ops1 ++ ops2) = Done (obs1 ++ obs2, rt2).
Proof.
  induction ops1 as [|[o avail] ops1 IH]; intros rt ops2 obs1 rt1 obs2 rt2 H1 H2.
  - cbn [run] in H1. injection H1 as <- <-. exact H2.
  - cbn [run app] in *.
    destruct (step rt o avail) as [[r rt0]| |]; try discriminate.
    rewrite bind_done in *.
    destruct (run rt0 ops1) as [[obs0 rt0']| |] eqn:E; try discriminate.
    rewrite bind_done in H1. injection H1 as <- <-.
    rewrite (IH rt0 ops2 obs0 rt0' obs2 rt2 E H2), bind_done. reflexivity.
Qed.

Lemma run_refused_dels kvs : forall rt,
  WF rt ->
  Forall (fun kv => fst kv <> []) kvs ->
  NoDup (map fst kvs) ->
  Forall (fun kv => holds rt (fst kv) (snd kv)) kvs ->
  exists obs rt',
    run rt (refused_dels (map fst kvs)) = Done (obs, rt') /\ WF rt' /\
    map fst obs = map snd kvs /\
    bucket_count rt' = bucket_count rt /\
    count rt' = count rt - Z.of_nat (length kvs) /\
    forall k v, holds rt' k v <-> holds rt k v /\ k ∉ map fst kvs.
Proof.
  induction kvs as [|[k v] kvs IH]; intros rt W Hne Hnd Hh.
  - exists [], rt. split; [reflexivity|]. split; [exact W|].
    split; [reflexivity|]. split; [reflexivity|]. split; [simpl; lia|].
    intros k v. cbn [map]. rewrite elem_of_nil. tauto.
  - apply Forall_cons in Hne. destruct Hne as [Hk Hne].
    apply Forall_cons in Hh. destruct Hh as [Hhk Hh].
    cbn [map fst] in Hnd. apply NoDup_cons in Hnd. destruct Hnd as [Hnotin Hnd].
    cbn [fst snd] in Hk, Hhk.
    destruct (robin_table_del_present rt W k Hk false v Hhk)
      as (rt1 & Hdel & W1 & Hbc1 & _ & _ & _ & Hc1 & Hh1).
    assert (Hno : must_shrink rt && shrink_ok false rt = false)
      by (unfold shrink_ok, malloc_ok; cbn [andb]; apply andb_false_r).
    rewrite Hno in Hbc1.
    destruct (IH rt1 W1 Hne Hnd) as (obs & rt' & Hrun & W' & Hobs & Hbc' & Hc' & Hh').
    + apply Forall_forall. intros [k' v'] Hin. cbn [fst snd]. apply Hh1.
      rewrite Forall_forall in Hh. split; [exact (Hh (k', v') Hin)|].
      intros ->. apply Hnotin. apply list_elem_of_fmap. exists (k, v'). split; [reflexivity | exact Hin].
    + exists ((v, robin_table_count rt1) :: obs), rt'.
      split.
      * cbn [refused_dels map run step fst]. rewrite Hdel, bind_done.
        fold (refused_dels (map fst kvs)). rewrite Hrun, bind_done. reflexivity.
      * split; [exact W'|]. split; [cbn [map fst snd]; rewrite Hobs; reflexivity|].
        split; [congruence|]. split; [cbn [length]; lia|].
        intros k' v'. rewrite Hh', Hh1. cbn [map fst]. rewrite not_elem_of_cons. tauto.
Qed.

(** X27 (filling a table and emptying it again).  On a table created for
    an expected count [n] (with [n * 100] below [2 ^ 64]), putting up to
    [n] distinct non-empty keys and then deleting each of them succeeds
    call by call with the allocator refusing every request: every put and
    every del returns the value of its key, the table ends with count 0
    and [get] returning [NULL] for every key, and the bucket array is the
    one allocated at creation throughout. *)
Theorem fill_then_empty dflt a1 a2 n hf sd rt kvs :
  0 <= n -> n * 100 < 2 ^ 64 ->
  robin_table_create dflt a1 a2 n hf sd = Some rt ->
  Forall (fun kv => fst kv <> []) kvs ->
  NoDup (map fst kvs) ->
  Z.of_nat (length kvs) <= n ->
  exists obs1 obs2 rt',
    run rt (refused_puts kvs ++ refused_dels (map fst kvs)) = Done (obs1 ++ obs2, rt') /\
    map fst obs1 = map snd kvs /\
    map fst obs2 = map snd kvs /\
    robin_table_count rt' = 0 /\
    bucket_count rt' = bucket_count rt /\
    forall k, k <> [] -> robin_table_get rt' k = Done NULL.
Proof.
  intros Hn Hov Hc Hne Hnd Hlen.
  pose proof (robin_table_create_spec _ _ _ _ _ _ _ Hc)
    as (W & C & B & _ & _ & _ & _ & E).
  pose proof (calc_bucket_count_least_sufficient n Hn Hov) as Hcap.
  cbv zeta in Hcap. destruct Hcap as (_ & Hfit & _). rewrite <- B in Hfit.
  rewrite <- (geo_expand rt (inv_geometry rt (proj1 W))) in Hfit.
  destruct (run_refused_puts kvs rt W)
    as (obs1 & rt1 & Hrun1 & W1 & Hobs1 & Hbc1 & Hcnt1 & Hh1); try assumption.
  { lia. }
  { apply Forall_forall. intros kv _. apply not_holds_absent. intros v. apply E. }
  destruct (run_refused_dels kvs rt1 W1 Hne Hnd)
    as (obs2 & rt2 & Hrun2 & W2 & Hobs2 & Hbc2 & Hcnt2 & Hh2).
  { apply Forall_forall. intros [k v] Hin. cbn [fst snd]. apply Hh1. right. exact Hin. }
  exists obs1, obs2, rt2.
  split; [exact (run_app _ _ _ _ _ _ _ Hrun1 Hrun2)|].
  split; [exact Hobs1|]. split; [exact Hobs2|].
  split; [unfold robin_table_count; lia|]. split; [congruence|].
  intros k Hk. pose proof (WF_room rt2 W2) as Hroom.
  apply (robin_table_get_absent rt2 (proj1 W2) ltac:(lia) k Hk).
  apply not_holds_absent. intros v Hv. apply Hh2 in Hv. destruct Hv as (Hv & Hnotin).
  apply Hh1 in Hv. destruct Hv as [Hv | Hin]; [exact (E k v Hv)|].
  apply Hnotin. apply list_elem_of_fmap. exists (k, v). split; [reflexivity | exact Hin].
Qed.

Lemma fill_then_empty_witness :
  exists rt,
    0 <= 24 /\ 24 * 100 < 2 ^ 64 /\
    robin_table_create first_byte_hash true true 24 None 0 = Some rt /\
    Forall (fun kv => fst kv <> []) [([1], 11); ([33], 12); ([2], 13)] /\
    NoDup (map fst [([1], 11); ([33], 12); ([2], 13)]) /\
    Z.of_nat (length [([1], 11); ([33], 12); ([2], 13)]) <= 24 /\
    exists obs1 obs2 rt',
      run rt (refused_puts [([1], 11); ([33], 12); ([2], 13)]
              ++ refused_dels (map fst [([1], 11); ([33], 12); ([2], 13)]))
      = Done (obs1 ++ obs2, rt') /\
      map fst obs1 = map snd [([1], 11); ([33], 12); ([2], 13)] /\
      map fst obs2 = map snd [([1], 11); ([33], 12); ([2], 13)] /\
      robin_table_count rt' = 0 /\
      bucket_count rt' = bucket_count rt /\
      forall k, k <> [] -> robin_table_get rt' k = Done NULL.
Proof.
  assert (Hok : malloc_ok true (robin_table_calc_bucket_count 24 * sizeof_bucket) = true)
    by (vm_compute; reflexivity).
  pose proof (robin_table_create_ok first_byte_hash 24 None 0 Hok) as Hc.
  assert (H1 : 0 <= 24) by lia.
  assert (H2 : 24 * 100 < 2 ^ 64) by lia.
  assert (H3 : Forall (fun kv : key_t * Z => fst kv <> [])
                 [([1], 11); ([33], 12); ([2], 13)]).
  { repeat (apply List.Forall_cons; [discriminate|]). apply List.Forall_nil. }
  assert (H4 : NoDup (map fst [([1], 11); ([33], 12); ([2], 13)] : list key_t)).
  { apply (bool_decide_unpack _). vm_compute. reflexivity. }
  assert (H5 : Z.of_nat (length [([1], 11); ([33], 12); ([2], 13)]) <= 24)
    by (simpl; lia).
  eexists.
  exact (conj H1 (conj H2 (conj Hc (conj H3 (conj H4 (conj H5
           (fill_then_empty first_byte_hash true true 24 None 0 _
              [([1], 11); ([33], 12); ([2], 13)] H1 H2 Hc H3 H4 H5))))))).
Defined.

(** * Iteration *)

Lemma wrap64_succ_pred j : 0 <= j < 2 ^ 64 -> wrap64 (wrap64 (j - 1) + 1) = j.
Proof.
  intros Hj. unfold wrap64. rewrite Zplus_mod_idemp_l.
  replace (j - 1 + 1) with j by lia. apply Z.mod_small. exact Hj.
Qed.

Lemma iter_next_loop_S fuel rt it :
  iter_next_loop (S fuel) rt it =
  if wrap64 (idx it + 1) <? bucket_count rt then
    match key (slot rt (wrap64 (idx it + 1))) with
    | Some k =>
        Done (true, {| iter := {| iter_key := Some k;
                                  iter_val := val (slot rt (wrap64 (idx it + 1))) |};
                       idx := wrap64 (idx it + 1) |})
    | None => iter_next_loop fuel rt {| iter := iter it; idx := wrap64 (idx it + 1) |}
    end
  else
    Done (false, {| iter := {| iter_key := None; iter_val := NULL |};
                    idx := wrap64 (idx it + 1) |}).
Proof. reflexivity. Qed.

Lemma entries_cons b bs :
  entries (b :: bs) =
  if is_null (key b) then entries bs else mk_iter (key b) (val b) :: entries bs.
Proof. unfold entries. cbn [List.filter]. destruct (is_null (key b)); reflexivity. Qed.

Lemma entries_drop_empty bs (m : nat) : forall j,
  0 <= j -> j + Z.of_nat m <= Z.of_nat (length bs) ->
  (forall i, j <= i < j + Z.of_nat m -> key (bucket_at bs i) = None) ->
  entries (drop (Z.to_nat j) bs) = entries (drop (Z.to_nat (j + Z.of_nat m)) bs).
Proof.
  induction m as [|m IH]; intros j Hj Hlen Hemp.
  - replace (j + Z.of_nat 0) with j by lia. reflexivity.
  - rewrite (drop_buckets_cons bs j) by lia.
    rewrite entries_cons, (Hemp j) by lia. cbn [is_null].
    rewrite (IH (j + 1)) by (try lia; intros i Hi; apply Hemp; lia).
    f_equal. f_equal. lia.
Qed.

Lemma length_entries bs : Z.of_nat (length (entries bs)) = occ_count bs.
Proof.
  induction bs as [|b bs IH]; [reflexivity|].
  rewrite entries_cons. cbn [occ_count]. unfold occ.
  destruct (is_null (key b)); cbn [length]; lia.
Qed.

Lemma elem_of_entries bs k v :
  mk_iter (Some k) v ∈ entries bs <-> exists b, b ∈ bs /\ key b = Some k /\ val b = v.
Proof.
  induction bs as [|b bs IH].
  - unfold entries. cbn. rewrite elem_of_nil. split; [tauto|].
    intros (b & Hb & _). apply elem_of_nil in Hb. exact Hb.
  - rewrite entries_cons.
    destruct (key b) as [kb|] eqn:Ekb; cbn [is_null].
    + rewrite elem_of_cons, IH. split.
      * intros [[= -> ->] | (b' & Hin & Hb')].
        -- exists b. split; [left | split; [exact Ekb | reflexivity]].
        -- exists b'. split; [right; exact Hin | exact Hb'].
      * intros (b' & Hin & Hk' & Hv'). apply elem_of_cons in Hin.
        destruct Hin as [-> | Hin].
        -- left. f_equal; congruence.
        -- right. exists b'. tauto.
    + rewrite IH. split.
      * intros (b' & Hin & Hb'). exists b'. split; [right; exact Hin | exact Hb'].
      * intros (b' & Hin & Hk' & Hv'). apply elem_of_cons in Hin.
        destruct Hin as [-> | Hin]; [congruence|]. exists b'. tauto.
Qed.

Lemma entries_keys_occupied bs o :
  o ∈ map iter_key (entries bs) -> exists b k, b ∈ bs /\ key b = Some k /\ o = Some k.
Proof.
  induction bs as [|b bs IH].
  - unfold entries. cbn. intros H. apply elem_of_nil in H. contradiction.
  - rewrite entries_cons. destruct (key b) as [kb|] eqn:Ekb; cbn [is_null map iter_key].
    + rewrite elem_of_cons. intros [-> | H].
      * exists b, kb. split; [left | tauto].
      * destruct (IH H) as (b' & k & Hin & Hb'). exists b', k. split; [right; exact Hin | exact Hb'].
    + intros H. destruct (IH H) as (b' & k & Hin & Hb').
      exists b', k. split; [right; exact Hin | exact Hb'].
Qed.

Lemma NoDup_entries_keys bs :
  (forall (i j : nat) b b' k,
      bs !! i = Some b -> bs !! j = Some b' ->
      key b = Some k -> key b' = Some k -> i = j) ->
  NoDup (map iter_key (entries bs)).
Proof.
  induction bs as [|b bs IH]; intros Hd.
  - unfold entries. cbn. apply NoDup_nil_2.
  - assert (Hd' : forall (i j : nat) b0 b' k,
               bs !! i = Some b0 -> bs !! j = Some b' ->
               key b0 = Some k -> key b' = Some k -> i = j).
    { intros i j b0 b' k Hi Hj Hk Hk'.
      assert (S i = S j) by exact (Hd (S i) (S j) b0 b' k Hi Hj Hk Hk'). lia. }
    rewrite entries_cons. destruct (key b) as [kb|] eqn:Ekb; cbn [is_null map iter_key].
    + apply NoDup_cons. split; [|exact (IH Hd')].
      intros Hin. destruct (entries_keys_occupied bs _ Hin) as (b' & k & Hb' & Hk' & [= <-]).
      apply list_elem_of_lookup in Hb'. destruct Hb' as (j & Hj).
      assert (0%nat = S j) by exact (Hd 0%nat (S j) b b' kb eq_refl Hj Ekb Hk').
      discriminate.
    + exact (IH Hd').
Qed.

Section Iteration.

Variable rt : robin_table_t.
Hypothesis G : geometry rt.

Lemma iter_next_loop_spec (d : nat) : forall j it fuel,
  0 <= j -> Z.of_nat d = bucket_count rt - j ->
  idx it = wrap64 (j - 1) -> (d < fuel)%nat ->
  (exists j', j <= j' < bucket_count rt /\
     (forall i, j <= i < j' -> key (slot rt i) = None) /\
     key (slot rt j') <> None /\
     iter_next_loop fuel rt it
     = Done (true, mk_iter_impl (mk_iter (key (slot rt j')) (val (slot rt j'))) j')) \/
  ((forall i, j <= i < bucket_count rt -> key (slot rt i) = None) /\
   iter_next_loop fuel rt it
   = Done (false, mk_iter_impl (mk_iter None NULL) (bucket_count rt))).
Proof.
  pose proof (geo_small rt G) as Hsmall.
  induction d as [|d IH]; intros j it fuel Hj Hd Hidx Hfuel;
    (destruct fuel as [|fuel]; [lia|]);
    rewrite iter_next_loop_S, Hidx, wrap64_succ_pred by lia.
  - right. assert (j = bucket_count rt) as -> by lia.
    rewrite Z.ltb_irrefl. split; [intros i Hi; lia | reflexivity].
  - destruct (Z.ltb_spec j (bucket_count rt)) as [Hlt|]; [|lia].
    destruct (key (slot rt j)) as [k|] eqn:Ek.
    + left. exists j. split; [lia|]. split; [intros i Hi; lia|].
      rewrite Ek. split; [discriminate | reflexivity].
    + destruct (IH (j + 1) {| iter := iter it; idx := j |} fuel)
        as [(j' & Hj' & Hemp & Hocc & Hrun) | (Hemp & Hrun)]; try lia.
      * cbn [idx]. replace (j + 1 - 1) with j by lia. symmetry. apply wrap64_small. lia.
      * left. exists j'. split; [lia|]. split; [|split; assumption].
        intros i Hi. destruct (Z.eq_dec i j) as [-> | Hne]; [exact Ek | apply Hemp; lia].
      * right. split; [|exact Hrun].
        intros i Hi. destruct (Z.eq_dec i j) as [-> | Hne]; [exact Ek | apply Hemp; lia].
Qed.

Lemma robin_table_iter_next_spec j it :
  0 <= j <= bucket_count rt -> idx it = wrap64 (j - 1) ->
  (exists j', j <= j' < bucket_count rt /\
     (forall i, j <= i < j' -> key (slot rt i) = None) /\
     key (slot rt j') <> None /\
     robin_table_iter_next rt it
     = Done (true, mk_iter_impl (mk_iter (key (slot rt j')) (val (slot rt j'))) j')) \/
  ((forall i, j <= i < bucket_count rt -> key (slot rt i) = None) /\
   robin_table_iter_next rt it
   = Done (false, mk_iter_impl (mk_iter None NULL) (bucket_count rt))).
Proof.
  intros Hj Hidx. unfold robin_table_iter_next, probe_budget.
  apply (iter_next_loop_spec (Z.to_nat (bucket_count rt - j)) j); lia.
Qed.

Lemma iter_drain_spec (d : nat) : forall j it fuel,
  0 <= j <= bucket_count rt -> bucket_count rt - j <= Z.of_nat d ->
  idx it = wrap64 (j - 1) -> (d < fuel)%nat ->
  iter_drain fuel rt it
  = Done (entries (drop (Z.to_nat j) (buckets rt)),
          mk_iter_impl (mk_iter None NULL) (bucket_count rt)).
Proof.
  pose proof (geo_small rt G) as Hsmall. pose proof (geo_len rt G) as Hlen.
  assert (Hstop : forall j, 0 <= j <= bucket_count rt ->
            (forall i, j <= i < bucket_count rt -> key (slot rt i) = None) ->
            entries (drop (Z.to_nat j) (buckets rt)) = []).
  { intros j Hj Hemp.
    rewrite (entries_drop_empty (buckets rt) (Z.to_nat (bucket_count rt - j)) j);
      try lia.
    - rewrite drop_ge by lia. reflexivity.
    - intros i Hi. apply Hemp. lia. }
  assert (Hmore : forall j j', 0 <= j <= j' -> j' < bucket_count rt ->
            (forall i, j <= i < j' -> key (slot rt i) = None) ->
            key (slot rt j') <> None ->
            entries (drop (Z.to_nat j) (buckets rt))
            = mk_iter (key (slot rt j')) (val (slot rt j'))
              :: entries (drop (Z.to_nat (j' + 1)) (buckets rt))).
  { intros j j' Hj Hj' Hemp Hocc.
    rewrite (entries_drop_empty (buckets rt) (Z.to_nat (j' - j)) j); try lia.
    - replace (j + Z.of_nat (Z.to_nat (j' - j))) with j' by lia.
      rewrite (drop_buckets_cons (buckets rt) j') by lia.
      rewrite entries_cons. fold (slot rt j').
      destruct (key (slot rt j')); [reflexivity | contradiction].
    - intros i Hi. apply Hemp. lia. }
  induction d as [|d IH]; intros j it fuel Hj Hd Hidx Hfuel;
    (destruct fuel as [|fuel]; [lia|]); cbn [iter_drain];
    destruct (robin_table_iter_next_spec j it Hj Hidx)
      as [(j' & Hj' & Hemp & Hocc & Hrun) | (Hemp & Hrun)];
    rewrite Hrun, bind_done; try lia.
  - rewrite (Hstop j Hj Hemp). reflexivity.
  - rewrite (IH (j' + 1) _ fuel); try lia.
    + rewrite bind_done. cbn [iter]. rewrite (Hmore j j'); try lia; try assumption.
      reflexivity.
    + cbn [idx]. replace (j' + 1 - 1) with j' by lia. symmetry. apply wrap64_small. lia.
  - rewrite (Hstop j Hj Hemp). reflexivity.
Qed.

End Iteration.

Lemma lookup_slot rt (i : nat) b :
  geometry rt -> buckets rt !! i = Some b ->
  in_range rt (Z.of_nat i) /\ slot rt (Z.of_nat i) = b.
Proof.
  intros G Hi. pose proof (lookup_lt_Some _ _ _ Hi) as Hlt.
  split; [unfold in_range; rewrite <- (geo_len rt G); lia|].
  unfold slot. rewrite bucket_at_lookup, Nat2Z.id, Hi. reflexivity.
Qed.

(** X19 (a traversal yields every entry exactly once).  On a reachable
    table, the loop [while (robin_table_iter_next(iter))] started on a
    fresh iterator ends, and its body sees the key and value of every
    occupied bucket in array order: as many pairs as
    [robin_table_count] reports, each with a non-[NULL] key, no key twice,
    and exactly the pairs the table holds.  When the loop ends the
    iterator's [key] and [val] are [NULL]. *)
Theorem traversal_yields_every_entry_once dflt rt avail it :
  reachable dflt rt ->
  robin_table_iter_create avail rt = Some it ->
  exists ys it',
    iter_drain (probe_budget rt) rt it = Done (ys, it') /\
    ys = entries (buckets rt) /\
    Z.of_nat (length ys) = robin_table_count rt /\
    (forall k v, mk_iter (Some k) v ∈ ys <-> holds rt k v) /\
    Forall (fun y => iter_key y <> None) ys /\
    NoDup (map iter_key ys) /\
    iter it' = mk_iter None NULL.
Proof.
  intros Hr Hc. destruct (reachable_WF dflt rt Hr) as (I & _).
  pose proof (inv_geometry rt I) as G. pose proof (geo_big rt G) as Hbig.
  unfold robin_table_iter_create in Hc.
  destruct avail; cbn [negb] in Hc; [|discriminate]. injection Hc as <-.
  exists (entries (buckets rt)), (mk_iter_impl (mk_iter None NULL) (bucket_count rt)).
  split.
  - rewrite (iter_drain_spec rt G (Z.to_nat (bucket_count rt)) 0); try lia.
    + reflexivity.
    + reflexivity.
    + unfold probe_budget. lia.
  - split; [reflexivity|]. split.
    + rewrite length_entries. symmetry. exact (inv_count rt I).
    + split; [|split; [|split; [|reflexivity]]].
      * intros k v. rewrite elem_of_entries. split.
        -- intros (b & Hin & Hk & Hv). apply (elem_of_buckets rt b G) in Hin.
           destruct Hin as (i & Hi & <-). exists i. tauto.
        -- intros (i & Hi & Hk & Hv). exists (slot rt i).
           split; [apply (elem_of_buckets rt _ G); eauto | tauto].
      * apply Forall_forall. intros y Hy.
        assert (Hin : iter_key y ∈ map iter_key (entries (buckets rt)))
          by (apply list_elem_of_fmap; exists y; split; [reflexivity | exact Hy]).
        destruct (entries_keys_occupied _ _ Hin) as (b & k & _ & _ & ->). discriminate.
      * apply NoDup_entries_keys. intros i j b b' k Hi Hj Hk Hk'.
        destruct (lookup_slot rt i b G Hi) as (Hri & <-).
        destruct (lookup_slot rt j b' G Hj) as (Hrj & <-).
        pose proof (inv_distinct rt I _ _ k Hri Hrj Hk Hk'). lia.
Qed.

Lemma traversal_yields_every_entry_once_witness :
  exists it,
    reachable first_byte_hash chain_table /\
    robin_table_iter_create true chain_table = Some it /\
    iter_drain (probe_budget chain_table) chain_table it
    = Done ([mk_iter (Some [1]) 11; mk_iter (Some [33]) 12],
            mk_iter_impl (mk_iter None NULL) 32) /\
    exists ys it',
      iter_drain (probe_budget chain_table) chain_table it = Done (ys, it') /\
      ys = entries (buckets chain_table) /\
      Z.of_nat (length ys) = robin_table_count chain_table /\
      (forall k v, mk_iter (Some k) v ∈ ys <-> holds chain_table k v) /\
      Forall (fun y => iter_key y <> None) ys /\
      NoDup (map iter_key ys) /\
      iter it' = mk_iter None NULL.
Proof.
  eexists.
  refine (conj chain_table_reachable (conj eq_refl (conj _
            (traversal_yields_every_entry_once first_byte_hash chain_table true _
               chain_table_reachable eq_refl)))).
  vm_compute. reflexivity.
Defined.

(** * Probe statistics *)

Lemma psl_max_loop_spec rt (m : nat) : forall i M0,
  let M := psl_max_loop m i rt M0 in
  M0 <= M /\
  (forall j, i <= j < i + Z.of_nat m -> key (slot rt j) <> None -> psl (slot rt j) <= M) /\
  (M = M0 \/
   exists j, i <= j < i + Z.of_nat m /\ key (slot rt j) <> None /\ psl (slot rt j) = M).
Proof.
  induction m as [|m IH]; intros i M0; cbn [psl_max_loop]; cbv zeta.
  - split; [lia|]. split; [intros j Hj; lia | left; reflexivity].
  - fold (slot rt i).
    set (M1 := if negb (is_null (key (slot rt i))) && (M0 <? psl (slot rt i))
               then psl (slot rt i) else M0).
    destruct (IH (i + 1) M1) as (Hge & Hub & Hatt). cbv zeta in Hge, Hub, Hatt.
    assert (H1 : M0 <= M1 /\ (key (slot rt i) <> None -> psl (slot rt i) <= M1) /\
                 (M1 = M0 \/ (key (slot rt i) <> None /\ psl (slot rt i) = M1))).
    { unfold M1. destruct (key (slot rt i)) as [k|]; cbn [is_null negb andb].
      - destruct (Z.ltb_spec M0 (psl (slot rt i))).
        + split; [lia|]. split; [lia|]. right. split; [discriminate | reflexivity].
        + split; [lia|]. split; [lia|]. left. reflexivity.
      - split; [lia|]. split; [contradiction | left; reflexivity]. }
    destruct H1 as (Hge1 & Hub1 & Hatt1).
    split; [lia|]. split.
    + intros j Hj Hocc. destruct (Z.eq_dec j i) as [-> | Hne].
      * specialize (Hub1 Hocc). lia.
      * apply Hub; [lia | exact Hocc].
    + destruct Hatt as [Heq | (j & Hj & Hocc & Hp)].
      * destruct Hatt1 as [Heq1 | (Hocc & Hp)].
        -- left. lia.
        -- right. exists i. split; [lia|]. split; [exact Hocc | lia].
      * right. exists j. split; [lia|]. split; assumption.
Qed.

Lemma occ_count_pos_exists bs :
  occ_count bs <> 0 ->
  exists i, 0 <= i < Z.of_nat (length bs) /\ key (bucket_at bs i) <> None.
Proof.
  induction bs as [|b bs IH]; cbn [occ_count]; intros H; [contradiction|].
  destruct (key b) as [k|] eqn:Ek.
  - exists 0. split; [cbn [length]; lia|].
    change (key b <> None). rewrite Ek. discriminate.
  - rewrite (occ_empty b Ek) in H. destruct IH as (i & Hi & Hk); [lia|].
    exists (i + 1). split; [cbn [length]; lia|].
    unfold bucket_at in *. replace (Z.to_nat (i + 1)) with (S (Z.to_nat i)) by lia.
    exact Hk.
Qed.

Lemma occ_count_app bs1 bs2 : occ_count (bs1 ++ bs2) = occ_count bs1 + occ_count bs2.
Proof. induction bs1 as [|b bs1 IH]; cbn [app occ_count]; lia. Qed.

(** The indices of the occupied slots. *)
Lemma length_occupied_indices bs :
  Z.of_nat (length (List.filter
                      (fun i => negb (is_null (key (nth i bs zero_bucket))))
                      (seq 0 (length bs))))
  = occ_count bs.
Proof.
  induction bs as [|b bs IH] using rev_ind; [reflexivity|].
  rewrite length_app. cbn [length]. rewrite Nat.add_1_r, seq_S, List.filter_app.
  rewrite length_app, occ_count_app, Nat2Z.inj_add. cbn [Nat.add].
  rewrite <- IH. f_equal.
  - f_equal. f_equal. apply List.filter_ext_in. intros i Hi.
    apply in_seq in Hi. rewrite app_nth1 by lia. reflexivity.
  - cbn [List.filter]. rewrite app_nth2 by lia. rewrite Nat.sub_diag. cbn [nth].
    cbn [occ_count]. unfold occ. destruct (is_null (key b)); reflexivity.
Qed.

(** An entry of probe sequence length [M] is preceded by [M] occupied
    slots: a table has more entries than its longest probe sequence. *)
Lemma psl_below_count rt u :
  table_inv rt -> in_range rt u -> key (slot rt u) <> None ->
  psl (slot rt u) < count rt.
Proof.
  intros I Hu Hocc. pose proof (inv_geometry rt I) as G.
  pose proof (geo_big rt G) as Hbig. pose proof (geo_len rt G) as Hlen.
  destruct (key (slot rt u)) as [k|] eqn:Ek; [|contradiction]. clear Hocc.
  destruct (inv_entries rt I u Hu k Ek) as (_ & _ & _ & Hp & _).
  set (n := bucket_count rt) in *. set (M := psl (slot rt u)) in *.
  unfold in_range in Hu. fold n in Hu.
  assert (Hchain : forall m : nat, Z.of_nat m <= M ->
             key (slot rt ((u + n - Z.of_nat m) mod n)) <> None).
  { intros m Hm.
    pose proof (robin_chain rt G (inv_robin rt I) m (u + n) ltac:(lia)) as Hc.
    fold n in Hc. rewrite <- Z.add_mod_idemp_r, Z.mod_same, Z.add_0_r in Hc by lia.
    rewrite Z.mod_small in Hc by lia.
    rewrite (rank_occupied _ k Ek) in Hc. fold M in Hc.
    assert (Hrk : 0 <= rank (slot rt ((u + n - Z.of_nat m) mod n))) by lia.
    destruct (rank_ge_occupied _ 0 ltac:(lia) Hrk) as (Hne & _).
    exact Hne. }
  set (W := map (fun m : nat => Z.to_nat ((u + n - Z.of_nat m) mod n))
                (seq 0 (S (Z.to_nat M)))).
  set (O := List.filter (fun i => negb (is_null (key (nth i (buckets rt) zero_bucket))))
                        (seq 0 (length (buckets rt)))).
  assert (HW : NoDup W).
  { unfold W. apply NoDup_fmap_2_strong; [|apply NoDup_seq].
    intros a b Ha Hb Heq. apply elem_of_seq in Ha, Hb.
    pose proof (mod_range (u + n - Z.of_nat a) n ltac:(lia)).
    pose proof (mod_range (u + n - Z.of_nat b) n ltac:(lia)).
    assert (Hmod : (u + n - Z.of_nat a) mod n = (u + n - Z.of_nat b) mod n) by lia.
    destruct (Nat.lt_trichotomy a b) as [Hlt | [-> | Hgt]]; [|reflexivity|].
    - exfalso. apply (mod_apart (u + n - Z.of_nat b) (u + n - Z.of_nat a) n); lia.
    - exfalso. apply (mod_apart (u + n - Z.of_nat a) (u + n - Z.of_nat b) n); lia. }
  assert (Hsub : forall x, x ∈ W -> x ∈ O).
  { intros x Hx. unfold W in Hx. apply list_elem_of_fmap in Hx.
    destruct Hx as (m & -> & Hm). apply elem_of_seq in Hm.
    pose proof (mod_range (u + n - Z.of_nat m) n ltac:(lia)) as Hr.
    specialize (Hchain m ltac:(lia)).
    unfold O. apply list_elem_of_In, filter_In. split.
    - apply in_seq. lia.
    - unfold slot, bucket_at in Hchain.
      destruct (key (nth _ (buckets rt) zero_bucket)); [reflexivity | contradiction]. }
  pose proof (submseteq_length _ _ (NoDup_submseteq _ _ HW Hsub)) as Hle.
  assert (HlenW : length W = S (Z.to_nat M)).
  { unfold W. rewrite length_map, length_seq. reflexivity. }
  pose proof (length_occupied_indices (buckets rt)) as HlenO. fold O in HlenO.
  rewrite (inv_count rt I). lia.
Qed.

Lemma psl_max_nonempty rt :
  table_inv rt -> count rt <> 0 ->
  exists M,
    robin_table_psl_max rt = Done M /\
    (forall i, in_range rt i -> key (slot rt i) <> None -> psl (slot rt i) <= M) /\
    (exists i, in_range rt i /\ key (slot rt i) <> None /\ psl (slot rt i) = M) /\
    0 <= M < count rt.
Proof.
  intros I Hne.
  pose proof (inv_geometry rt I) as G. pose proof (geo_big rt G) as Hbig.
  unfold robin_table_psl_max.
  destruct (Z.eqb_spec (count rt) 0) as [|_]; [contradiction|].
  cbn [negb RT_ASSERT]. rewrite bind_done.
  destruct (psl_max_loop_spec rt (Z.to_nat (bucket_count rt)) 0 0) as (Hge & Hub & Hatt).
  cbv zeta in Hge, Hub, Hatt.
  set (M := psl_max_loop (Z.to_nat (bucket_count rt)) 0 rt 0) in *.
  rewrite Z2Nat.id in Hub, Hatt by lia.
  assert (Hex : exists i, in_range rt i /\ key (slot rt i) <> None /\ psl (slot rt i) = M).
  { destruct Hatt as [HM | (j & Hj & Hj')]; [|exists j; split; [unfold in_range; lia | exact Hj']].
    destruct (occ_count_pos_exists (buckets rt)) as (i & Hi & Hocc).
    { rewrite <- (inv_count rt I). exact Hne. }
    rewrite (geo_len rt G) in Hi. exists i. split; [exact Hi|]. split; [exact Hocc|].
    fold (slot rt i) in Hocc. specialize (Hub i ltac:(lia) Hocc).
    destruct (key (slot rt i)) as [k|] eqn:Ek; [|contradiction].
    destruct (inv_entries rt I i Hi k Ek) as (_ & _ & _ & Hp & _). lia. }
  exists M. split; [reflexivity|]. split; [|split; [exact Hex|]].
  - intros i Hi Hocc. unfold in_range in Hi. apply Hub; [lia | exact Hocc].
  - split; [exact Hge|]. destruct Hex as (i & Hi & Hocc & <-).
    exact (psl_below_count rt i I Hi Hocc).
Qed.

(** X20 (the maximum probe sequence length).  On a reachable table with at
    least one entry [robin_table_psl_max] returns the largest [psl] of an
    occupied slot: no occupied slot has a larger one and some occupied
    slot has exactly it.  It is smaller than the number of entries.  On a
    table without entries the assertion [count != 0] fires. *)
Theorem psl_max_is_maximum dflt rt :
  reachable dflt rt ->
  (robin_table_count rt = 0 -> robin_table_psl_max rt = AssertFail) /\
  (robin_table_count rt <> 0 ->
   exists M,
     robin_table_psl_max rt = Done M /\
     (forall i, 0 <= i < bucket_count rt -> key (bucket_at (buckets rt) i) <> None ->
        psl (bucket_at (buckets rt) i) <= M) /\
     (exists i, 0 <= i < bucket_count rt /\ key (bucket_at (buckets rt) i) <> None /\
        psl (bucket_at (buckets rt) i) = M) /\
     0 <= M < robin_table_count rt).
Proof.
  intros Hr. destruct (reachable_WF dflt rt Hr) as (I & _). split.
  - unfold robin_table_psl_max, robin_table_count. intros ->. reflexivity.
  - intros Hne. exact (psl_max_nonempty rt I Hne).
Qed.

Lemma psl_max_is_maximum_witness :
  reachable first_byte_hash chain_table /\
  robin_table_count chain_table <> 0 /\
  robin_table_psl_max chain_table = Done 1 /\
  (robin_table_count chain_table = 0 -> robin_table_psl_max chain_table = AssertFail) /\
  (robin_table_count chain_table <> 0 ->
   exists M,
     robin_table_psl_max chain_table = Done M /\
     (forall i, 0 <= i < bucket_count chain_table ->
        key (bucket_at (buckets chain_table) i) <> None ->
        psl (bucket_at (buckets chain_table) i) <= M) /\
     (exists i, 0 <= i < bucket_count chain_table /\
        key (bucket_at (buckets chain_table) i) <> None /\
        psl (bucket_at (buckets chain_table) i) = M) /\
     0 <= M < robin_table_count chain_table).
Proof.
  assert (H2 : robin_table_count chain_table <> 0) by (vm_compute; discriminate).
  assert (H3 : robin_table_psl_max chain_table = Done 1) by (vm_compute; reflexivity).
  exact (conj chain_table_reachable (conj H2 (conj H3
           (psl_max_is_maximum first_byte_hash chain_table chain_table_reachable)))).
Defined.

Lemma get_bucket_loop_bounded rt h k kl M (fuel : nat) : forall i p,
  geometry rt ->
  (forall j, in_range rt j -> key (slot rt j) <> None -> psl (slot rt j) <= M) ->
  M < bucket_count rt ->
  in_range rt i -> 0 <= p -> M + 2 <= p + Z.of_nat fuel -> (1 <= fuel)%nat ->
  exists r, get_bucket_loop fuel rt h k kl i p = Done r.
Proof.
  induction fuel as [|fuel IH]; intros i p G Hub HM Hi Hp Hsum Hpos; [lia|].
  pose proof (geo_big rt G) as Hbig. pose proof (geo_small rt G) as Hsmall.
  rewrite get_bucket_loop_S.
  destruct (key_matches (slot rt i) h k kl); [eauto|].
  destruct (key (slot rt i)) as [ki|] eqn:Ek; cbn [is_null orb]; [|eauto].
  destruct (Z.ltb_spec (psl (slot rt i)) p) as [Hlt | Hge]; [eauto|].
  assert (Hle : psl (slot rt i) <= M) by (apply Hub; [exact Hi | rewrite Ek; discriminate]).
  rewrite (wrap64_small (p + 1)) by lia.
  apply IH; try assumption; try lia.
  rewrite (geo_land rt G). apply mod_range. lia.
Qed.

(** X21 (lookup cost).  On a reachable table with at least one entry,
    where [robin_table_psl_max] returns [M], every lookup, hit or miss,
    inspects at most [M + 2] slots: the probe loop of
    [robin_table_get_bucket] cut off after [M + 2] iterations has already
    returned, with the result of the uncut loop. *)
Theorem lookup_cost_bounded_by_psl_max dflt rt M (k : key_t) (kl : Z) :
  reachable dflt rt ->
  robin_table_psl_max rt = Done M ->
  exists r,
    get_bucket_loop (Z.to_nat M + 2) rt (hash_func rt k kl (seed rt)) k kl
      (Z.land (hash_func rt k kl (seed rt)) (mask rt)) 0 = Done r /\
    robin_table_get_bucket rt k kl = Done r.
Proof.
  intros Hr Hmax. destruct (reachable_WF dflt rt Hr) as (I & Hload).
  pose proof (inv_geometry rt I) as G. pose proof (geo_big rt G) as Hbig.
  pose proof (WF_room rt (conj I Hload)) as Hroom.
  assert (Hne : count rt <> 0).
  { intros H0. unfold robin_table_psl_max in Hmax. rewrite H0 in Hmax. discriminate. }
  destruct (psl_max_nonempty rt I Hne) as (M' & HM' & Hub & _ & HMr).
  rewrite HM' in Hmax. injection Hmax as ->.
  destruct (get_bucket_loop_bounded rt (hash_func rt k kl (seed rt)) k kl M
              (Z.to_nat M + 2) (Z.land (hash_func rt k kl (seed rt)) (mask rt)) 0
              G Hub ltac:(lia)) as (r & Hrun); try lia.
  - rewrite (geo_land rt G). apply mod_range. lia.
  - exists r. split; [exact Hrun|].
    unfold robin_table_get_bucket.
    apply (get_bucket_loop_fuel_mono (Z.to_nat M + 2)); [|exact Hrun].
    unfold probe_budget. lia.
Qed.

Lemma lookup_cost_bounded_by_psl_max_witness :
  reachable first_byte_hash chain_table /\
  robin_table_psl_max chain_table = Done 1 /\
  exists r,
    get_bucket_loop (Z.to_nat 1 + 2) chain_table
      (hash_func chain_table [65] 1 (seed chain_table)) [65] 1
      (Z.land (hash_func chain_table [65] 1 (seed chain_table)) (mask chain_table)) 0
    = Done r /\
    robin_table_get_bucket chain_table [65] 1 = Done r.
Proof.
  assert (H2 : robin_table_psl_max chain_table = Done 1) by (vm_compute; reflexivity).
  exact (conj chain_table_reachable (conj H2
           (lookup_cost_bounded_by_psl_max first_byte_hash chain_table 1 [65] 1
              chain_table_reachable H2))).
Defined.

(** * Hash strategies *)

(** ** The 128-bit product of rapidhash *)

Lemma u64_wrap x : u64 (wrap64 x).
Proof. unfold u64, wrap64. apply Z.mod_pos_bound. lia. Qed.

Lemma carry_detect x y :
  u64 x -> u64 y ->
  wrap64 (x + y) = x + y - 2 ^ 64 * (if wrap64 (x + y) <? x then 1 else 0).
Proof.
  unfold u64, wrap64. intros Hx Hy.
  destruct (Z_lt_le_dec (x + y) (2 ^ 64)) as [Hlt | Hge].
  - rewrite Z.mod_small by lia.
    destruct (Z.ltb_spec (x + y) x); lia.
  - assert (H : (x + y) mod 2 ^ 64 = x + y - 2 ^ 64).
    { symmetry. apply (Z.mod_unique _ _ 1); lia. }
    rewrite H. destruct (Z.ltb_spec (x + y - 2 ^ 64) x); lia.
Qed.

Lemma wrap64_shiftl_32 m : wrap64 (Z.shiftl m 32) = (m mod 2 ^ 32) * 2 ^ 32.
Proof.
  unfold wrap64. rewrite Z.shiftl_mul_pow2 by lia.
  change (2 ^ 64) with (2 ^ 32 * 2 ^ 32).
  rewrite Z.mul_mod_distr_r by lia. reflexivity.
Qed.

Lemma split_32 x : u64 x -> x = Z.shiftr x 32 * 2 ^ 32 + x mod 2 ^ 32 /\
  0 <= Z.shiftr x 32 < 2 ^ 32 /\ 0 <= x mod 2 ^ 32 < 2 ^ 32.
Proof.
  unfold u64. intros Hx. rewrite Z.shiftr_div_pow2 by lia.
  pose proof (Z.div_mod x (2 ^ 32) ltac:(lia)).
  pose proof (Z.mod_pos_bound x (2 ^ 32) ltac:(lia)).
  split; [lia|]. split; [|lia].
  split; [apply Z.div_pos; lia|]. apply Z.div_lt_upper_bound; lia.
Qed.

Lemma mul_32_u64 a b : 0 <= a < 2 ^ 32 -> 0 <= b < 2 ^ 32 -> u64 (a * b).
Proof. unfold u64. intros Ha Hb. nia. Qed.

(** X22 (the portable 128-bit product is exact).  For 64-bit operands the
    [#else] branch of [rapid_mul128], which builds the product from four
    32-bit partial products and two carry tests, returns the same pair as
    the [__uint128_t] branch, and that pair is the exact product:
    [low + 2 ^ 64 * high = A * B].  rapidhash therefore computes the same
    values whichever branch the compiler selects. *)
Theorem rapid_mul128_portable_exact A B :
  u64 A -> u64 B ->
  rapid_mul128_portable A B = rapid_mul128 A B /\
  fst (rapid_mul128 A B) + 2 ^ 64 * snd (rapid_mul128 A B) = A * B.
Proof.
  intros HA HB.
  assert (HAB : 0 <= A * B < 2 ^ 128).
  { unfold u64 in *. change (2 ^ 128) with (2 ^ 64 * 2 ^ 64). nia. }
  assert (Hq : 0 <= A * B / 2 ^ 64 < 2 ^ 64).
  { split; [apply Z.div_pos; lia|].
    apply Z.div_lt_upper_bound; [lia|]. change (2 ^ 64 * 2 ^ 64) with (2 ^ 128). lia. }
  assert (Hint : rapid_mul128 A B = ((A * B) mod 2 ^ 64, A * B / 2 ^ 64)).
  { unfold rapid_mul128. cbv zeta. rewrite (Z.mod_small (A * B)) by exact HAB.
    rewrite Z.shiftr_div_pow2 by lia.
    unfold wrap64. rewrite (Z.mod_small (A * B / 2 ^ 64)) by exact Hq. reflexivity. }
  split.
  2:{ rewrite Hint. cbn [fst snd]. pose proof (Z.div_mod (A * B) (2 ^ 64) ltac:(lia)). lia. }
  rewrite Hint. unfold rapid_mul128_portable. cbv zeta.
  destruct (split_32 A HA) as (EA & Hah & Hal).
  destruct (split_32 B HB) as (EB & Hbh & Hbl).
  set (ah := Z.shiftr A 32) in *. set (al := A mod 2 ^ 32) in *.
  set (bh := Z.shiftr B 32) in *. set (bl := B mod 2 ^ 32) in *.
  pose proof (mul_32_u64 ah bh Hah Hbh) as Hrh.
  pose proof (mul_32_u64 ah bl Hah Hbl) as Hm0.
  pose proof (mul_32_u64 bh al Hbh Hal) as Hm1.
  pose proof (mul_32_u64 al bl Hal Hbl) as Hrl.
  rewrite (wrap64_small (ah * bh)), (wrap64_small (ah * bl)),
    (wrap64_small (bh * al)), (wrap64_small (al * bl)) by assumption.
  assert (Hprod : A * B = ah * bh * 2 ^ 64 + (ah * bl + bh * al) * 2 ^ 32 + al * bl).
  { rewrite EA, EB. change (2 ^ 64) with (2 ^ 32 * 2 ^ 32). ring. }
  set (rh := ah * bh) in *. set (m0 := ah * bl) in *.
  set (m1 := bh * al) in *. set (rl := al * bl) in *.
  destruct (split_32 m0 Hm0) as (E0 & H0h & H0l).
  destruct (split_32 m1 Hm1) as (E1 & H1h & H1l).
  rewrite !wrap64_shiftl_32.
  set (m0h := Z.shiftr m0 32) in *. set (m0l := m0 mod 2 ^ 32) in *.
  set (m1h := Z.shiftr m1 32) in *. set (m1l := m1 mod 2 ^ 32) in *.
  assert (Hs0 : u64 (m0l * 2 ^ 32)) by (unfold u64; lia).
  assert (Hs1 : u64 (m1l * 2 ^ 32)) by (unfold u64; lia).
  pose proof (carry_detect rl (m0l * 2 ^ 32) Hrl Hs0) as Ht.
  set (t := wrap64 (rl + m0l * 2 ^ 32)) in *.
  assert (Htu : u64 t) by apply u64_wrap.
  pose proof (carry_detect t (m1l * 2 ^ 32) Htu Hs1) as Hl.
  set (low := wrap64 (t + m1l * 2 ^ 32)) in *.
  assert (Hlow : u64 low) by apply u64_wrap.
  set (c1 := if t <? rl then 1 else 0) in *.
  set (c2 := if low <? t then 1 else 0) in *.
  assert (Hc1 : 0 <= c1 <= 1) by (unfold c1; destruct (t <? rl); lia).
  assert (Hc2 : 0 <= c2 <= 1) by (unfold c2; destruct (low <? t); lia).
  assert (Htot : A * B = 2 ^ 64 * (rh + m0h + m1h + c1 + c2) + low).
  { rewrite Hprod. unfold u64 in *. lia. }
  assert (HH : 0 <= rh + m0h + m1h + c1 + c2 < 2 ^ 64).
  { unfold u64 in *. split; [lia|].
    assert (2 ^ 64 * (rh + m0h + m1h + c1 + c2) < 2 ^ 64 * 2 ^ 64); [|lia].
    change (2 ^ 64 * 2 ^ 64) with (2 ^ 128). lia. }
  assert (Hhigh : wrap64 (wrap64 (wrap64 (wrap64 (rh + m0h) + m1h) + c1) + c2)
                  = rh + m0h + m1h + c1 + c2).
  { unfold u64 in *.
    rewrite (wrap64_small (rh + m0h)) by lia.
    rewrite (wrap64_small (rh + m0h + m1h)) by lia.
    rewrite (wrap64_small (rh + m0h + m1h + c1)) by lia.
    apply wrap64_small. lia. }
  rewrite Hhigh. f_equal.
  - apply (Z.mod_unique _ _ (rh + m0h + m1h + c1 + c2)); [left; exact Hlow | exact Htot].
  - apply (Z.div_unique _ _ _ low); [left; exact Hlow | exact Htot].
Qed.

Lemma rapid_mul128_portable_exact_witness :
  u64 (2 ^ 64 - 1) /\ u64 0xdeadbeef12345678 /\
  rapid_mul128_portable (2 ^ 64 - 1) 0xdeadbeef12345678
  = rapid_mul128 (2 ^ 64 - 1) 0xdeadbeef12345678 /\
  fst (rapid_mul128 (2 ^ 64 - 1) 0xdeadbeef12345678)
  + 2 ^ 64 * snd (rapid_mul128 (2 ^ 64 - 1) 0xdeadbeef12345678)
  = (2 ^ 64 - 1) * 0xdeadbeef12345678.
Proof.
  assert (H1 : u64 (2 ^ 64 - 1)) by (unfold u64; lia).
  assert (H2 : u64 0xdeadbeef12345678) by (unfold u64; lia).
  exact (conj H1 (conj H2
           (rapid_mul128_portable_exact (2 ^ 64 - 1) 0xdeadbeef12345678 H1 H2))).
Defined.

(** ** SipHash *)

Lemma siphash_blocks_ext len inp inp' (n : nat) : forall curr v,
  same_prefix len inp inp' -> 0 <= curr -> curr + 8 * Z.of_nat n <= len ->
  siphash_blocks n inp' curr v = siphash_blocks n inp curr v.
Proof.
  induction n as [|n IH]; intros curr v Hp Hc Hl; [reflexivity|].
  cbn [siphash_blocks].
  rewrite <- !(Hp _) by lia. cbv zeta.
  destruct v as [[[a b] c] d].
  destruct (SIPROUND (SIPROUND _)) as [[[a' b'] c'] d'].
  apply IH; [exact Hp | lia | lia].
Qed.

(** X23 (SipHash reads only the key).  [robin_table_siphash] depends on
    the first [len] bytes of the buffer only: two buffers that agree on
    their first [len] bytes hash to the same value for every seed, so the
    result never depends on a byte at or past offset [len]. *)
Theorem siphash_reads_only_the_key inp inp' len seed :
  0 <= len -> same_prefix len inp inp' ->
  robin_table_siphash inp' len seed = robin_table_siphash inp len seed.
Proof.
  intros Hlen Hp. unfold robin_table_siphash, siphash. cbv zeta.
  pose proof (Z.div_mod len 8 ltac:(lia)) as Hdm.
  pose proof (Z.mod_pos_bound len 8 ltac:(lia)) as Hm.
  assert (Hd : 0 <= len / 8) by (apply Z.div_pos; lia).
  rewrite (siphash_blocks_ext len inp inp') by (try assumption; lia).
  destruct (siphash_blocks _ inp 0 _) as [[[a b] c] d].
  repeat match goal with
         | |- context [if ?j <=? len mod 8 then _ else _] =>
             destruct (Z.leb_spec j (len mod 8))
         end;
    rewrite <- ?(Hp _) by lia; reflexivity.
Qed.

(** ** XXH64 *)

Section Prefix.

Variable len : Z.
Variables k k' : key_t.
Hypothesis Hp : same_prefix len k k'.

Lemma XXH_read64_ext off :
  0 <= off -> off + 8 <= len -> XXH_read64 k' off = XXH_read64 k off.
Proof. intros Ho Hl. unfold XXH_read64. rewrite <- !(Hp _) by lia. reflexivity. Qed.

Lemma XXH_read32_ext off :
  0 <= off -> off + 4 <= len -> XXH_read32 k' off = XXH_read32 k off.
Proof. intros Ho Hl. unfold XXH_read32. rewrite <- !(Hp _) by lia. reflexivity. Qed.

Lemma XXH64_stripes_ext (n : nat) : forall offset acc,
  0 <= offset -> offset + 32 * Z.of_nat n <= len ->
  XXH64_stripes n k' offset acc = XXH64_stripes n k offset acc.
Proof.
  induction n as [|n IH]; intros offset acc Ho Hl; [reflexivity|].
  cbn [XXH64_stripes]. destruct acc as [[[a1 a2] a3] a4]. cbv zeta.
  rewrite !XXH_read64_ext by lia. apply IH; lia.
Qed.

Lemma XXH64_words_ext (n : nat) : forall offset hash,
  0 <= offset -> offset + 8 * Z.of_nat n <= len ->
  XXH64_words n k' offset hash = XXH64_words n k offset hash.
Proof.
  induction n as [|n IH]; intros offset hash Ho Hl; [reflexivity|].
  cbn [XXH64_words]. cbv zeta.
  rewrite XXH_read64_ext by lia. apply IH; lia.
Qed.

Lemma XXH64_bytes_ext (n : nat) : forall offset hash,
  0 <= offset -> offset + Z.of_nat n <= len ->
  XXH64_bytes n k' offset hash = XXH64_bytes n k offset hash.
Proof.
  induction n as [|n IH]; intros offset hash Ho Hl; [reflexivity|].
  cbn [XXH64_bytes]. cbv zeta.
  rewrite <- (Hp offset) by lia. apply IH; lia.
Qed.

Lemma rapid_read64_ext off :
  0 <= off -> off + 8 <= len -> rapid_read64 k' off = rapid_read64 k off.
Proof. intros Ho Hl. unfold rapid_read64. rewrite <- !(Hp _) by lia. reflexivity. Qed.

Lemma rapid_read32_ext off :
  0 <= off -> off + 4 <= len -> rapid_read32 k' off = rapid_read32 k off.
Proof. intros Ho Hl. unfold rapid_read32. rewrite <- !(Hp _) by lia. reflexivity. Qed.

Lemma rapidhash_rounds_ext secret (n : nat) : forall p s,
  0 <= p -> p + 48 * Z.of_nat n <= len ->
  rapidhash_rounds n k' p secret s = rapidhash_rounds n k p secret s.
Proof.
  induction n as [|n IH]; intros p s Ho Hl; [reflexivity|].
  cbn [rapidhash_rounds]. destruct s as [[seed see1] see2]. cbv zeta.
  rewrite !rapid_read64_ext by lia. apply IH; lia.
Qed.

End Prefix.

(** X24 (XXH64 reads only the key).  [robin_table_xxh64] depends on the
    first [len] bytes of the buffer only: two buffers that agree on their
    first [len] bytes hash to the same value for every seed. *)
Theorem xxh64_reads_only_the_key k k' len seed :
  0 <= len -> same_prefix len k k' ->
  robin_table_xxh64 k' len seed = robin_table_xxh64 k len seed.
Proof.
  intros Hlen Hp. unfold robin_table_xxh64, XXH64. cbv zeta.
  pose proof (Z.div_mod len 32 ltac:(lia)) as Hdm.
  pose proof (Z.mod_pos_bound len 32 ltac:(lia)) as Hm.
  assert (Hd : 0 <= len / 32) by (apply Z.div_pos; lia).
  assert (Htail : forall r, 0 <= r ->
            r = 8 * (r / 8) + r mod 8 /\ 0 <= r mod 8 < 8 /\ 0 <= r / 8).
  { intros r Hr. pose proof (Z.div_mod r 8 ltac:(lia)).
    pose proof (Z.mod_pos_bound r 8 ltac:(lia)).
    split; [lia|]. split; [lia|]. apply Z.div_pos; lia. }
  destruct (Z.leb_spec 32 len) as [Hge | Hlt].
  - rewrite (XXH64_stripes_ext len k k' Hp) by lia.
    destruct (XXH64_stripes _ k 0 _) as [[[a1 a2] a3] a4].
    destruct (Htail (len mod 32) ltac:(lia)) as (Hr & Hrm & Hrd).
    rewrite (XXH64_words_ext len k k' Hp) by lia.
    destruct (Z.leb_spec 4 ((len mod 32) mod 8)).
    + rewrite (XXH_read32_ext len k k' Hp) by lia.
      rewrite (XXH64_bytes_ext len k k' Hp) by lia. reflexivity.
    + rewrite (XXH64_bytes_ext len k k' Hp) by lia. reflexivity.
  - destruct (Htail len Hlen) as (Hr & Hrm & Hrd).
    rewrite (XXH64_words_ext len k k' Hp) by lia.
    destruct (Z.leb_spec 4 (len mod 8)).
    + rewrite (XXH_read32_ext len k k' Hp) by lia.
      rewrite (XXH64_bytes_ext len k k' Hp) by lia. reflexivity.
    + rewrite (XXH64_bytes_ext len k k' Hp) by lia. reflexivity.
Qed.

(** ** rapidhash *)

Lemma rapid_delta_range len :
  4 <= len <= 16 ->
  0 <= Z.shiftr (Z.land len 24) (Z.shiftr len 3) <= len - 4.
Proof.
  intros Hl.
  assert (H : len = 4 \/ len = 5 \/ len = 6 \/ len = 7 \/ len = 8 \/ len = 9 \/
              len = 10 \/ len = 11 \/ len = 12 \/ len = 13 \/ len = 14 \/
              len = 15 \/ len = 16) by lia.
  repeat (destruct H as [-> | H]; [vm_compute; split; discriminate|]).
  subst len. vm_compute. split; discriminate.
Qed.

(** X25 (rapidhash reads only the key).  [robin_table_rapidhash] depends
    on the first [len] bytes of the buffer only, in each of its length
    classes (up to 3, 4 to 16, 17 to 48, above 48 bytes): two buffers that
    agree on their first [len] bytes hash to the same value for every
    seed. *)
Theorem rapidhash_reads_only_the_key k k' len seed :
  0 <= len -> same_prefix len k k' ->
  robin_table_rapidhash k' len seed = robin_table_rapidhash k len seed.
Proof.
  intros Hlen Hp. unfold robin_table_rapidhash, rapidhash, rapidhash_internal. cbv zeta.
  destruct (Z.leb_spec len 16) as [Hle | Hgt].
  - destruct (Z.leb_spec 4 len) as [H4 | H4].
    + pose proof (rapid_delta_range len ltac:(lia)) as Hd.
      rewrite !(rapid_read32_ext len k k' Hp) by lia. reflexivity.
    + destruct (Z.ltb_spec 0 len) as [H0 | H0]; [|reflexivity].
      unfold rapid_readSmall.
      assert (Hs : 0 <= Z.shiftr len 1 < len).
      { rewrite Z.shiftr_div_pow2 by lia. change (2 ^ 1) with 2.
        split; [apply Z.div_pos; lia | apply Z.div_lt_upper_bound; lia]. }
      rewrite <- !(Hp _) by lia. reflexivity.
  - pose proof (Z.div_mod len 48 ltac:(lia)) as Hdm.
    pose proof (Z.mod_pos_bound len 48 ltac:(lia)) as Hm.
    assert (Hd : 0 <= len / 48) by (apply Z.div_pos; lia).
    destruct (Z.ltb_spec 48 len) as [H48 | H48].
    + rewrite (rapidhash_rounds_ext len k k' Hp) by lia.
      destruct (rapidhash_rounds _ k 0 _ _) as [[s0 s1] s2].
      destruct (Z.ltb_spec 16 (len mod 48)) as [H16 | H16].
      * destruct (Z.ltb_spec 32 (len mod 48)) as [H32 | H32];
          rewrite !(rapid_read64_ext len k k' Hp) by lia; reflexivity.
      * rewrite !(rapid_read64_ext len k k' Hp) by lia. reflexivity.
    + destruct (Z.ltb_spec 16 len) as [H16 | H16]; [|lia].
      destruct (Z.ltb_spec 32 len) as [H32 | H32];
        rewrite !(rapid_read64_ext len k k' Hp) by lia; reflexivity.
Qed.

(** ** Buffers with a common prefix *)

Lemma same_prefix_sample :
  same_prefix 11 [1; 2; 3; 4; 5; 6; 7; 8; 9; 10; 11]
                 [1; 2; 3; 4; 5; 6; 7; 8; 9; 10; 11; 77; 78].
Proof.
  intros i Hi. unfold byte_at.
  assert (H : exists n : nat, (n < 11)%nat /\ i = Z.of_nat n)
    by (exists (Z.to_nat i); lia).
  destruct H as (n & Hn & ->). rewrite Nat2Z.id.
  do 11 (destruct n as [|n]; [reflexivity|]). lia.
Qed.

Lemma siphash_reads_only_the_key_witness :
  0 <= 11 /\
  same_prefix 11 [1; 2; 3; 4; 5; 6; 7; 8; 9; 10; 11]
                 [1; 2; 3; 4; 5; 6; 7; 8; 9; 10; 11; 77; 78] /\
  robin_table_siphash [1; 2; 3; 4; 5; 6; 7; 8; 9; 10; 11; 77; 78] 11 42
  = robin_table_siphash [1; 2; 3; 4; 5; 6; 7; 8; 9; 10; 11] 11 42.
Proof.
  assert (H1 : 0 <= 11) by lia.
  exact (conj H1 (conj same_prefix_sample
           (siphash_reads_only_the_key _ _ 11 42 H1 same_prefix_sample))).
Defined.

Lemma xxh64_reads_only_the_key_witness :
  0 <= 11 /\
  same_prefix 11 [1; 2; 3; 4; 5; 6; 7; 8; 9; 10; 11]
                 [1; 2; 3; 4; 5; 6; 7; 8; 9; 10; 11; 77; 78] /\
  robin_table_xxh64 [1; 2; 3; 4; 5; 6; 7; 8; 9; 10; 11; 77; 78] 11 42
  = robin_table_xxh64 [1; 2; 3; 4; 5; 6; 7; 8; 9; 10; 11] 11 42.
Proof.
  assert (H1 : 0 <= 11) by lia.
  exact (conj H1 (conj same_prefix_sample
           (xxh64_reads_only_the_key _ _ 11 42 H1 same_prefix_sample))).
Defined.

Lemma rapidhash_reads_only_the_key_witness :
  0 <= 11 /\
  same_prefix 11 [1; 2; 3; 4; 5; 6; 7; 8; 9; 10; 11]
                 [1; 2; 3; 4; 5; 6; 7; 8; 9; 10; 11; 77; 78] /\
  robin_table_rapidhash [1; 2; 3; 4; 5; 6; 7; 8; 9; 10; 11; 77; 78] 11 42
  = robin_table_rapidhash [1; 2; 3; 4; 5; 6; 7; 8; 9; 10; 11] 11 42.
Proof.
  assert (H1 : 0 <= 11) by lia.
  exact (conj H1 (conj same_prefix_sample
           (rapidhash_reads_only_the_key _ _ 11 42 H1 same_prefix_sample))).
Defined.
